(** * The erasure-coded read path and the object listing loop of minio

    A shallow embedding of

    - [src/bucket-handlers.go] (second document, the XL object layer):
      [checkBlockSize], [getEncodedBlockLen], [getMetaDataFileVersions],
      [getReadFileQuorumDisks], [getFileSize] and [ReadFile] with its
      producer goroutine;
    - [src/pkg/fs/fs-bucket-listobjects.go]: [ListObjects];
    - [src/fs-dir-nix.go]: [clen], [parseDirents] and [readDirAll];
    - [src/unnamed/part_003]: [parsePercentToInt];
    - [src/unnamed/part_004]: the server list of the controller service;
    - [src/bucket-handlers.go] (first document): [ListObjectsHandler] and
      [PutBucketHandler].

    Go values are modelled as follows.  [int] and [int64] are [Z] (with the
    64-bit wrap-around written out where the code does arithmetic), slice
    lengths and slice indices are [nat], a [[]byte] is a [list Byte.byte]
    and a possibly-nil [[]byte] an [option (list Byte.byte)], a Go map is a
    [gmap] under an [option] whose [None] is the nil map, a run-time panic
    is the [Panic] outcome of the [Run] monad, and a Go [(value, error)]
    pair is a [result]. *)

From Stdlib Require Import ZArith String List Lia Sorted.
From Stdlib Require Strings.Byte.
From stdpp Require Import base tactics option list gmap strings pretty.

Open Scope Z_scope.

(** ** Outcomes shared by both packages *)

(** The error values the modelled code creates or passes on. *)
Inductive error : Type :=
| errInvalidArgument
| errReadQuorum
| errMissingFileSize          (* "missing 'file.size' in meta data" *)
| errAllBlocksZero            (* "Data likely corrupted, all blocks are zero in length." *)
| errVerifyAfterReconstruct   (* "Verification failed after reconstruction, data likely corrupted." *)
| EOF                         (* io.EOF *)
| ErrUnexpectedEOF            (* io.ErrUnexpectedEOF *)
| ErrClosedPipe               (* io.ErrClosedPipe *)
| errDisk (code : nat)        (* an error value of a storage backend *)
| errJSON (code : nat)        (* an error of encoding/json *)
| errParseInt (code : nat)    (* an error of strconv.ParseInt *)
| errCodec (code : nat).      (* an error of the Reed-Solomon codec *)

#[global] Instance error_eq_dec : EqDecision error.
Proof. solve_decision. Defined.

(** A Go [(value, error)] result. *)
Inductive result (A : Type) : Type :=
| Ok (a : A)
| Err (e : error).
Arguments Ok {A} a.
Arguments Err {A} e.

(** The run-time panics the modelled code can raise. *)
Inductive panic : Type :=
| NilMapWrite        (* assignment to entry in nil map *)
| IndexOutOfRange    (* index out of range *)
| DivideByZero       (* integer divide by zero *)
| NegativeLen        (* makeslice: len out of range *)
| NilDereference.    (* method call on a nil interface value *)

(** A computation that returns or panics. *)
Inductive Run (A : Type) : Type :=
| Ret (a : A)
| Panic (p : panic).
Arguments Ret {A} a.
Arguments Panic {A} p.

#[global] Instance Run_ret : MRet Run := @Ret.
#[global] Instance Run_bind : MBind Run := λ A B f m,
  match m with
  | Ret a => f a
  | Panic p => Panic p
  end.

(** int64 wrap-around (two's complement). *)
Definition wrap64 (z : Z) : Z := (z + 2^63) mod 2^64 - 2^63.

Module XL.

(** ** Bytes, shards and readers *)

Abbreviation byte := Byte.byte.
Abbreviation bytes := (list Byte.byte).

(** An entry of [enBlocks [][]byte]: [None] is the nil slice. *)
Abbreviation shard := (option (list Byte.byte)).

#[global] Instance byte_eq_dec : EqDecision Byte.byte := Byte.byte_eq_dec.

(** [len(block)]. *)
Definition shard_len (b : shard) : nat :=
  match b with
  | None => 0%nat
  | Some bs => length bs
  end.

(** [checkBlockSize]: the first non-zero length, or 0. *)
Fixpoint checkBlockSize (blocks : list shard) : nat :=
  match blocks with
  | [] => 0%nat
  | block :: rest =>
      if decide (shard_len block ≠ 0%nat) then shard_len block
      else checkBlockSize rest
  end.

(** [getEncodedBlockLen]: [(inputLen + dataBlocks - 1) / dataBlocks] on
    [int]; Go's [/] truncates towards zero and panics on a zero divisor. *)
Definition getEncodedBlockLen (inputLen dataBlocks : Z) : Run Z :=
  if decide (dataBlocks = 0) then Panic DivideByZero
  else Ret (wrap64 (Z.quot (wrap64 (wrap64 (inputLen + dataBlocks) - 1)) dataBlocks)).

(** An open [io.ReadCloser] over a shard file: the bytes it still has to
    deliver, the error its [Read] returns once they are delivered
    ([None]: [io.EOF]), and how often [Close] was called on it. *)
Record Reader : Type := mkReader {
  pending : bytes;
  fault : option error;
  closes : nat;
}.

Definition zeros (n : nat) : bytes := replicate n Byte.x00.

(** [io.ReadFull(reader, buf)] for a fresh [buf = make([]byte, n)]: the
    reader after the call, the buffer, and the error.  Following
    [io.ReadAtLeast]: no error when [n] bytes were read; otherwise the
    reader's error, with [io.EOF] turned into [io.ErrUnexpectedEOF] when at
    least one byte was read. *)
Definition ReadFull (r : Reader) (n : nat) : Reader * bytes * option error :=
  if decide (n ≤ length (pending r))%nat then
    (mkReader (drop n (pending r)) (fault r) (closes r), take n (pending r), None)
  else
    let e := default EOF (fault r) in
    let e' := if decide (0 < length (pending r))%nat then
                if decide (e = EOF) then ErrUnexpectedEOF else e
              else e in
    (mkReader [] (fault r) (closes r),
     pending r ++ zeros (n - length (pending r)), Some e').

(** [reader.Close()]. *)
Definition Close (r : Reader) : Reader :=
  mkReader (pending r) (fault r) (S (closes r)).

(** ** The erasure codec

    [xl.ReedSolomon] is an encoder of an outside package; the code calls
    its [Verify], [Reconstruct] and [Join].  [Reconstruct] fills the
    missing entries of the slice it is given, so the model returns the
    slice after the call.  [Join] is given the writer; the model returns
    the bytes it hands to the writer. *)
Record Codec : Type := mkCodec {
  Verify : list shard → result bool;
  Reconstruct : list shard → result (list shard);
  Join : list shard → Z → result bytes;
}.

(** ** The XL receiver and its surroundings *)

(** A [StorageAPI] value, as far as the map of versions can tell two of
    them apart. *)
Definition StorageAPI : Type := nat.

(** The fields of [XL] the read path uses (the struct is declared outside
    the files at hand). *)
Record XL : Type := mkXL {
  storageDisks : list StorageAPI;
  readQuorum : Z;
  DataBlocks : Z;
  ParityBlocks : Z;
  ReedSolomon : Codec;
}.

(** What the read path calls but does not define: the backends'
    [ReadFile], [encoding/json], [strconv.ParseInt], [path.Join], the two
    validators, the constants [metadataFile] and [erasureBlockSize], and
    the order in which [range] visits a map (Go leaves it open).
    [jsonDecode] gives the keys stored into the target map and the error:
    Go's decoder keeps the entries a map already has, and may have stored
    some keys when it reports a type error. *)
Record World : Type := mkWorld {
  disk_ReadFile : StorageAPI → string → string → Z → result Reader;
  jsonDecode : Reader → list (string * string) * option error;
  ParseInt : string → result Z;
  slashpathJoin : string → string → string;
  isValidVolname : string → bool;
  isValidPath : string → bool;
  metadataFile : string;
  erasureBlockSize : Z;
  rangeOrder : gmap StorageAPI Z → list (StorageAPI * Z);
}.

(** A Go [map[StorageAPI]int64]; [None] is the nil map, which reads as
    empty and panics on assignment. *)
Definition versionMap : Type := option (gmap StorageAPI Z).

Definition map_assign (m : versionMap) (k : StorageAPI) (v : Z) : Run versionMap :=
  match m with
  | None => Panic NilMapWrite
  | Some g => Ret (Some (<[k:=v]> g))
  end.

(** [for k, v := range m]. *)
Definition range (W : World) (m : versionMap) : list (StorageAPI * Z) :=
  match m with
  | None => []
  | Some g => rangeOrder W g
  end.

(** The decoder stores keys into the map it is given. *)
Definition store_keys (kvs : list (string * string)) (metadata : gmap string string)
  : gmap string string :=
  foldl (λ m kv, <[kv.1:=kv.2]> m) metadata kvs.

Section xl.
Context (W : World).

(** The loop of [getMetaDataFileVersions].  [metadata] is made once,
    before the loop, and is the target of every disk's decode. *)
Fixpoint versions_loop (volume metadataFilePath : string) (disks : list StorageAPI)
    (metadata : gmap string string) (diskVersionMap : versionMap) : Run versionMap :=
  match disks with
  | [] => Ret diskVersionMap
  | disk :: rest =>
      diskVersionMap ← map_assign diskVersionMap disk (-1);
      match disk_ReadFile W disk volume metadataFilePath 0 with
      | Err _ => versions_loop volume metadataFilePath rest metadata diskVersionMap
      | Ok metadataReader =>
          let '(kvs, err) := jsonDecode W metadataReader in
          let metadata := store_keys kvs metadata in
          match err with
          | Some _ => versions_loop volume metadataFilePath rest metadata diskVersionMap
          | None =>
              match metadata !! "file.version"%string with
              | None =>
                  diskVersionMap ← map_assign diskVersionMap disk 0;
                  versions_loop volume metadataFilePath rest metadata diskVersionMap
              | Some s =>
                  match ParseInt W s with
                  | Err _ => versions_loop volume metadataFilePath rest metadata diskVersionMap
                  | Ok fileVersion =>
                      diskVersionMap ← map_assign diskVersionMap disk fileVersion;
                      versions_loop volume metadataFilePath rest metadata diskVersionMap
                  end
              end
          end
      end
  end.

(** [getMetaDataFileVersions]: the named result [diskVersionMap] starts as
    the zero value of its type, the nil map. *)
Definition getMetaDataFileVersions (xl : XL) (volume path : string) : Run versionMap :=
  versions_loop volume (slashpathJoin W path (metadataFile W)) (storageDisks xl) ∅ None.

Record quorumDisk : Type := mkQuorumDisk {
  disk : StorageAPI;
  index : nat;
}.

(** The loop of [getReadFileQuorumDisks] over the entries of the map in the
    order [range] visits them. *)
Fixpoint quorum_loop (entries : list (StorageAPI * Z)) (higherVersion : Z) (i : nat)
    (quorumDisks : list quorumDisk) : list quorumDisk :=
  match entries with
  | [] => quorumDisks
  | (disk, version) :: rest =>
      if decide (version > higherVersion) then
        quorum_loop rest version (S i) [mkQuorumDisk disk i]
      else if decide (version = higherVersion) then
        quorum_loop rest higherVersion (S i) (quorumDisks ++ [mkQuorumDisk disk i])
      else
        quorum_loop rest higherVersion (S i) quorumDisks
  end.

(** Lines 554-567: [higherVersion := 0], [i := 0], nil [quorumDisks]. *)
Definition quorumDisksOf (entries : list (StorageAPI * Z)) : list quorumDisk :=
  quorum_loop entries 0 0%nat [].

Definition getReadFileQuorumDisks (xl : XL) (volume path : string) : Run (list quorumDisk) :=
  diskVersionMap ← getMetaDataFileVersions xl volume path;
  Ret (quorumDisksOf (range W diskVersionMap)).

(** [getFileSize]: its [metadata] map is fresh. *)
Definition getFileSize (volume path : string) (disk : StorageAPI) : result Z :=
  match disk_ReadFile W disk volume (slashpathJoin W path (metadataFile W)) 0 with
  | Err e => Err e
  | Ok metadataReader =>
      let '(kvs, err) := jsonDecode W metadataReader in
      let metadata := store_keys kvs ∅ in
      match err with
      | Some e => Err e
      | None =>
          match metadata !! "file.size"%string with
          | None => Err errMissingFileSize
          | Some s => ParseInt W s
          end
      end
  end.

(** The shard-open loop of [ReadFile] (lines 620-640); [n] is
    [len(quorumDisks)], [readers] starts as the empty slice literal. *)
Definition partName (index : nat) : string := "part." +:+ pretty index.

Fixpoint open_loop (xl : XL) (volume path : string) (offset : Z) (n : nat)
    (rest : list quorumDisk) (readers : list (option Reader)) (readFileError : Z)
    (i : nat) : Run (result (list (option Reader))) :=
  match rest with
  | [] => Ret (Ok readers)
  | quorumDisk :: rest' =>
      let erasurePart := slashpathJoin W path (partName (index quorumDisk)) in
      match disk_ReadFile W (disk quorumDisk) volume erasurePart offset with
      | Err err =>
          if decide (readFileError < wrap64 (Z.of_nat n - readQuorum xl)) then
            open_loop xl volume path offset n rest' readers (wrap64 (readFileError + 1)) i
          else Ret (Err err)
      | Ok erasuredPartReader =>
          if decide (i < length readers)%nat then
            open_loop xl volume path offset n rest'
              (<[i:=Some erasuredPartReader]> readers) readFileError (S i)
          else Panic IndexOutOfRange
      end
  end.

(** ** The pipe and the producer goroutine *)

(** The pipe as the producer sees it: what the consumer took, one chunk
    for the writes of each [Join] call (the last may be cut short), and the
    consumer's behaviour: it closes its end after [demand] bytes ([None]:
    it reads until the pipe ends). *)
Record Pipe : Type := mkPipe {
  chunks : list bytes;
  demand : option nat;
}.

Definition delivered (p : Pipe) : bytes := concat (chunks p).

(** [pipeWriter.Write(bs)]: the bytes go through while the consumer has
    not closed its end; after that the write fails with [io.ErrClosedPipe]. *)
Definition pipeWrite (p : Pipe) (bs : bytes) : Pipe * option error :=
  match demand p with
  | None => (mkPipe (chunks p ++ [bs]) None, None)
  | Some k =>
      if decide (length (delivered p) < k ∧ length (delivered p) + length bs ≤ k)%nat
      then (mkPipe (chunks p ++ [bs]) (Some k), None)
      else (mkPipe (chunks p ++ [take (k - length (delivered p)) bs]) (Some k),
            Some ErrClosedPipe)
  end.

(** Lines 657-671: fill [enBlocks] from the readers. *)
Fixpoint read_loop (curEncBlockSize : Z) (index : nat) (readers : list (option Reader))
    (enBlocks : list shard) : Run (list (option Reader) * list shard) :=
  match readers with
  | [] => Ret ([], enBlocks)
  | None :: rest =>
      if decide (index < length enBlocks)%nat then
        '(rest', enBlocks) ← read_loop curEncBlockSize (S index) rest (<[index:=None]> enBlocks);
        Ret (None :: rest', enBlocks)
      else Panic IndexOutOfRange
  | Some reader :: rest =>
      if decide (curEncBlockSize < 0) then Panic NegativeLen
      else if decide (index < length enBlocks)%nat then
        let '(reader, buf, err) := ReadFull reader (Z.to_nat curEncBlockSize) in
        let block :=
          match err with
          | Some e => if decide (e ≠ ErrUnexpectedEOF) then None else Some buf
          | None => Some buf
          end in
        '(rest', enBlocks) ← read_loop curEncBlockSize (S index) rest (<[index:=block]> enBlocks);
        Ret (Some reader :: rest', enBlocks)
      else Panic IndexOutOfRange
  end.

Definition readShards (curEncBlockSize totalBlocks : Z) (readers : list (option Reader))
  : Run (list (option Reader) * list shard) :=
  if decide (totalBlocks < 0) then Panic NegativeLen
  else read_loop curEncBlockSize 0 readers (replicate (Z.to_nat totalBlocks) None).

(** Lines 675-716 up to the write into the pipe: the bytes [Join] hands to
    the writer, or the error the pipe is closed with. *)
Definition decodeBlock (rs : Codec) (enBlocks : list shard) (curBlockSize : Z) : result bytes :=
  if decide (checkBlockSize enBlocks = 0%nat) then Err errAllBlocksZero
  else
    match Verify rs enBlocks with
    | Err err => Err err
    | Ok true => Join rs enBlocks curBlockSize
    | Ok false =>
        match Reconstruct rs enBlocks with
        | Err err => Err err
        | Ok enBlocks =>
            match Verify rs enBlocks with
            | Err err => Err err
            | Ok false => Err errVerifyAfterReconstruct
            | Ok true => Join rs enBlocks curBlockSize
            end
        end
    end.

(** Lines 725-728. *)
Fixpoint close_readers (readers : list (option Reader)) : Run (list (option Reader)) :=
  match readers with
  | [] => Ret []
  | None :: _ => Panic NilDereference
  | Some reader :: rest =>
      rest' ← close_readers rest;
      Ret (Some (Close reader) :: rest')
  end.

(** How the goroutine ends: [pipeWriter.Close()] or
    [pipeWriter.CloseWithError(err)]. *)
Inductive ending : Type :=
| CleanClose
| CloseWithError (err : error).

Record final : Type := mkFinal {
  how : ending;
  readers_after : list (option Reader);
  pipe_after : Pipe;
}.

(** The [for totalLeft > 0] loop and what follows it.  [None]: the fuel is
    used up. *)
Fixpoint producer_loop (fuel : nat) (xl : XL) (totalBlocks totalLeft : Z)
    (readers : list (option Reader)) (pipe : Pipe) : option (Run final) :=
  if decide (totalLeft > 0) then
    match fuel with
    | O => None
    | S fuel =>
        let curBlockSize :=
          if decide (erasureBlockSize W < totalLeft) then erasureBlockSize W
          else totalLeft in
        match getEncodedBlockLen curBlockSize (DataBlocks xl) with
        | Panic p => Some (Panic p)
        | Ret curEncBlockSize =>
            match readShards curEncBlockSize totalBlocks readers with
            | Panic p => Some (Panic p)
            | Ret (readers, enBlocks) =>
                match decodeBlock (ReedSolomon xl) enBlocks curBlockSize with
                | Err err => Some (Ret (mkFinal (CloseWithError err) readers pipe))
                | Ok out =>
                    match pipeWrite pipe out with
                    | (pipe, Some err) =>
                        Some (Ret (mkFinal (CloseWithError err) readers pipe))
                    | (pipe, None) =>
                        producer_loop fuel xl totalBlocks
                          (wrap64 (totalLeft - erasureBlockSize W)) readers pipe
                    end
                end
            end
        end
    end
  else
    Some (readers ← close_readers readers; Ret (mkFinal CleanClose readers pipe)).

(** The runs of the loop as a relation between the state at the loop
    head and the outcome of the goroutine, one rule per way out of an
    iteration. *)
Inductive run (xl : XL) (totalBlocks : Z)
  : Z → list (option Reader) → Pipe → Run final → Prop :=
| run_done totalLeft readers pipe :
    ¬ totalLeft > 0 →
    run xl totalBlocks totalLeft readers pipe
      (readers ← close_readers readers; Ret (mkFinal CleanClose readers pipe))
| run_len_panic totalLeft readers pipe p :
    totalLeft > 0 →
    getEncodedBlockLen
      (if decide (erasureBlockSize W < totalLeft) then erasureBlockSize W else totalLeft)
      (DataBlocks xl) = Panic p →
    run xl totalBlocks totalLeft readers pipe (Panic p)
| run_read_panic totalLeft readers pipe curEncBlockSize p :
    totalLeft > 0 →
    getEncodedBlockLen
      (if decide (erasureBlockSize W < totalLeft) then erasureBlockSize W else totalLeft)
      (DataBlocks xl) = Ret curEncBlockSize →
    readShards curEncBlockSize totalBlocks readers = Panic p →
    run xl totalBlocks totalLeft readers pipe (Panic p)
| run_decode_error totalLeft readers pipe curEncBlockSize readers' enBlocks err :
    totalLeft > 0 →
    getEncodedBlockLen
      (if decide (erasureBlockSize W < totalLeft) then erasureBlockSize W else totalLeft)
      (DataBlocks xl) = Ret curEncBlockSize →
    readShards curEncBlockSize totalBlocks readers = Ret (readers', enBlocks) →
    decodeBlock (ReedSolomon xl) enBlocks
      (if decide (erasureBlockSize W < totalLeft) then erasureBlockSize W else totalLeft)
      = Err err →
    run xl totalBlocks totalLeft readers pipe
      (Ret (mkFinal (CloseWithError err) readers' pipe))
| run_write_error totalLeft readers pipe curEncBlockSize readers' enBlocks out pipe' err :
    totalLeft > 0 →
    getEncodedBlockLen
      (if decide (erasureBlockSize W < totalLeft) then erasureBlockSize W else totalLeft)
      (DataBlocks xl) = Ret curEncBlockSize →
    readShards curEncBlockSize totalBlocks readers = Ret (readers', enBlocks) →
    decodeBlock (ReedSolomon xl) enBlocks
      (if decide (erasureBlockSize W < totalLeft) then erasureBlockSize W else totalLeft)
      = Ok out →
    pipeWrite pipe out = (pipe', Some err) →
    run xl totalBlocks totalLeft readers pipe
      (Ret (mkFinal (CloseWithError err) readers' pipe'))
| run_next totalLeft readers pipe curEncBlockSize readers' enBlocks out pipe' r :
    totalLeft > 0 →
    getEncodedBlockLen
      (if decide (erasureBlockSize W < totalLeft) then erasureBlockSize W else totalLeft)
      (DataBlocks xl) = Ret curEncBlockSize →
    readShards curEncBlockSize totalBlocks readers = Ret (readers', enBlocks) →
    decodeBlock (ReedSolomon xl) enBlocks
      (if decide (erasureBlockSize W < totalLeft) then erasureBlockSize W else totalLeft)
      = Ok out →
    pipeWrite pipe out = (pipe', None) →
    run xl totalBlocks (wrap64 (totalLeft - erasureBlockSize W)) readers' pipe' r →
    run xl totalBlocks totalLeft readers pipe r.

(** What [ReadFile] hands to the goroutine: [fileSize] and [readers]. *)
Record Stream : Type := mkStream {
  fileSize : Z;
  readers : list (option Reader);
}.

(** The goroutine of [ReadFile] against a consumer. *)
Definition producer (xl : XL) (s : Stream) (pipe : Pipe) : option (Run final) :=
  producer_loop (Z.to_nat (fileSize s)) xl (wrap64 (DataBlocks xl + ParityBlocks xl))
    (fileSize s) (readers s) pipe.

(** ** ReadFile *)

(** Lines 609-732, from the quorum check on. *)
Definition ReadFile_quorum (xl : XL) (volume path : string) (offset : Z)
    (quorumDisks : list quorumDisk) : Run (result Stream) :=
  if decide (Z.of_nat (length quorumDisks) < readQuorum xl) then Ret (Err errReadQuorum)
  else
    match quorumDisks with
    | [] => Panic IndexOutOfRange
    | first :: _ =>
        match getFileSize volume path (disk first) with
        | Err err => Ret (Err err)
        | Ok fileSize =>
            opened ← open_loop xl volume path offset (length quorumDisks) quorumDisks [] 0 0%nat;
            match opened with
            | Err err => Ret (Err err)
            | Ok readers => Ret (Ok (mkStream fileSize readers))
            end
        end
    end.

(** The calls on the namespace lock, in order. *)
Inductive nsEvent : Type :=
| lockNS (volume path : string) (readLock : bool)
| unlockNS (volume path : string) (readLock : bool).

(** [ReadFile]: the lock calls it made and its outcome.  The deferred
    [unlockNS] runs when the function returns or panics. *)
Definition ReadFile (xl : XL) (volume path : string) (offset : Z)
  : list nsEvent * Run (result Stream) :=
  if negb (isValidVolname W volume) then ([], Ret (Err errInvalidArgument))
  else if negb (isValidPath W path) then ([], Ret (Err errInvalidArgument))
  else
    ([lockNS volume path true; unlockNS volume path true],
     quorumDisks ← getReadFileQuorumDisks xl volume path;
     ReadFile_quorum xl volume path offset quorumDisks).

End xl.

(** ** Notions used to state the properties *)

(** What the loop of lines 659-671 leaves in [enBlocks[index]] for a
    reader, and the reader after it. *)
Definition block_of (n : nat) (reader : option Reader) : shard :=
  match reader with
  | None => None
  | Some r =>
      let '(_, buf, err) := ReadFull r n in
      match err with
      | Some e => if decide (e ≠ ErrUnexpectedEOF) then None else Some buf
      | None => Some buf
      end
  end.

Definition reader_after (n : nat) (reader : option Reader) : option Reader :=
  match reader with
  | None => None
  | Some r => Some (ReadFull r n).1.1
  end.

(** The highest version the loop of [getReadFileQuorumDisks] has seen
    after [entries], starting from [higherVersion]. *)
Definition top (higherVersion : Z) (entries : list (StorageAPI * Z)) : Z :=
  foldl (λ acc e, Z.max acc e.2) higherVersion entries.

(** The entries of version [v], each with its position in the iteration,
    counted from [i]. *)
Fixpoint select (v : Z) (i : nat) (entries : list (StorageAPI * Z)) : list quorumDisk :=
  match entries with
  | [] => []
  | (d, version) :: rest =>
      if decide (version = v) then mkQuorumDisk d i :: select v (S i) rest
      else select v (S i) rest
  end.

(** The quorum set in the words of the specification (4.5.1):
    [V* = max(version_i)] and the set is [{(d_i, i) : version_i = V*}].
    [None] is the maximum of no version at all. *)
Definition spec_Vstar (entries : list (StorageAPI * Z)) : option Z :=
  foldr (λ e acc, match acc with
                  | None => Some e.2
                  | Some v => Some (Z.max e.2 v)
                  end) None entries.

Definition spec_quorum_set (entries : list (StorageAPI * Z)) : list StorageAPI :=
  (filter (λ e, Some e.2 = spec_Vstar entries) entries).*1.

(** The version a backend reports, in the words of the specification
    (4.5.1, step 2): its [file.version], 0 if the key is missing, -1 if the
    disk cannot be reached or its JSON is malformed. *)
Definition spec_version (W : World) (volume path : string) (d : StorageAPI) : Z :=
  match disk_ReadFile W d volume (slashpathJoin W path (metadataFile W)) 0 with
  | Err _ => -1
  | Ok metadataReader =>
      match jsonDecode W metadataReader with
      | (_, Some _) => -1
      | (kvs, None) =>
          match store_keys kvs ∅ !! "file.version"%string with
          | None => 0
          | Some s =>
              match ParseInt W s with
              | Ok fileVersion => fileVersion
              | Err _ => -1
              end
          end
      end
  end.

(** Step 1 of 4.5.1: every backend of the ordered backend set with the
    version it reports. *)
Definition spec_versions (W : World) (xl : XL) (volume path : string)
  : list (StorageAPI * Z) :=
  (λ d, (d, spec_version W volume path d)) <$> storageDisks xl.

(** The position of a disk in [xl.storageDisks]. *)
Fixpoint ordinal (d : StorageAPI) (disks : list StorageAPI) : option nat :=
  match disks with
  | [] => None
  | d' :: rest => if decide (d' = d) then Some 0%nat else S <$> ordinal d rest
  end.

(** A chunk the consumer took is what [Join] made of blocks that passed
    [Verify], or the part of it that went through before the consumer
    closed its end. *)
Definition verified_output (rs : Codec) (chunk : bytes) : Prop :=
  ∃ blocks n out,
    Verify rs blocks = Ok true ∧ Join rs blocks n = Ok out ∧
    ∃ k, chunk = take k out.

(** How often each reader of a slice was closed ([None] for a nil entry). *)
Definition closes_of (readers : list (option Reader)) : list (option nat) :=
  (λ reader : option Reader, closes <$> reader) <$> readers.

(** [errReadQuorum] is a value of the XL layer: the backends and the
    library functions do not return it. *)
Definition sentinel_free (W : World) : Prop :=
  (∀ d volume path offset, disk_ReadFile W d volume path offset ≠ Err errReadQuorum) ∧
  (∀ r, (jsonDecode W r).2 ≠ Some errReadQuorum) ∧
  (∀ s, ParseInt W s ≠ Err errReadQuorum).

(** [Join] as section 4.4 of the specification has it: it writes exactly
    [dataLen] bytes. *)
Definition Join_exact (rs : Codec) : Prop :=
  ∀ blocks n out, Join rs blocks n = Ok out → Z.of_nat (length out) = n.

(** ** Sample instances *)

(** Modelled from the spec: the codec of section 4.4 for one data block
    and one parity block, the parity block being a copy of the data block.
    [verify] holds iff both blocks are there and equal, [reconstruct]
    fills a missing block from the one present, [join] writes the first
    [dataLen] bytes of the data block. *)
Definition mirror : Codec :=
  mkCodec
    (λ blocks, match blocks with
               | [Some a; Some b] => Ok (bool_decide (a = b))
               | _ => Ok false
               end)
    (λ blocks, match blocks with
               | [Some a; Some b] => Ok [Some a; Some b]
               | [Some a; None] => Ok [Some a; Some a]
               | [None; Some b] => Ok [Some b; Some b]
               | _ => Err (errCodec 0)
               end)
    (λ blocks n, match blocks with
                 | Some a :: _ =>
                     if decide (0 <= n <= Z.of_nat (length a))
                     then Ok (take (Z.to_nat n) a) else Err (errCodec 1)
                 | _ => Err (errCodec 1)
                 end).

(** Modelled from the spec: the constant [erasureBlockSize], 4 MiB
    (section 6); its declaration is not in the files at hand. *)
Definition fourMiB : Z := 4194304.

(** A world with a given block size in which every backend holds the same
    bytes [content] under every name and the same metadata, [file.size]
    [size] and [file.version] 1. *)
Definition sampleWorld (blockSize : Z) (content : bytes) (size : Z) : World :=
  mkWorld
    (λ _ _ _ offset, Ok (mkReader (drop (Z.to_nat offset) content) None 0))
    (λ _, ([("file.size", pretty size); ("file.version", "1")]%string, None))
    (λ s, if String.eqb s (pretty size) then Ok size
          else if String.eqb s "1" then Ok 1 else Err (errParseInt 0))
    (λ a b, a +:+ "/" +:+ b)
    (λ _, true) (λ _, true) "file.json" blockSize map_to_list.

(** Two backends, one data and one parity block. *)
Definition sampleXL (readQuorum : Z) : XL := mkXL [0%nat; 1%nat] readQuorum 1 1 mirror.

Definition abc : bytes := [Byte.x61; Byte.x62; Byte.x63].

(** A world in which every backend serves the metadata file of the object
    [obj] and no other file, with [file.size] 3. *)
Definition metadataOnlyWorld : World :=
  mkWorld
    (λ _ _ path _, if String.eqb path "obj/file.json"
                   then Ok (mkReader [] None 0) else Err (errDisk 2))
    (λ _, ([("file.size", "3")]%string, None))
    (λ s, if String.eqb s "3" then Ok 3 else Err (errParseInt 0))
    (λ a b, a +:+ "/" +:+ b)
    (λ _, true) (λ _, true) "file.json" fourMiB map_to_list.

(** A world for the version probe: the metadata of backend 0 holds
    [file.version] 1, the metadata of every other backend is a JSON object
    without keys.  (A reader with bytes left stands for the first, a
    reader without for the second.) *)
Definition probeWorld : World :=
  mkWorld
    (λ d _ _ _, Ok (mkReader (if decide (d = 0%nat) then [Byte.x7b] else []) None 0))
    (λ r, match pending r with
          | [] => ([], None)
          | _ => ([("file.version", "1")]%string, None)
          end)
    (λ s, if String.eqb s "1" then Ok 1 else Err (errParseInt 0))
    (λ a b, a +:+ "/" +:+ b)
    (λ _, true) (λ _, true) "file.json" 2 map_to_list.

End XL.

Module FS.

(** ** Listing: data *)

(** The errors [ListObjects] returns.  [OsError] is an error of [os.Lstat]
    ([notExist]: what [os.IsNotExist] says of it); [WalkError] is an error
    carried by an entry of the walker. *)
Inductive lerror : Type :=
| BucketNameInvalid (bucket : string)
| BucketNotFound (bucket : string)
| ObjectNameInvalid (bucket object : string)
| DelimiterNotSupported (delimiter : string)
| UnescapeError (code : nat)
| InvalidMarkerPrefix (marker prefix : string)
| OsError (code : nat) (notExist : bool)
| WalkError (code : nat).

Record ObjectInfo : Type := mkObjectInfo {
  Name : string;
  IsDir : bool;
  Size : Z;
  EntryErr : option lerror;      (* the field [Err] *)
}.

Record ListObjectsResult : Type := mkResult {
  Objects : list ObjectInfo;
  Prefixes : list string;
  IsTruncated : bool;
  NextMarker : string;
}.

(** [ListObjectsResult{}]. *)
Definition emptyResult : ListObjectsResult := mkResult [] [] false "".

Record ListObjectParams : Type := mkParams {
  bucket : string;
  delimiter : string;
  marker : string;
  prefix : string;
}.

(** An [ObjectInfoChannel]: the entries its channel still delivers before
    it is closed. *)
Abbreviation Walker := (list ObjectInfo).

(** [strings.Contains(s, substr)]. *)
Fixpoint Contains (s substr : string) : bool :=
  String.prefix substr s ||
  match s with
  | EmptyString => false
  | String _ s' => Contains s' substr
  end.

(** [strings.HasPrefix(s, prefix)]. *)
Definition HasPrefix (s prefix : string) : bool := String.prefix prefix s.

(** The test of line 137. *)
Definition reserved (name : string) : bool :=
  Contains name "$multiparts" || Contains name "$tmpobject".

(** ** Listing: the loop *)

(** How the loop of lines 127-148 ends. *)
Inductive loopEnd : Type :=
| ChannelClosed (result : ListObjectsResult)
| EntryError (err : lerror)
| Filled (result : ListObjectsResult) (nextMarker : string) (rest : Walker).

(** Lines 141-145. *)
Definition appendEntry (result : ListObjectsResult) (objInfo : ObjectInfo)
  : ListObjectsResult :=
  if IsDir objInfo then
    mkResult (Objects result) (Prefixes result ++ [Name objInfo])
      (IsTruncated result) (NextMarker result)
  else
    mkResult (Objects result ++ [objInfo]) (Prefixes result)
      (IsTruncated result) (NextMarker result).

(** [for i := 0; i < maxKeys; { ... }] over the channel. *)
Fixpoint collect (ch : Walker) (maxKeys i : Z) (result : ListObjectsResult)
    (nextMarker : string) : loopEnd :=
  if decide (i < maxKeys) then
    match ch with
    | [] => ChannelClosed result
    | objInfo :: ch =>
        match EntryErr objInfo with
        | Some err => EntryError err
        | None =>
            if reserved (Name objInfo) then collect ch maxKeys i result nextMarker
            else
              collect ch maxKeys (wrap64 (i + 1)) (appendEntry result objInfo)
                (Name objInfo)
        end
    end
  else Filled result nextMarker ch.

(** ** Listing: ListObjects *)

(** What [ListObjects] calls but does not define, for a listing cache of
    type [Cache]: the validators, [fs.denormalizeBucket], [fs.path], the
    [path/filepath] functions, [os.Lstat] (an error, or whether the file is
    a directory), [url.QueryUnescape], the constant [listObjectsLimit],
    the two cache methods and the walker constructor. *)
Record Deps (Cache : Type) : Type := mkDeps {
  IsValidBucketName : string → bool;
  IsValidObjectPrefix : string → bool;
  denormalizeBucket : string → string;
  fs_path : string;
  filepathJoin : string → string → string;
  filepathDir : string → string;
  filepathFromSlash : string → string;
  Lstat : string → lerror + bool;
  IsNotExist : lerror → bool;
  QueryUnescape : string → lerror + string;
  listObjectsLimit : Z;
  popListObjectCh : ListObjectParams → Cache → option Walker * Cache;
  pushListObjectCh : ListObjectParams → Walker → Cache → Cache;
  getObjectInfoChannel : string → string → string → string → bool → Walker;
}.
Arguments IsValidBucketName {Cache}.
Arguments IsValidObjectPrefix {Cache}.
Arguments denormalizeBucket {Cache}.
Arguments fs_path {Cache}.
Arguments filepathJoin {Cache}.
Arguments filepathDir {Cache}.
Arguments filepathFromSlash {Cache}.
Arguments Lstat {Cache}.
Arguments IsNotExist {Cache}.
Arguments QueryUnescape {Cache}.
Arguments listObjectsLimit {Cache}.
Arguments popListObjectCh {Cache}.
Arguments pushListObjectCh {Cache}.
Arguments getObjectInfoChannel {Cache}.

(** A function body that runs on or has returned. *)
Inductive flow (A : Type) : Type :=
| Go (a : A)
| Return (r : ListObjectsResult * option lerror).
Arguments Go {A} a.
Arguments Return {A} r.

#[global] Instance flow_bind : MBind flow := λ A B f m,
  match m with
  | Go a => f a
  | Return r => Return r
  end.

Section fs.
Context {Cache : Type} (D : Deps Cache).

(** [isDirExist]. *)
Definition isDirExist (dirname : string) : bool * option lerror :=
  match Lstat D dirname with
  | inr isDir => (isDir, None)
  | inl err => (false, Some err)
  end.

(** Lines 44-109: the checks before the walker is taken.  On [Go] it
    gives the bucket, the marker and [maxKeys] as the rest of the function
    sees them. *)
Definition preamble (bucket prefix marker delimiter : string) (maxKeys : Z)
  : flow (string * string * Z) :=
  let result := emptyResult in
  _ ← (if negb (IsValidBucketName D bucket)
       then Return (result, Some (BucketNameInvalid bucket)) else Go ());
  let bucket := denormalizeBucket D bucket in
  let bucketDir := filepathJoin D (fs_path D) bucket in
  _ ← (match isDirExist bucketDir with
       | (true, _) => Go ()
       | (false, None) => Return (result, Some (BucketNotFound bucket))
       | (false, Some err) =>
           if IsNotExist D err then Return (result, Some (BucketNotFound bucket))
           else Return (result, Some err)
       end);
  _ ← (if negb (IsValidObjectPrefix D prefix)
       then Return (result, Some (ObjectNameInvalid bucket prefix)) else Go ());
  _ ← (if negb (String.eqb delimiter "") && negb (String.eqb delimiter "/")
       then Return (result, Some (DelimiterNotSupported delimiter)) else Go ());
  marker ← (if negb (String.eqb marker "") then
              match QueryUnescape D marker with
              | inr markerUnescaped =>
                  if negb (HasPrefix markerUnescaped prefix)
                  then Return (result, Some (InvalidMarkerPrefix markerUnescaped prefix))
                  else Go markerUnescaped
              | inl err => Return (result, Some err)
              end
            else Go marker);
  _ ← (if decide (maxKeys = 0) then Return (result, None) else Go ());
  let maxKeys :=
    if decide (maxKeys < 0 ∨ maxKeys > listObjectsLimit D) then listObjectsLimit D
    else maxKeys in
  let prefixDir := filepathDir D (filepathFromSlash D prefix) in
  let rootDir := filepathJoin D bucketDir prefixDir in
  _ ← (match isDirExist rootDir with
       | (_, Some err) =>
           if IsNotExist D err then Return (result, None)
           else Return (result, Some err)
       | (_, None) => Go ()
       end);
  Go (bucket, marker, maxKeys).

(** Lines 111-124: the walker parked for these parameters, or a new one;
    [bucket] and [marker] are those the preamble gives. *)
Definition takeWalker (bucket prefix marker delimiter : string) (cache : Cache)
  : Walker * Cache :=
  let recursive := if String.eqb delimiter "/" then false else true in
  let '(popped, cache) :=
    popListObjectCh D (mkParams bucket delimiter marker prefix) cache in
  match popped with
  | Some objectInfoCh => (objectInfoCh, cache)
  | None =>
      (getObjectInfoChannel D (fs_path D) bucket (filepathFromSlash D prefix)
         (filepathFromSlash D marker) recursive, cache)
  end.

(** [ListObjects]: what it returns and the cache after the call. *)
Definition ListObjects (bucket prefix marker delimiter : string) (maxKeys : Z)
    (cache : Cache) : ListObjectsResult * option lerror * Cache :=
  match preamble bucket prefix marker delimiter maxKeys with
  | Return r => (r, cache)
  | Go (bucket, marker, maxKeys) =>
      let '(objectInfoCh, cache) := takeWalker bucket prefix marker delimiter cache in
      match collect objectInfoCh maxKeys 0 emptyResult "" with
      | ChannelClosed result => (result, None, cache)
      | EntryError err => (emptyResult, Some err, cache)
      | Filled result nextMarker rest =>
          (mkResult (Objects result) (Prefixes result) true nextMarker, None,
           pushListObjectCh D (mkParams bucket delimiter nextMarker prefix) rest cache)
      end
  end.

End fs.

(** ** Notions used to state the properties *)

(** An entry the loop emits when it receives it: its name passes the test
    of line 137. *)
Definition visible (objInfo : ObjectInfo) : Prop := reserved (Name objInfo) = false.

#[global] Instance visible_dec objInfo : Decision (visible objInfo).
Proof. unfold visible. apply _. Defined.

Definition noError (objInfo : ObjectInfo) : Prop := EntryErr objInfo = None.

(** An entry the loop does not skip: it carries an error or is visible. *)
Definition kept (objInfo : ObjectInfo) : Prop :=
  EntryErr objInfo ≠ None ∨ visible objInfo.

#[global] Instance kept_dec objInfo : Decision (kept objInfo).
Proof. unfold kept. apply _. Defined.

(** The names a result lists. *)
Definition result_names (result : ListObjectsResult) : list string :=
  (Name <$> Objects result) ++ Prefixes result.

(** The same way out of the loop, with the rest of the walker changed. *)
Definition map_rest (f : Walker → Walker) (e : loopEnd) : loopEnd :=
  match e with
  | Filled result nextMarker rest => Filled result nextMarker (f rest)
  | _ => e
  end.

(** [s] has [substr] as a substring. *)
Definition substring_of (substr s : string) : Prop :=
  ∃ before after, s = before +:+ substr +:+ after.



(** The number of keys a call may list: lines 93-95. *)
Definition effectiveMaxKeys {Cache : Type} (D : Deps Cache) (maxKeys : Z) : Z :=
  if decide (maxKeys < 0 ∨ maxKeys > listObjectsLimit D) then listObjectsLimit D
  else maxKeys.


(** ** Sample instances *)

#[global] Instance ListObjectParams_eq_dec : EqDecision ListObjectParams.
Proof. solve_decision. Defined.

(** Modelled from the spec: the continuation cache of section 4.3 without
    its bound and its timer.  [Pop] removes and returns the walker parked
    under the key, [Push] parks a walker under a key in place of any other. *)
Fixpoint samplePop (params : ListObjectParams) (cache : list (ListObjectParams * Walker))
  : option Walker * list (ListObjectParams * Walker) :=
  match cache with
  | [] => (None, [])
  | (key, walker) :: rest =>
      if decide (key = params) then (Some walker, rest)
      else let '(found, rest') := samplePop params rest in (found, (key, walker) :: rest')
  end.

Definition samplePush (params : ListObjectParams) (walker : Walker)
    (cache : list (ListObjectParams * Walker)) : list (ListObjectParams * Walker) :=
  (params, walker) :: (samplePop params cache).2.

(** A filesystem on which every check of the preamble passes and a new
    walker delivers [walk]. *)
Definition sampleDeps (walk : Walker) : Deps (list (ListObjectParams * Walker)) :=
  mkDeps _ (λ _, true) (λ _, true) (λ bucket, bucket) "/export"
    (λ a b, a +:+ "/" +:+ b) (λ p, p) (λ p, p)
    (λ _, inr true) (λ _, false) (λ s, inr s) 1000
    samplePop samplePush (λ _ _ _ _ _, walk).

Definition file (name : string) : ObjectInfo := mkObjectInfo name false 1 None.
Definition dir (name : string) : ObjectInfo := mkObjectInfo name true 0 None.
Definition failing (code : nat) : ObjectInfo :=
  mkObjectInfo "" false 0 (Some (WalkError code)).

End FS.

(** * Directory entries: [src/fs-dir-nix.go]

    [parseDirents] reads [syscall.Dirent] records out of a byte buffer
    through [unsafe.Pointer] casts; the layout of the record belongs to the
    operating system.  The model takes the cast as a function of the
    platform: the record found at an offset of a buffer, with the bytes
    that start at its [Name] field.  Names are byte strings. *)

Module Dirent.

Abbreviation bytes := (list Byte.byte).

(** [clen]: [for i := 0; i < len(n); i++], returning at the first zero
    byte; [steps] is what is left of the range. *)
Fixpoint clen_loop (n : bytes) (steps i : nat) : nat :=
  match steps with
  | O => length n
  | S steps =>
      match n !! i with
      | Some b => if decide (b = Byte.x00) then i else clen_loop n steps (S i)
      | None => length n
      end
  end.

Definition clen (n : bytes) : nat := clen_loop n (length n) 0.

(** The values of [dirent.Type] the switch of [parseDirents] names;
    [DT_other] is any other value. *)
Inductive dtype : Type :=
| DT_BLK | DT_WHT | DT_CHR | DT_DIR | DT_FIFO | DT_LNK | DT_REG | DT_SOCK
| DT_UNKNOWN | DT_other.

(** The bits of [os.FileMode] the switch uses (package [os]):
    [ModeDir = 1 << 31], [ModeSymlink = 1 << 27], [ModeDevice = 1 << 26],
    [ModeNamedPipe = 1 << 25], [ModeSocket = 1 << 24],
    [ModeCharDevice = 1 << 21]. *)
Definition ModeDir : Z := Z.shiftl 1 31.
Definition ModeSymlink : Z := Z.shiftl 1 27.
Definition ModeDevice : Z := Z.shiftl 1 26.
Definition ModeNamedPipe : Z := Z.shiftl 1 25.
Definition ModeSocket : Z := Z.shiftl 1 24.
Definition ModeCharDevice : Z := Z.shiftl 1 21.

(** [mode.IsDir()]: [m&ModeDir != 0]. *)
Definition IsDir (m : Z) : bool := negb (Z.land m ModeDir =? 0).

(** The switch of lines 69-87; [mode] keeps its zero value when no case
    applies. *)
Definition modeOf (t : dtype) : Z :=
  match t with
  | DT_BLK | DT_WHT => ModeDevice
  | DT_CHR => Z.lor ModeDevice ModeCharDevice
  | DT_DIR => ModeDir
  | DT_FIFO => ModeNamedPipe
  | DT_LNK => ModeSymlink
  | DT_REG => 0
  | DT_SOCK => ModeSocket
  | DT_UNKNOWN => 4294967295        (* 0xffffffff *)
  | DT_other => 0
  end.

(** A [syscall.Dirent] as [parseDirents] reads it: [Reclen], [Type], and
    the bytes at the address of [Name[0]]. *)
Record syscallDirent : Type := mkSyscallDirent {
  Reclen : nat;
  Type_ : dtype;
  Name : bytes;
}.

(** The fields of [fsDirent] the file uses (the struct is declared
    elsewhere). *)
Record fsDirent : Type := mkFsDirent {
  name : bytes;
  mode : Z;
  size : Z;
}.

(** What the file needs from its surroundings: [runtime.GOOS == "linux"],
    the cast of [&buf[bufidx]] to a [*syscall.Dirent], [isEmptyDirent], and
    [sort.Sort(byDirentName(...))] (neither is in the file). *)
Record Platform : Type := mkPlatform {
  linux : bool;
  direntAt : bytes → nat → syscallDirent;
  isEmptyDirent : syscallDirent → bool;
  sortByDirentName : list fsDirent → list fsDirent;
}.

Definition dot : bytes := [Byte.x2e].
Definition dotdot : bytes := [Byte.x2e; Byte.x2e].
Definition PathSeparator : bytes := [Byte.x2f].

Section dirent.
Context (P : Platform).

(** The loop of [parseDirents].  [None]: the fuel is used up. *)
Fixpoint parse_loop (fuel : nat) (buf : bytes) (bufidx : nat) (dirents : list fsDirent)
  : option (list fsDirent) :=
  if decide (bufidx < length buf)%nat then
    match fuel with
    | O => None
    | S fuel =>
        let dirent := direntAt P buf bufidx in
        if negb (linux P) && (Reclen dirent =? 0)%nat then Some dirents
        else
          let bufidx := (bufidx + Reclen dirent)%nat in
          if isEmptyDirent P dirent then parse_loop fuel buf bufidx dirents
          else
            let name := take (clen (Name dirent)) (Name dirent) in
            if decide (name = dot ∨ name = dotdot) then parse_loop fuel buf bufidx dirents
            else
              parse_loop fuel buf bufidx
                (dirents ++ [mkFsDirent name (modeOf (Type_ dirent)) 0])
    end
  else Some dirents.

(** [parseDirents]: a loop that comes to an end does so within [len(buf)]
    iterations, so that [None] stands for a loop that does not end. *)
Definition parseDirents (buf : bytes) : option (list fsDirent) :=
  parse_loop (length buf) buf 0 [].

(** Lines 114-122: what [readDirAll] does with the entries of one
    buffer. *)
Fixpoint keep_loop (entryPrefixMatch : bytes) (parsed dirents : list fsDirent)
  : list fsDirent :=
  match parsed with
  | [] => dirents
  | dirent :: parsed =>
      let dirent :=
        if IsDir (mode dirent) then mkFsDirent (name dirent ++ PathSeparator) (mode dirent) 0
        else dirent in
      if bool_decide (entryPrefixMatch `prefix_of` name dirent)
      then keep_loop entryPrefixMatch parsed (dirents ++ [dirent])
      else keep_loop entryPrefixMatch parsed dirents
  end.

(** The [for] loop of [readDirAll] over what the calls of
    [syscall.ReadDirent] give one after the other: an error, or the filled
    part [buf[:nbuf]] of the buffer (empty at the end of the directory). *)
Fixpoint read_dirents (entryPrefixMatch : bytes) (reads : list (error + bytes))
    (dirents : list fsDirent) : option (result (list fsDirent)) :=
  match reads with
  | [] => Some (Ok dirents)
  | inl err :: _ => Some (Err err)
  | inr buf :: reads =>
      if decide (length buf = 0)%nat then Some (Ok dirents)
      else
        parsed ← parseDirents buf;
        read_dirents entryPrefixMatch reads (keep_loop entryPrefixMatch parsed dirents)
  end.

(** [readDirAll], given what [os.Open] and the reads give. *)
Definition readDirAll (opened : error + list (error + bytes)) (entryPrefixMatch : bytes)
  : option (result (list fsDirent)) :=
  match opened with
  | inl err => Some (Err err)
  | inr reads =>
      match read_dirents entryPrefixMatch reads [] with
      | Some (Ok dirents) => Some (Ok (sortByDirentName P dirents))
      | other => other
      end
  end.

End dirent.

(** ** Notions used to state the properties *)

(** An entry as [parseDirents] makes it: a name cut at its first zero
    byte that is neither [.] nor [..], a mode of the switch, no size. *)
Definition parsed_entry (d : fsDirent) : Prop :=
  name d ≠ dot ∧ name d ≠ dotdot ∧ (Byte.x00 ∉ name d) ∧
  (∃ t, mode d = modeOf t) ∧ size d = 0.

(** An entry as [readDirAll] lists it under a prefix: a parsed entry whose
    name has been given a trailing separator if it is a directory, and
    which starts with the prefix. *)
Definition listed_entry (entryPrefixMatch : bytes) (d : fsDirent) : Prop :=
  entryPrefixMatch `prefix_of` name d ∧ size d = 0 ∧
  ∃ base, base ≠ dot ∧ base ≠ dotdot ∧ (Byte.x00 ∉ base) ∧
    name d = if IsDir (mode d) then base ++ PathSeparator else base.

(** ** Sample instance *)

(** A toy record layout: one byte of length, one byte of type (4 for a
    directory, 8 for a regular file, 0 for unknown), then the name. *)
Definition sampleType (b : option Byte.byte) : dtype :=
  match b with
  | Some Byte.x04 => DT_DIR
  | Some Byte.x08 => DT_REG
  | Some Byte.x00 => DT_UNKNOWN
  | _ => DT_other
  end.

Definition samplePlatform (isLinux : bool) : Platform :=
  mkPlatform isLinux
    (λ buf bufidx,
       mkSyscallDirent
         (default 0%nat (Byte.to_nat <$> buf !! bufidx))
         (sampleType (buf !! S bufidx))
         (drop (2 + bufidx) buf))
    (λ _, false)
    (λ dirents, dirents).

(** Two records: the directory [a] and the file [b]. *)
Definition sampleBuf : bytes :=
  [Byte.x04; Byte.x04; Byte.x61; Byte.x00;
   Byte.x04; Byte.x08; Byte.x62; Byte.x00].

End Dirent.

(** * The server command: [src/unnamed/part_003] *)

Module Server.

(** [strings.Index(s, substr)]: the index of the first instance of
    [substr] in [s], or -1. *)
Fixpoint Index (s substr : string) : Z :=
  if String.prefix substr s then 0
  else
    match s with
    | EmptyString => -1
    | String _ s' =>
        let i := Index s' substr in
        if decide (i < 0) then -1 else i + 1
    end.

(** [parsePercentToInt], over [strconv.ParseInt]; [s[:i]] is
    [substring 0 i s]. *)
Definition parsePercentToInt (ParseInt : string → Z → Z → result Z)
    (s : string) (bitSize : Z) : result Z :=
  let i := Index s "%" in
  if decide (i < 0) then
    match ParseInt s 10 bitSize with
    | Err e => Err e
    | Ok p => Ok p
    end
  else
    match ParseInt (String.substring 0 (Z.to_nat i) s) 10 bitSize with
    | Err e => Err e
    | Ok p => Ok p
    end.

(** A stand-in for [strconv.ParseInt] that knows two numerals. *)
Definition sampleParseInt (s : string) (base bitSize : Z) : result Z :=
  if String.eqb s "5" then Ok 5
  else if String.eqb s "10" then Ok 10
  else Err (errParseInt 0).

End Server.

(** * The controller's list of servers: [src/unnamed/part_004] *)

Module Controller.

(** [ServerArg] of [src/rpc-definitions.go]. *)
Record ServerArg : Type := mkServerArg {
  Name : string;
  IP : string;
  ID : string;
}.

(** A request to the service, with what [RpcRequest] (a call over the
    network) returns for it: [None] is the nil error. *)
Inductive request : Type :=
| ReqAdd (arg : ServerArg) (rpc : option error)
| ReqMemStats (arg : ServerArg) (rpc : option error)
| ReqDiskStats (arg : ServerArg) (rpc : option error)
| ReqSysInfo (arg : ServerArg) (rpc : option error)
| ReqList (arg : ServerArg).

(** What a method hands back: the error it returns, and for [List] the
    list put into [res.List]. *)
Record reply : Type := mkReply {
  rep_error : option error;
  rep_list : option (list ServerArg);
}.

(** The methods of [controllerServerRPCService] on a service whose
    [serverList] is [this]: the [serverList] after the call, and the
    reply. *)
Definition serve (this : list ServerArg) (r : request) : list ServerArg * reply :=
  match r with
  | ReqAdd arg err =>
      match err with
      | None => (this ++ [arg], mkReply err None)
      | Some _ => (this, mkReply err None)
      end
  | ReqMemStats _ err | ReqDiskStats _ err | ReqSysInfo _ err => (this, mkReply err None)
  | ReqList _ => (this, mkReply None (Some this))
  end.

(** A sequence of requests, one after the other. *)
Fixpoint serve_all (this : list ServerArg) (rs : list request)
  : list ServerArg * list reply :=
  match rs with
  | [] => (this, [])
  | r :: rs =>
      let '(this, rep) := serve this r in
      let '(this, reps) := serve_all this rs in
      (this, rep :: reps)
  end.

(** The servers whose [Add] went through, in the order of the requests. *)
Fixpoint added (rs : list request) : list ServerArg :=
  match rs with
  | [] => []
  | ReqAdd arg None :: rs => arg :: added rs
  | _ :: rs => added rs
  end.

End Controller.

(** * The bucket handlers: [src/bucket-handlers.go], first part

    A handler is a function of what it asks of the request and of the
    filesystem; it gives the calls it made on the filesystem, in order,
    and the response it wrote. *)

Module Handlers.

Abbreviation bytes := (list Byte.byte).

(** The API error codes the two handlers write. *)
Inductive APIErrorCode : Type :=
| AccessDenied | InvalidMaxKeys | NoSuchBucket | NoSuchKey | InvalidBucketName
| InternalError | NotImplemented | MissingContentLength | SignatureDoesNotMatch
| BucketAlreadyExists.

(** An error of the filesystem, by the type the switches look at. *)
Inductive fsError : Type :=
| fs_BucketNameInvalid | fs_BucketNotFound | fs_ObjectNotFound | fs_ObjectNameInvalid
| fs_BucketExists | fs_other (code : nat).

(** [getACLType(req)]. *)
Inductive ACLType : Type :=
| unsupportedACLType
| supportedACLType (code : nat).

Record BucketResources : Type := mkBucketResources {
  Prefix : string;
  Marker : string;
  Delimiter : string;
  Maxkeys : Z;
}.

(** [fs.ListObjectsReq]. *)
Record ListObjectsReq : Type := mkListObjectsReq {
  req_Prefix : string;
  req_Marker : string;
  req_Delimiter : string;
  req_MaxKeys : Z;
}.

(** A [*fs.Signature], as far as the handler uses it:
    [DoesSignatureMatch]. *)
Record Signature : Type := mkSignature {
  DoesSignatureMatch : string → error + bool;
}.

(** What the handlers ask of a request: [mux.Vars(req)["bucket"]],
    [isRequestRequiresACLCheck], [getBucketResources(req.URL.Query())],
    [getACLType], [isRequestSignatureV4], [initSignatureV4],
    [req.Body != nil], the [Content-Length] header and
    [ioutil.ReadAll(req.Body)]. *)
Record Request : Type := mkRequest {
  bucketVar : string;
  requiresACLCheck : bool;
  resources : BucketResources;
  aclType : ACLType;
  signatureV4 : bool;
  initSignatureV4 : error + Signature;
  hasBody : bool;
  contentLength : string;
  readAllBody : bytes * option error;
}.

(** The filesystem behind the API, for a listing reply of type [Resp];
    and what the handlers take from elsewhere: [maxObjectList],
    [getACLTypeString] and the hex form of the SHA-256 sum. *)
Record Filesystem (Resp : Type) : Type := mkFilesystem {
  IsPrivateBucket : string → bool;
  ListObjects : string → ListObjectsReq → fsError + Resp;
  MakeBucket : string → string → option fsError;
  maxObjectList : Z;
  getACLTypeString : ACLType → string;
  sha256hex : bytes → string;
}.
Arguments IsPrivateBucket {Resp}.
Arguments ListObjects {Resp}.
Arguments MakeBucket {Resp}.
Arguments maxObjectList {Resp}.
Arguments getACLTypeString {Resp}.
Arguments sha256hex {Resp}.

(** A call on [api.Filesystem]. *)
Inductive fsCall : Type :=
| CallIsPrivateBucket (bucket : string)
| CallListObjects (bucket : string) (listReq : ListObjectsReq)
| CallMakeBucket (bucket acl : string).

(** What a handler writes. *)
Inductive response (Resp : Type) : Type :=
| ErrorResponse (code : APIErrorCode)
| ListObjectsResponse (bucket : string) (listReq : ListObjectsReq) (listResp : Resp)
| SuccessResponse (location : string).
Arguments ErrorResponse {Resp}.
Arguments ListObjectsResponse {Resp}.
Arguments SuccessResponse {Resp}.

Section handlers.
Context {Resp : Type} (Anonymous : bool) (F : Filesystem Resp).

(** [ListObjectsHandler]. *)
Definition ListObjectsHandler (req : Request) : list fsCall * response Resp :=
  let bucket := bucketVar req in
  if negb Anonymous && requiresACLCheck req && IsPrivateBucket F bucket then
    ([CallIsPrivateBucket bucket], ErrorResponse AccessDenied)
  else
    let asked :=
      if negb Anonymous && requiresACLCheck req then [CallIsPrivateBucket bucket]
      else [] in
    let resources := resources req in
    if decide (Maxkeys resources < 0) then (asked, ErrorResponse InvalidMaxKeys)
    else
      let maxkeys :=
        if decide (Maxkeys resources = 0) then maxObjectList F else Maxkeys resources in
      let listReq :=
        mkListObjectsReq (Prefix resources) (Marker resources) (Delimiter resources)
          maxkeys in
      let calls := asked ++ [CallListObjects bucket listReq] in
      match ListObjects F bucket listReq with
      | inr listResp => (calls, ListObjectsResponse bucket listReq listResp)
      | inl fs_BucketNameInvalid => (calls, ErrorResponse InvalidBucketName)
      | inl fs_BucketNotFound => (calls, ErrorResponse NoSuchBucket)
      | inl fs_ObjectNotFound => (calls, ErrorResponse NoSuchKey)
      | inl fs_ObjectNameInvalid => (calls, ErrorResponse NoSuchKey)
      | inl _ => (calls, ErrorResponse InternalError)
      end.

(** Lines 188-226 of [PutBucketHandler]: the signature of the request is
    set up and the body is looked at.  [None]: the handler goes on to make
    the bucket. *)
Definition checkSignature (req : Request) : option APIErrorCode :=
  match
    (if negb Anonymous && signatureV4 req then
       match initSignatureV4 req with
       | inr signature => inr (Some signature)
       | inl _ => inl InternalError
       end
     else inr None)
  with
  | inl code => Some code
  | inr signature =>
      if hasBody req then
        if String.eqb (contentLength req) "" then Some MissingContentLength
        else
          match signature with
          | Some signature =>
              let '(locationBytes, err) := readAllBody req in
              match err with
              | Some _ =>
                  match DoesSignatureMatch signature (sha256hex F locationBytes) with
                  | inl _ => Some InternalError
                  | inr false => Some SignatureDoesNotMatch
                  | inr true => None
                  end
              | None => None
              end
          | None => None
          end
      else None
  end.

(** [PutBucketHandler]. *)
Definition PutBucketHandler (req : Request) : list fsCall * response Resp :=
  let bucket := bucketVar req in
  if negb Anonymous && requiresACLCheck req then ([], ErrorResponse AccessDenied)
  else
    match aclType req with
    | unsupportedACLType => ([], ErrorResponse NotImplemented)
    | aclType =>
        match checkSignature req with
        | Some code => ([], ErrorResponse code)
        | None =>
            let acl := getACLTypeString F aclType in
            match MakeBucket F bucket acl with
            | Some fs_BucketNameInvalid =>
                ([CallMakeBucket bucket acl], ErrorResponse InvalidBucketName)
            | Some fs_BucketExists =>
                ([CallMakeBucket bucket acl], ErrorResponse BucketAlreadyExists)
            | Some _ => ([CallMakeBucket bucket acl], ErrorResponse InternalError)
            | None => ([CallMakeBucket bucket acl], SuccessResponse ("/" +:+ bucket))
            end
        end
    end.

End handlers.

(** ** Notions used to state the properties *)

(** The request with another signature set up for it. *)
Definition with_signature (req : Request) (signature : Signature) : Request :=
  mkRequest (bucketVar req) (requiresACLCheck req) (resources req) (aclType req)
    (signatureV4 req) (inr signature) (hasBody req) (contentLength req) (readAllBody req).

(** ** Sample instance *)

(** A filesystem with the one private bucket [secret], on which every
    listing is empty and every bucket can be made. *)
Definition sampleFilesystem : Filesystem (list string) :=
  mkFilesystem _ (λ bucket, String.eqb bucket "secret") (λ _ _, inr [])
    (λ _ _, None) 1000 (λ _, "private"%string) (λ _, "hash"%string).

(** A signed PUT request with a body of one byte that is read without
    error, and a signature that matches nothing. *)
Definition sampleRequest : Request :=
  mkRequest "bucket" false (mkBucketResources "" "" "" 0) (supportedACLType 0)
    true (inr (mkSignature (λ _, inr false))) true "1" ([Byte.x61], None).

End Handlers.

(** * Properties of the read path *)

Lemma wrap64_small z : - 2^63 <= z < 2^63 → wrap64 z = z.
Proof. intros H. unfold wrap64. rewrite Z.mod_small; lia. Qed.

Module XLProofs.
Import XL.

(** ** Block lengths *)

Lemma checkBlockSize_zero_iff (blocks : list shard) :
  checkBlockSize blocks = 0%nat ↔ Forall (λ b, shard_len b = 0%nat) blocks.
Proof.
  induction blocks as [|b rest IH]; simpl.
  - split; [constructor | done].
  - case_decide as Hb.
    + split; [done | by inversion 1].
    + rewrite IH. split.
      * intros Hrest. constructor; [lia | done].
      * by inversion 1.
Qed.

Lemma getEncodedBlockLen_ceil (inputLen dataBlocks : Z) :
  0 < dataBlocks → 0 <= inputLen → inputLen + dataBlocks < 2^63 →
  ∃ n, getEncodedBlockLen inputLen dataBlocks = Ret n ∧
       0 <= n ∧ (n - 1) * dataBlocks < inputLen <= n * dataBlocks.
Proof.
  intros HD Hin Hbound. unfold getEncodedBlockLen.
  case_decide; [lia|].
  rewrite (wrap64_small (inputLen + dataBlocks)) by lia.
  rewrite (wrap64_small (inputLen + dataBlocks - 1)) by lia.
  rewrite Z.quot_div_nonneg by lia.
  assert (Hq : 0 <= (inputLen + dataBlocks - 1) / dataBlocks <= inputLen + dataBlocks - 1).
  { split; [apply Z.div_pos; lia|]. apply Z.div_le_upper_bound; nia. }
  rewrite wrap64_small by lia.
  eexists; split; [done|].
  pose proof (Z.div_mod (inputLen + dataBlocks - 1) dataBlocks ltac:(lia)) as Hdm.
  pose proof (Z.mod_pos_bound (inputLen + dataBlocks - 1) dataBlocks HD) as Hm.
  nia.
Qed.

Example checkBlockSize_first_nonzero :
  checkBlockSize [None; Some []; Some [Byte.x61; Byte.x62]; Some [Byte.x63]] = 2%nat.
Proof. reflexivity. Qed.

Example getEncodedBlockLen_10_4 : getEncodedBlockLen 10 4 = Ret 3.
Proof. reflexivity. Qed.

Example getEncodedBlockLen_no_data_blocks : getEncodedBlockLen 10 0 = Panic DivideByZero.
Proof. reflexivity. Qed.

(** ** One shard read *)

Lemma read_loop_spec (n : Z) (readers : list (option Reader)) :
  0 <= n →
  ∀ (index : nat) (enBlocks : list shard),
    (index + length readers ≤ length enBlocks)%nat →
    ∃ enBlocks',
      read_loop n index readers enBlocks
        = Ret (reader_after (Z.to_nat n) <$> readers, enBlocks') ∧
      length enBlocks' = length enBlocks ∧
      (∀ j, (j < index)%nat → enBlocks' !! j = enBlocks !! j) ∧
      (∀ j, (index + length readers ≤ j)%nat → enBlocks' !! j = enBlocks !! j) ∧
      (∀ k reader, readers !! k = Some reader →
         enBlocks' !! (index + k)%nat = Some (block_of (Z.to_nat n) reader)).
Proof.
  intros Hn. induction readers as [|reader rest IH]; intros index enBlocks Hlen.
  - exists enBlocks. simpl. repeat split; try done.
  - simpl in Hlen.
    set (blk := block_of (Z.to_nat n) reader).
    destruct (IH (S index) (<[index:=blk]> enBlocks)) as (bl' & Hrun & Hl & Hlow & Hhigh & Hat).
    { rewrite length_insert. lia. }
    rewrite length_insert in Hl.
    exists bl'. split.
    { destruct reader as [r|]; simpl.
      - case_decide; [lia|]. case_decide; [|lia].
        subst blk. simpl in Hrun.
        destruct (ReadFull r (Z.to_nat n)) as [[r' buf] err]; cbv beta iota.
        by rewrite Hrun.
      - case_decide; [|lia]. subst blk. simpl in Hrun. by rewrite Hrun. }
    split; [done|]. split; [|split].
    + intros j Hj. rewrite Hlow by lia. apply list_lookup_insert_ne. lia.
    + intros j Hj. simpl in Hj. rewrite Hhigh by lia. apply list_lookup_insert_ne. lia.
    + intros [|k] rd Hk; simpl in Hk.
      * inversion Hk; subst rd. rewrite Nat.add_0_r, Hlow by lia.
        apply list_lookup_insert_eq. lia.
      * replace (index + S k)%nat with (S index + k)%nat by lia. by apply Hat.
Qed.

Lemma block_of_cases (n : nat) (r : Reader) :
  let have := length (pending r) in
  let e := default EOF (fault r) in
  ((n ≤ have)%nat → block_of n (Some r) = Some (take n (pending r))) ∧
  ((have < n)%nat → e = ErrUnexpectedEOF ∨ (0 < have)%nat ∧ e = EOF →
     block_of n (Some r) = Some (pending r ++ zeros (n - have))) ∧
  ((have < n)%nat → e ≠ ErrUnexpectedEOF → have = 0%nat ∨ e ≠ EOF →
     block_of n (Some r) = None).
Proof.
  intros have e. subst have e. unfold block_of, ReadFull. cbv zeta.
  repeat split; intros.
  - by rewrite decide_True.
  - rewrite decide_False by lia. cbv beta iota.
    destruct (decide (0 < length (pending r))%nat),
      (decide (default EOF (fault r) = EOF));
      rewrite decide_False; try done; intuition congruence.
  - rewrite decide_False by lia. cbv beta iota.
    destruct (decide (0 < length (pending r))%nat),
      (decide (default EOF (fault r) = EOF));
      try (rewrite decide_True; done); intuition (congruence || lia).
Qed.

(** C5, as amended: in an iteration of the producer loop with
    [0 < dataBlocks], every reader is asked for
    [encShardLen = ceil(curBlockSize / dataBlocks)] bytes and the loop goes
    through all the readers without aborting.  A reader that has
    [encShardLen] bytes gives exactly these to [enBlocks[i]] and advances by
    them.  On a short read the entry is the partly filled, zero-padded
    buffer when the read ends with [io.ErrUnexpectedEOF] (end of file after
    at least one byte), and nil when no byte came before the end of file or
    the reader failed with another error. *)
Theorem C5_shard_reads (curBlockSize dataBlocks totalBlocks : Z)
    (readers : list (option Reader)) :
  0 < dataBlocks → 0 <= curBlockSize → curBlockSize + dataBlocks < 2^63 →
  Z.of_nat (length readers) <= totalBlocks →
  ∃ encShardLen readers' enBlocks,
    getEncodedBlockLen curBlockSize dataBlocks = Ret encShardLen ∧
    0 <= encShardLen ∧
    (encShardLen - 1) * dataBlocks < curBlockSize <= encShardLen * dataBlocks ∧
    readShards encShardLen totalBlocks readers = Ret (readers', enBlocks) ∧
    length enBlocks = Z.to_nat totalBlocks ∧
    ∀ i r, readers !! i = Some (Some r) →
      let n := Z.to_nat encShardLen in
      let have := length (pending r) in
      let e := default EOF (fault r) in
      ((n ≤ have)%nat →
         enBlocks !! i = Some (Some (take n (pending r))) ∧
         readers' !! i = Some (Some (mkReader (drop n (pending r)) (fault r) (closes r)))) ∧
      ((have < n)%nat → e = ErrUnexpectedEOF ∨ (0 < have)%nat ∧ e = EOF →
         enBlocks !! i = Some (Some (pending r ++ zeros (n - have)))) ∧
      ((have < n)%nat → e ≠ ErrUnexpectedEOF → have = 0%nat ∨ e ≠ EOF →
         enBlocks !! i = Some None).
Proof.
  intros HD Hc Hbound Hlen.
  destruct (getEncodedBlockLen_ceil curBlockSize dataBlocks) as (n & Hn & Hn0 & Hceil);
    [done..|].
  destruct (read_loop_spec n readers Hn0 0%nat (replicate (Z.to_nat totalBlocks) None))
    as (bl & Hrun & Hl & _ & _ & Hat).
  { rewrite length_replicate. lia. }
  exists n, (reader_after (Z.to_nat n) <$> readers), bl.
  split; [done|]. split; [done|]. split; [done|]. split.
  { unfold readShards. by rewrite decide_False by lia. }
  split. { by rewrite Hl, length_replicate. }
  intros i r Hi. specialize (Hat i _ Hi). simpl in Hat.
  destruct (block_of_cases (Z.to_nat n) r) as (Hfull & Hpad & Hnil).
  cbv zeta. repeat split.
  - rewrite Hat. f_equal. by apply Hfull.
  - rewrite list_lookup_fmap, Hi. simpl. unfold ReadFull.
    by rewrite decide_True.
  - intros ? ?. rewrite Hat. f_equal. by apply Hpad.
  - intros ? ? ?. rewrite Hat. f_equal. by apply Hnil.
Qed.

(** The theorem at work: three bytes per block over two data blocks, a
    reader with three bytes and a nil reader. *)
Lemma C5_shard_reads_witness :
  (0 < 2 ∧ 0 <= 3 ∧ 3 + 2 < 2^63 ∧ Z.of_nat (length [Some (mkReader abc None 0); None]) <= 3) ∧
  ∃ readers' enBlocks,
    readShards 2 3 [Some (mkReader abc None 0); None] = Ret (readers', enBlocks) ∧
    enBlocks !! 0%nat = Some (Some [Byte.x61; Byte.x62]).
Proof.
  assert (H1 : 0 < 2) by lia.
  assert (H2 : 0 <= 3) by lia.
  assert (H3 : 3 + 2 < 2^63) by lia.
  assert (H4 : Z.of_nat (length [Some (mkReader abc None 0); None]) <= 3) by (simpl; lia).
  split; [done|].
  destruct (C5_shard_reads 3 2 3 [Some (mkReader abc None 0); None] H1 H2 H3 H4)
    as (n & rs & bl & Hn & _ & _ & Hrun & _ & Hat).
  assert (n = 2) as -> by (vm_compute in Hn; congruence).
  exists rs, bl. split; [done|].
  destruct (Hat 0%nat (mkReader abc None 0) eq_refl) as ((Hfull & _) & _).
  { simpl. lia. }
  exact Hfull.
Defined.

(** C5 as stated fails on a short read: a reader with one byte left that
    is asked for two bytes ends with [io.ErrUnexpectedEOF], and the code
    keeps the partly filled buffer instead of setting the entry to nil. *)
Lemma C5_short_read_keeps_buffer :
  getEncodedBlockLen 2 1 = Ret 2 ∧
  (length (pending (mkReader [Byte.x61] None 0)) < Z.to_nat 2)%nat ∧
  readShards 2 1 [Some (mkReader [Byte.x61] None 0)]
    = Ret ([Some (mkReader [] None 0)], [Some [Byte.x61; Byte.x00]]) ∧
  [Some [Byte.x61; Byte.x00]] ≠ [@None bytes].
Proof. split; [|split; [|split]]; [by vm_compute | simpl; lia | by vm_compute | done]. Qed.

(** Induction on the runs of the loop, with the names the proofs below
    use for what each rule brings. *)
Ltac run_induction :=
  induction 1 as
    [totalLeft readers pipe Hleft
    |totalLeft readers pipe p Hleft Hlen
    |totalLeft readers pipe n p Hleft Hlen Hread
    |totalLeft readers pipe n readers' enBlocks err Hleft Hlen Hread Hdec
    |totalLeft readers pipe n readers' enBlocks out pipe' err Hleft Hlen Hread Hdec Hwrite
    |totalLeft readers pipe n readers' enBlocks out pipe' r Hleft Hlen Hread Hdec Hwrite Hrun IH].

(** ** The producer loop *)

Section producer.
Context (W : World) (xl : XL) (totalBlocks : Z).

Lemma producer_loop_run (fuel : nat) :
  ∀ totalLeft readers pipe r,
    producer_loop W fuel xl totalBlocks totalLeft readers pipe = Some r →
    run W xl totalBlocks totalLeft readers pipe r.
Proof.
  induction fuel as [|fuel IH]; intros totalLeft readers pipe r; simpl;
    case_decide as Hleft; intros Hr; try done;
    try (injection Hr as <-; by apply run_done).
  destruct (getEncodedBlockLen _ _) as [n|p] eqn:Hlen;
    [|injection Hr as <-; by eapply run_len_panic].
  destruct (readShards _ _ _) as [[readers' enBlocks]|p] eqn:Hread;
    [|injection Hr as <-; by eapply run_read_panic].
  destruct (decodeBlock _ _ _) as [out|err] eqn:Hdec;
    [|injection Hr as <-; by eapply run_decode_error].
  destruct (pipeWrite pipe out) as [pipe' [err|]] eqn:Hwrite.
  - injection Hr as <-. by eapply run_write_error.
  - eapply run_next; eauto.
Qed.

(** The fuel [producer] gives the loop is enough. *)
Lemma producer_loop_fuel (fuel : nat) :
  0 < erasureBlockSize W < 2^63 →
  ∀ totalLeft readers pipe,
    totalLeft <= Z.of_nat fuel → totalLeft < 2^63 →
    is_Some (producer_loop W fuel xl totalBlocks totalLeft readers pipe).
Proof.
  intros HB. induction fuel as [|fuel IH]; intros totalLeft readers pipe Hfuel Hmax; simpl;
    case_decide as Hleft; try done; try lia.
  destruct (getEncodedBlockLen _ _) as [n|p]; [|done].
  destruct (readShards _ _ _) as [[readers' enBlocks]|p]; [|done].
  destruct (decodeBlock _ _ _) as [out|err]; [|done].
  destruct (pipeWrite pipe out) as [pipe' [err|]]; [done|].
  rewrite wrap64_small by lia. apply IH; lia.
Qed.

Lemma pipeWrite_ok (pipe pipe' : Pipe) (out : bytes) :
  pipeWrite pipe out = (pipe', None) → chunks pipe' = chunks pipe ++ [out].
Proof.
  unfold pipeWrite. destruct (demand pipe) as [k|]; [case_decide|];
    intros Hw; by simplify_eq.
Qed.

Lemma pipeWrite_error (pipe pipe' : Pipe) (out : bytes) (err : error) :
  pipeWrite pipe out = (pipe', Some err) →
  err = ErrClosedPipe ∧ ∃ k, chunks pipe' = chunks pipe ++ [take k out].
Proof.
  unfold pipeWrite. destruct (demand pipe) as [k|]; [case_decide|];
    intros Hw; simplify_eq. eauto.
Qed.

Lemma decodeBlock_cases (rs : Codec) (enBlocks : list shard) (curBlockSize : Z) :
  ((∀ b, b ∈ enBlocks → shard_len b = 0%nat) →
     decodeBlock rs enBlocks curBlockSize = Err errAllBlocksZero) ∧
  (¬ (∀ b, b ∈ enBlocks → shard_len b = 0%nat) →
     (Verify rs enBlocks = Ok true →
        decodeBlock rs enBlocks curBlockSize = Join rs enBlocks curBlockSize) ∧
     (Verify rs enBlocks = Ok false →
        (∀ err, Reconstruct rs enBlocks = Err err →
           decodeBlock rs enBlocks curBlockSize = Err err) ∧
        (∀ rebuilt, Reconstruct rs enBlocks = Ok rebuilt →
           (Verify rs rebuilt = Ok false →
              decodeBlock rs enBlocks curBlockSize = Err errVerifyAfterReconstruct) ∧
           (Verify rs rebuilt = Ok true →
              decodeBlock rs enBlocks curBlockSize = Join rs rebuilt curBlockSize)))) ∧
  (∀ out, decodeBlock rs enBlocks curBlockSize = Ok out →
     ∃ blocks, Verify rs blocks = Ok true ∧ Join rs blocks curBlockSize = Ok out ∧
       (blocks = enBlocks ∨
        Verify rs enBlocks = Ok false ∧ Reconstruct rs enBlocks = Ok blocks)).
Proof.
  unfold decodeBlock. rewrite <- Forall_forall, <- checkBlockSize_zero_iff.
  split; [|split].
  - intros H. by rewrite decide_True.
  - intros H. rewrite decide_False by done. split.
    + by intros ->.
    + intros ->. split.
      * by intros err ->.
      * intros rebuilt ->. split; by intros ->.
  - intros out. case_decide; [done|].
    destruct (Verify rs enBlocks) as [[|]|] eqn:Hv; [| |done].
    { intros Hj. exists enBlocks. auto. }
    destruct (Reconstruct rs enBlocks) as [rebuilt|] eqn:Hr; [|done].
    destruct (Verify rs rebuilt) as [[|]|] eqn:Hv'; [|done..].
    intros Hj. exists rebuilt. auto.
Qed.

Lemma decodeBlock_verified (rs : Codec) (enBlocks : list shard) (n : Z) (out : bytes) :
  decodeBlock rs enBlocks n = Ok out →
  ∃ blocks, Verify rs blocks = Ok true ∧ Join rs blocks n = Ok out.
Proof.
  intros H. destruct (decodeBlock_cases rs enBlocks n) as (_ & _ & Hok).
  destruct (Hok out H) as (blocks & ? & ? & _). eauto.
Qed.

(** Every chunk a run adds to the pipe is the output of [Join] on blocks
    that passed [Verify]. *)
Lemma run_chunks_verified totalLeft readers pipe r :
  run W xl totalBlocks totalLeft readers pipe r →
  ∀ f, r = Ret f →
    ∃ new, chunks (pipe_after f) = chunks pipe ++ new ∧
           Forall (verified_output (ReedSolomon xl)) new.
Proof.
  run_induction;
    intros f Hf; try done.
  - destruct (close_readers readers); simplify_eq/=.
    exists []. by rewrite app_nil_r.
  - simplify_eq/=. exists []. by rewrite app_nil_r.
  - simplify_eq/=. apply pipeWrite_error in Hwrite as (_ & k & ->).
    exists [take k out]. split; [done|]. constructor; [|done].
    apply decodeBlock_verified in Hdec as (blocks & ? & ?).
    exists blocks. eauto 10.
  - destruct (IH f Hf) as (new & Hnew & Hall).
    apply pipeWrite_ok in Hwrite. rewrite Hwrite, <- app_assoc in Hnew.
    exists (out :: new). split; [done|]. constructor; [|done].
    apply decodeBlock_verified in Hdec as (blocks & ? & ?).
    eexists blocks, _, out. repeat split; try done.
    exists (length out). by rewrite firstn_all.
Qed.


End producer.

Lemma mirror_Join_exact : Join_exact mirror.
Proof.
  intros [|[a|] blocks] n out; simpl; try done.
  case_decide as Hn; [|done]. intros [= <-].
  rewrite length_take. lia.
Qed.



(** The loop is a function: a state has one run. *)
Lemma run_deterministic W xl totalBlocks totalLeft readers pipe r1 r2 :
  run W xl totalBlocks totalLeft readers pipe r1 →
  run W xl totalBlocks totalLeft readers pipe r2 →
  r1 = r2.
Proof.
  intros Hrun. revert r2.
  induction Hrun; intros r2 Hrun2; inversion Hrun2; subst; try done;
    repeat match goal with
           | H1 : ?t = _, H2 : ?t = _ |- _ => rewrite H1 in H2; simplify_eq
           end;
    try done; auto.
Qed.

(** A run from the start state is what [producer] returns. *)
Lemma producer_of_run W xl s pipe r :
  0 < erasureBlockSize W < 2^63 →
  fileSize s < 2^63 →
  run W xl (wrap64 (DataBlocks xl + ParityBlocks xl)) (fileSize s) (readers s) pipe r →
  producer W xl s pipe = Some r.
Proof.
  intros HB Hsize Hrun.
  destruct (producer_loop_fuel W xl (wrap64 (DataBlocks xl + ParityBlocks xl))
              (Z.to_nat (fileSize s)) HB (fileSize s) (readers s) pipe) as [r' Hr'];
    [lia|done|].
  unfold producer. rewrite Hr'. f_equal.
  apply producer_loop_run in Hr'. by eapply run_deterministic.
Qed.

Lemma getEncodedBlockLen_one (inputLen : Z) :
  0 <= inputLen < 2^62 → getEncodedBlockLen inputLen 1 = Ret inputLen.
Proof.
  intros Hin. unfold getEncodedBlockLen. rewrite decide_False by done.
  rewrite (wrap64_small (inputLen + 1)) by lia.
  rewrite (wrap64_small (inputLen + 1 - 1)) by lia.
  rewrite Z.quot_1_r. rewrite wrap64_small by lia. f_equal. lia.
Qed.

Lemma ReadFull_one_byte (n : nat) (b : byte) (c : nat) :
  (2 ≤ n)%nat →
  ReadFull (mkReader [b] None c) n
    = (mkReader [] None c, b :: zeros (n - 1), Some ErrUnexpectedEOF).
Proof.
  intros Hn. unfold ReadFull. cbn [pending length fault closes default].
  repeat case_decide; simpl in *; try lia; done.
Qed.

(** An object of one byte more than a block, one data and one parity
    block, read from the offset of its second block: each shard reader
    has one byte left, the producer counts down from the whole size, takes
    the short read of the first iteration as a block of [blockSize] bytes and
    writes it, and fails in the second iteration. *)
Lemma offset_one_block (blockSize : Z) :
  2 <= blockSize < 2^62 →
  let content := replicate (Z.to_nat (blockSize + 1)) Byte.x61 in
  let W := sampleWorld blockSize content (blockSize + 1) in
  let r := mkReader (drop (Z.to_nat blockSize) content) None 0 in
  disk_ReadFile W 0%nat "vol" "obj/part.0" blockSize = Ok r ∧
  disk_ReadFile W 1%nat "vol" "obj/part.1" blockSize = Ok r ∧
  getFileSize W "vol" "obj" 0%nat = Ok (blockSize + 1) ∧
  ∃ f,
    producer W (sampleXL 2) (mkStream (blockSize + 1) [Some r; Some r]) (mkPipe [] None)
      = Some (Ret f) ∧
    Z.of_nat (length (delivered (pipe_after f))) = blockSize ∧
    blockSize ≠ blockSize + 1 - blockSize.
Proof.
  intros HB content W r.
  split; [done|]. split; [done|]. split.
  { unfold getFileSize. simpl. unfold store_keys. simpl.
    rewrite lookup_insert_ne by done. rewrite lookup_insert_eq.
    by rewrite String.eqb_refl. }
  assert (Hr : r = mkReader [Byte.x61] None 0).
  { subst r content. f_equal. rewrite drop_replicate.
    by replace (Z.to_nat (blockSize + 1) - Z.to_nat blockSize)%nat with 1%nat by lia. }
  rewrite Hr. clear Hr r.
  set (buf := Byte.x61 :: zeros (Z.to_nat blockSize - 1)).
  assert (Hbuf : length buf = Z.to_nat blockSize).
  { subst buf. simpl. unfold zeros. rewrite length_replicate. lia. }
  exists (mkFinal (CloseWithError errAllBlocksZero)
            [Some (mkReader [] None 0); Some (mkReader [] None 0)]
            (mkPipe [take (Z.to_nat blockSize) buf] None)).
  split; [|split; [|lia]].
  - apply producer_of_run; [simpl; lia..|]. simpl.
    eapply (run_next W (sampleXL 2) _ _ _ _ blockSize
              [Some (mkReader [] None 0); Some (mkReader [] None 0)]
              [Some buf; Some buf] (take (Z.to_nat blockSize) buf)
              (mkPipe [take (Z.to_nat blockSize) buf] None)).
    + lia.
    + simpl. rewrite decide_True by lia. apply getEncodedBlockLen_one. lia.
    + change (wrap64 (DataBlocks (sampleXL 2) + ParityBlocks (sampleXL 2))) with 2.
      unfold readShards. simpl.
      repeat (case_decide; try lia; try done).
      by rewrite !ReadFull_one_byte by lia.
    + simpl. rewrite decide_True by lia.
      unfold decodeBlock. cbn [checkBlockSize shard_len].
      rewrite decide_False by (rewrite decide_True by (rewrite Hbuf; lia); rewrite Hbuf; lia).
      cbn [ReedSolomon sampleXL mirror Verify Join].
      rewrite bool_decide_eq_true_2 by done.
      by rewrite decide_True by (rewrite Hbuf; lia).
    + done.
    + simpl. replace (blockSize + 1 - blockSize) with 1 by lia.
      change (wrap64 1) with 1.
      eapply (run_decode_error W (sampleXL 2) _ _ _ _ 1
                [Some (mkReader [] None 0); Some (mkReader [] None 0)] [None; None]).
      * lia.
      * simpl. rewrite decide_False by lia. done.
      * done.
      * simpl. rewrite decide_False by lia. done.
  - unfold delivered. simpl. rewrite app_nil_r, length_take, Hbuf. lia.
Qed.

(** The producer on readers opened at an offset: with the block size of
    4 MiB, an object of 4 MiB and one byte, and readers opened at the
    offset 4 MiB of its second block, the producer still counts down from
    the whole size; it hands 4194304 bytes to the pipe where
    [size - offset] is 1. *)
Example totalLeft_ignores_offset :
  let content := replicate (Z.to_nat (4194304 + 1)) Byte.x61 in
  let W := sampleWorld 4194304 content (4194304 + 1) in
  let r := mkReader (drop (Z.to_nat 4194304) content) None 0 in
  disk_ReadFile W 0%nat "vol" "obj/part.0" 4194304 = Ok r ∧
  disk_ReadFile W 1%nat "vol" "obj/part.1" 4194304 = Ok r ∧
  getFileSize W "vol" "obj" 0%nat = Ok (4194304 + 1) ∧
  ∃ f,
    producer W (sampleXL 2) (mkStream (4194304 + 1) [Some r; Some r]) (mkPipe [] None)
      = Some (Ret f) ∧
    Z.of_nat (length (delivered (pipe_after f))) = 4194304 ∧
    4194304 ≠ 4194304 + 1 - 4194304.
Proof. apply (offset_one_block 4194304). lia. Qed.

(** The same with a block size of 2 bytes, by evaluation: a 3-byte object
    read from offset 2. *)
Example offset_one_block_small :
  producer (sampleWorld 2 abc 3) (sampleXL 2)
    (mkStream 3 [Some (mkReader [Byte.x63] None 0); Some (mkReader [Byte.x63] None 0)])
    (mkPipe [] None)
  = Some (Ret (mkFinal (CloseWithError errAllBlocksZero)
      [Some (mkReader [] None 0); Some (mkReader [] None 0)]
      (mkPipe [[Byte.x63; Byte.x00]] None))).
Proof. by vm_compute. Qed.

(** Two blocks: a 3-byte object read in blocks of 2 bytes. *)
Example producer_two_blocks :
  producer (sampleWorld 2 abc 3) (sampleXL 2)
    (mkStream 3 [Some (mkReader abc None 0); Some (mkReader abc None 0)])
    (mkPipe [] None)
  = Some (Ret (mkFinal CleanClose
      [Some (mkReader [] None 1); Some (mkReader [] None 1)]
      (mkPipe [[Byte.x61; Byte.x62]; [Byte.x63]] None))).
Proof. by vm_compute. Qed.
Lemma decodeBlock_verify_errors (rs : Codec) (enBlocks : list shard) (curBlockSize : Z) :
  ¬ (∀ b, b ∈ enBlocks → shard_len b = 0%nat) →
  (∀ err, Verify rs enBlocks = Err err →
     decodeBlock rs enBlocks curBlockSize = Err err) ∧
  (Verify rs enBlocks = Ok false →
     ∀ rebuilt, Reconstruct rs enBlocks = Ok rebuilt →
       ∀ err, Verify rs rebuilt = Err err →
         decodeBlock rs enBlocks curBlockSize = Err err).
Proof.
  unfold decodeBlock. rewrite <- Forall_forall, <- checkBlockSize_zero_iff.
  intros Hnz. rewrite decide_False by done. split.
  - by intros err ->.
  - by intros -> rebuilt -> err ->.
Qed.

(** An iteration of the producer loop once the shards are read: what is
    left to do is [decodeBlock] and the write into the pipe. *)
Lemma producer_loop_step (W : World) (xl : XL) (totalBlocks totalLeft : Z)
    (readers readers' : list (option Reader)) (pipe : Pipe) (fuel : nat)
    (curEncBlockSize : Z) (enBlocks : list shard) :
  totalLeft > 0 →
  getEncodedBlockLen
    (if decide (erasureBlockSize W < totalLeft) then erasureBlockSize W else totalLeft)
    (DataBlocks xl) = Ret curEncBlockSize →
  readShards curEncBlockSize totalBlocks readers = Ret (readers', enBlocks) →
  producer_loop W (S fuel) xl totalBlocks totalLeft readers pipe =
    match decodeBlock (ReedSolomon xl) enBlocks
            (if decide (erasureBlockSize W < totalLeft) then erasureBlockSize W
             else totalLeft) with
    | Err err => Some (Ret (mkFinal (CloseWithError err) readers' pipe))
    | Ok out =>
        match pipeWrite pipe out with
        | (pipe', Some err) => Some (Ret (mkFinal (CloseWithError err) readers' pipe'))
        | (pipe', None) =>
            producer_loop W fuel xl totalBlocks (wrap64 (totalLeft - erasureBlockSize W))
              readers' pipe'
        end
    end.
Proof.
  intros Hleft Hlen Hread. cbn [producer_loop].
  rewrite (decide_True (P := totalLeft > 0)) by done. by rewrite Hlen, Hread.
Qed.

(** C6: what an iteration of the producer loop does with the blocks it
    has read, [enBlocks].  If every entry is nil or of length zero the
    goroutine ends there: it closes the pipe with the data-corrupted
    error, and nothing was written.  Otherwise an error of [Verify] ends
    it with that error; blocks that pass [Verify] are joined as they are;
    when [Verify] says no, [Reconstruct] is called, its error ends the
    goroutine with that error, and after it a second [Verify] that fails,
    or that says no (the corrupted-after-reconstruction error), ends it
    too; only when it says yes are the rebuilt blocks joined.  To join is
    to call [Join]: its error ends the goroutine, and so does a failed
    write of what it gives into the pipe; otherwise the loop goes on with
    the next block.  So every chunk a run of the producer adds to the pipe
    is the output of [Join] on blocks that passed [Verify]. *)
Theorem C6_block_outcomes (W : World) (xl : XL) :
  let rs := ReedSolomon xl in
  (∀ (totalBlocks totalLeft : Z) (readers readers' : list (option Reader))
     (pipe : Pipe) (fuel : nat) (curEncBlockSize : Z) (enBlocks : list shard),
     totalLeft > 0 →
     let curBlockSize :=
       if decide (erasureBlockSize W < totalLeft) then erasureBlockSize W
       else totalLeft in
     getEncodedBlockLen curBlockSize (DataBlocks xl) = Ret curEncBlockSize →
     readShards curEncBlockSize totalBlocks readers = Ret (readers', enBlocks) →
     let iteration := producer_loop W (S fuel) xl totalBlocks totalLeft readers pipe in
     let fails err :=
       iteration = Some (Ret (mkFinal (CloseWithError err) readers' pipe)) in
     let joins blocks :=
       match Join rs blocks curBlockSize with
       | Err err => fails err
       | Ok out =>
           match pipeWrite pipe out with
           | (pipe', Some err) =>
               iteration = Some (Ret (mkFinal (CloseWithError err) readers' pipe'))
           | (pipe', None) =>
               iteration
                 = producer_loop W fuel xl totalBlocks
                     (wrap64 (totalLeft - erasureBlockSize W)) readers' pipe'
           end
       end in
     ((∀ b, b ∈ enBlocks → shard_len b = 0%nat) → fails errAllBlocksZero) ∧
     (¬ (∀ b, b ∈ enBlocks → shard_len b = 0%nat) →
        (∀ err, Verify rs enBlocks = Err err → fails err) ∧
        (Verify rs enBlocks = Ok true → joins enBlocks) ∧
        (Verify rs enBlocks = Ok false →
           (∀ err, Reconstruct rs enBlocks = Err err → fails err) ∧
           (∀ rebuilt, Reconstruct rs enBlocks = Ok rebuilt →
              (∀ err, Verify rs rebuilt = Err err → fails err) ∧
              (Verify rs rebuilt = Ok false → fails errVerifyAfterReconstruct) ∧
              (Verify rs rebuilt = Ok true → joins rebuilt))))) ∧
  (∀ s pipe f, producer W xl s pipe = Some (Ret f) →
     ∃ new, chunks (pipe_after f) = chunks pipe ++ new ∧
            Forall (verified_output rs) new).
Proof.
  intros rs. split.
  - intros totalBlocks totalLeft readers readers' pipe fuel curEncBlockSize enBlocks
      Hleft curBlockSize Hlen Hread iteration fails joins.
    assert (Hstep := producer_loop_step W xl totalBlocks totalLeft readers readers' pipe
                       fuel curEncBlockSize enBlocks Hleft Hlen Hread).
    fold curBlockSize rs iteration in Hstep.
    destruct (decodeBlock_cases rs enBlocks curBlockSize) as (Hzero & Hverify & _).
    assert (Hfails : ∀ err, decodeBlock rs enBlocks curBlockSize = Err err → fails err).
    { intros err Hdec. unfold fails. by rewrite Hstep, Hdec. }
    assert (Hjoins : ∀ blocks,
      decodeBlock rs enBlocks curBlockSize = Join rs blocks curBlockSize → joins blocks).
    { intros blocks Hdec. unfold joins, fails. rewrite Hstep, Hdec.
      destruct (Join rs blocks curBlockSize) as [out|err]; [|done].
      by destruct (pipeWrite pipe out) as [pipe' [err|]]. }
    split; [by intros Hall; apply Hfails, Hzero|].
    intros Hnz. destruct (Hverify Hnz) as [Hyes Hno].
    destruct (decodeBlock_verify_errors rs enBlocks curBlockSize Hnz) as [Herr Herr'].
    split; [by intros err Hv; apply Hfails, Herr|].
    split; [by intros Hv; apply Hjoins, Hyes|].
    intros Hv. destruct (Hno Hv) as [Hrec Hrebuilt].
    split; [by intros err Hr; apply Hfails, Hrec|].
    intros rebuilt Hr. destruct (Hrebuilt rebuilt Hr) as [Hstill Hnow].
    split; [by intros err Hv'; apply Hfails, (Herr' Hv rebuilt Hr)|].
    split; [by intros Hv'; apply Hfails, Hstill|].
    by intros Hv'; apply Hjoins, Hnow.
  - intros s pipe f Hrun. apply producer_loop_run in Hrun.
    by eapply run_chunks_verified.
Qed.

(** The theorem at work: a 3-byte block and two shard readers that break
    down at once; both entries of [enBlocks] are nil and the goroutine
    closes the pipe with the data-corrupted error. *)
Lemma C6_block_outcomes_witness :
  (3 > 0 ∧
   getEncodedBlockLen 3 (DataBlocks (sampleXL 2)) = Ret 3 ∧
   readShards 3 2 [Some (mkReader [] (Some (errDisk 5)) 0);
                   Some (mkReader [] (Some (errDisk 5)) 0)]
     = Ret ([Some (mkReader [] (Some (errDisk 5)) 0);
             Some (mkReader [] (Some (errDisk 5)) 0)], [None; None]) ∧
   (∀ b, b ∈ [@None bytes; None] → shard_len b = 0%nat)) ∧
  producer_loop (sampleWorld fourMiB abc 3) 1 (sampleXL 2) 2 3
    [Some (mkReader [] (Some (errDisk 5)) 0); Some (mkReader [] (Some (errDisk 5)) 0)]
    (mkPipe [] None)
  = Some (Ret (mkFinal (CloseWithError errAllBlocksZero)
      [Some (mkReader [] (Some (errDisk 5)) 0); Some (mkReader [] (Some (errDisk 5)) 0)]
      (mkPipe [] None))).
Proof.
  assert (H1 : 3 > 0) by lia.
  assert (H2 : getEncodedBlockLen 3 (DataBlocks (sampleXL 2)) = Ret 3) by reflexivity.
  assert (H3 : readShards 3 2 [Some (mkReader [] (Some (errDisk 5)) 0);
                               Some (mkReader [] (Some (errDisk 5)) 0)]
     = Ret ([Some (mkReader [] (Some (errDisk 5)) 0);
             Some (mkReader [] (Some (errDisk 5)) 0)], [None; None]))
    by (vm_compute; reflexivity).
  assert (H4 : ∀ b, b ∈ [@None bytes; None] → shard_len b = 0%nat).
  { intros b Hb. repeat (apply elem_of_cons in Hb as [->|Hb]; [reflexivity|]).
    by apply elem_of_nil in Hb. }
  split; [done|].
  destruct (C6_block_outcomes (sampleWorld fourMiB abc 3) (sampleXL 2)) as [Hiter _].
  exact (proj1 (Hiter 2 3 _ _ (mkPipe [] None) 0%nat 3 [None; None] H1 H2 H3) H4).
Defined.

(** ** Who closes the shard readers *)

Lemma closes_of_cons (reader : option Reader) (rest : list (option Reader)) :
  closes_of (reader :: rest) = (closes <$> reader) :: closes_of rest.
Proof. done. Qed.

Lemma read_loop_closes (n : Z) (readers : list (option Reader)) :
  ∀ index enBlocks readers' enBlocks',
    read_loop n index readers enBlocks = Ret (readers', enBlocks') →
    closes_of readers' = closes_of readers.
Proof.
  induction readers as [|[r|] rest IH]; intros index enBlocks readers' enBlocks'; simpl.
  - by intros [= <- <-].
  - repeat case_decide; try done.
    destruct (ReadFull r (Z.to_nat n)) as [[r' buf] err] eqn:Hfull.
    destruct (read_loop n (S index) rest _) as [[rest' bl]|] eqn:Hrest; [|done].
    simpl. intros [= <- <-]. rewrite !closes_of_cons, (IH _ _ _ _ Hrest).
    f_equal. unfold ReadFull in Hfull. case_decide; by simplify_eq.
  - case_decide; [|done].
    destruct (read_loop n (S index) rest _) as [[rest' bl]|] eqn:Hrest; [|done].
    simpl. intros [= <- <-]. by rewrite !closes_of_cons, (IH _ _ _ _ Hrest).
Qed.

Lemma readShards_closes n totalBlocks readers readers' enBlocks :
  readShards n totalBlocks readers = Ret (readers', enBlocks) →
  closes_of readers' = closes_of readers.
Proof. unfold readShards. case_decide; [done|]. apply read_loop_closes. Qed.

Lemma close_readers_closes readers readers' :
  close_readers readers = Ret readers' →
  closes_of readers' = (λ c : option nat, S <$> c) <$> closes_of readers ∧
  Forall is_Some readers.
Proof.
  revert readers'. induction readers as [|[r|] rest IH]; intros readers'; simpl.
  - by intros [= <-].
  - destruct (close_readers rest) as [rest'|]; [|done].
    simpl. intros [= <-]. destruct (IH rest' eq_refl) as [Hrest ?].
    rewrite !closes_of_cons, Hrest.
    split; [done|]. constructor; [by eexists|done].
  - done.
Qed.

(** A run that closes the pipe with an error closes no reader; a run that
    closes it cleanly closes each reader once. *)
Lemma run_closes W xl totalBlocks totalLeft readers pipe r :
  run W xl totalBlocks totalLeft readers pipe r →
  ∀ f, r = Ret f →
    match how f with
    | CloseWithError _ => closes_of (readers_after f) = closes_of readers
    | CleanClose =>
        closes_of (readers_after f) = (λ c : option nat, S <$> c) <$> closes_of readers
    end.
Proof.
  run_induction;
    intros f Hf; try done.
  - destruct (close_readers readers) as [rs|] eqn:Hclose; simplify_eq/=.
    by apply close_readers_closes.
  - simplify_eq/=. by eapply readShards_closes.
  - simplify_eq/=. by eapply readShards_closes.
  - specialize (IH f Hf). apply readShards_closes in Hread.
    by rewrite Hread in IH.
Qed.

(** A producer that ends with an error leaves the shard readers open.
    Two opened readers with the three bytes of the object; the consumer
    closes its end after one byte: the write fails, the pipe is closed with
    the error, and no reader was closed.  The same with readers that
    deliver nothing (the all-blocks-zero error). *)
Example error_paths_leave_readers_open :
  (∃ f, producer (sampleWorld fourMiB abc 3) (sampleXL 2)
          (mkStream 3 [Some (mkReader abc None 0); Some (mkReader abc None 0)])
          (mkPipe [] (Some 1%nat)) = Some (Ret f) ∧
        how f = CloseWithError ErrClosedPipe ∧
        closes_of (readers_after f) = [Some 0%nat; Some 0%nat]) ∧
  (∃ f, producer (sampleWorld fourMiB abc 3) (sampleXL 2)
          (mkStream 3 [Some (mkReader [] None 0); Some (mkReader [] None 0)])
          (mkPipe [] None) = Some (Ret f) ∧
        how f = CloseWithError errAllBlocksZero ∧
        closes_of (readers_after f) = [Some 0%nat; Some 0%nat]).
Proof.
  split; eexists; (split; [vm_compute; reflexivity|split; reflexivity]).
Qed.

(** ** What [ReadFile] as a whole does *)

Lemma getMetaDataFileVersions_nonempty W xl volume path :
  storageDisks xl ≠ [] →
  getMetaDataFileVersions W xl volume path = Panic NilMapWrite.
Proof.
  unfold getMetaDataFileVersions. by destruct (storageDisks xl).
Qed.

Lemma getMetaDataFileVersions_empty W xl volume path :
  storageDisks xl = [] →
  getMetaDataFileVersions W xl volume path = Ret None.
Proof. unfold getMetaDataFileVersions. by intros ->. Qed.

(** [ReadFile] takes and gives back the lock once, or fails validation
    before taking it. *)
Lemma ReadFile_lock_paired W xl volume path offset :
  (ReadFile W xl volume path offset).1 = [] ∧
    (ReadFile W xl volume path offset).2 = Ret (Err errInvalidArgument) ∨
  (ReadFile W xl volume path offset).1
    = [lockNS volume path true; unlockNS volume path true].
Proof.
  unfold ReadFile.
  destruct (isValidVolname W volume), (isValidPath W path); simpl; auto.
Qed.




(** The loop of the probe on a map that has been made: the backend
    without [file.version] does not get version 0, for the [metadata] map
    still holds the key the decode of backend 0 stored. *)
Example versions_loop_shares_metadata :
  versions_loop probeWorld "vol" "obj/file.json" [0%nat; 1%nat] ∅ (Some ∅)
    = Ret (Some {[0%nat := 1; 1%nat := 1]}) ∧
  versions_loop probeWorld "vol" "obj/file.json" [1%nat; 0%nat] ∅ (Some ∅)
    = Ret (Some {[0%nat := 1; 1%nat := 0]}).
Proof. split; by vm_compute. Qed.

(** C10 fails on the code: [diskVersionMap] is the nil map when the loop
    assigns [diskVersionMap[disk] = -1] for the first disk, so with two
    disks the probe, and [ReadFile] with it, panics. *)
Lemma C10_version_probe_panics :
  storageDisks (sampleXL 2) = [0%nat; 1%nat] ∧
  getMetaDataFileVersions (sampleWorld fourMiB abc 3) (sampleXL 2) "vol" "obj" = Panic NilMapWrite ∧
  (ReadFile (sampleWorld fourMiB abc 3) (sampleXL 2) "vol" "obj" 0).2 = Panic NilMapWrite.
Proof. repeat split. Qed.

(** ** The shard-open loop *)

Lemma open_loop_first_success W xl volume path offset n qd rest readFileError i r :
  disk_ReadFile W (disk qd) volume (slashpathJoin W path (partName (index qd))) offset = Ok r →
  open_loop W xl volume path offset n (qd :: rest) [] readFileError i = Panic IndexOutOfRange.
Proof. intros Hopen. simpl. by rewrite Hopen. Qed.

(** The loop gets through only if no open succeeds. *)
Lemma open_loop_returns W xl volume path offset n rest :
  ∀ readFileError i readers,
    open_loop W xl volume path offset n rest [] readFileError i = Ret (Ok readers) →
    readers = [] ∧
    Forall (λ qd, ∃ err,
      disk_ReadFile W (disk qd) volume (slashpathJoin W path (partName (index qd))) offset
        = Err err) rest.
Proof.
  induction rest as [|qd rest IH]; intros readFileError i readers; simpl.
  - by intros [= <-].
  - destruct (disk_ReadFile W _ _ _ _) as [r|err] eqn:Hopen.
    + done.
    + case_decide; [|done]. intros Hrest.
      destruct (IH _ _ _ Hrest) as [-> Hall].
      split; [done|]. constructor; [by eexists|done].
Qed.

(** The loop on two quorum disks whose parts open: [readers] is the empty
    slice, so the first part that opens makes
    [readers[i] = erasuredPartReader] index out of range. *)
Example first_open_panics :
  slashpathJoin (sampleWorld fourMiB abc 3) "obj" (partName 0) = "obj/part.0"%string ∧
  (∃ r, disk_ReadFile (sampleWorld fourMiB abc 3) 0%nat "vol" "obj/part.0" 0 = Ok r) ∧
  open_loop (sampleWorld fourMiB abc 3) (sampleXL 2) "vol" "obj" 0 2
    [mkQuorumDisk 0%nat 0%nat; mkQuorumDisk 1%nat 1%nat] [] 0 0%nat = Panic IndexOutOfRange ∧
  ReadFile_quorum (sampleWorld fourMiB abc 3) (sampleXL 2) "vol" "obj" 0
    [mkQuorumDisk 0%nat 0%nat; mkQuorumDisk 1%nat 1%nat] = Panic IndexOutOfRange.
Proof. split; [by vm_compute|]. split; [by eexists|]. split; by vm_compute. Qed.

(** A stream that [ReadFile] returns carries the [file.size] of the first
    quorum disk, and no reader at all. *)
Lemma ReadFile_quorum_stream W xl volume path offset quorumDisks s :
  ReadFile_quorum W xl volume path offset quorumDisks = Ret (Ok s) →
  ∃ first rest,
    quorumDisks = first :: rest ∧
    getFileSize W volume path (disk first) = Ok (fileSize s) ∧
    readers s = [].
Proof.
  unfold ReadFile_quorum. case_decide; [done|].
  destruct quorumDisks as [|first rest]; [done|].
  destruct (getFileSize W volume path (disk first)) as [size|err] eqn:Hsize; [|done].
  destruct (open_loop _ _ _ _ _ _ _ _ _ _) as [[opened|err]|] eqn:Hopen; simpl; try done.
  intros [= <-]. apply open_loop_returns in Hopen as [-> _].
  exists first, rest. by repeat split.
Qed.

(** A shard that fails with an IO error is rebuilt from the other one: the
    second reader breaks down at once, its entry is nil, [Verify] says no,
    [Reconstruct] fills the entry and the object comes out whole. *)
Example producer_reconstructs_failed_shard :
  producer (sampleWorld fourMiB abc 3) (sampleXL 2)
    (mkStream 3 [Some (mkReader abc None 0); Some (mkReader [] (Some (errDisk 5)) 0)])
    (mkPipe [] None)
  = Some (Ret (mkFinal CleanClose
      [Some (mkReader [] None 1); Some (mkReader [] (Some (errDisk 5)) 1)]
      (mkPipe [[Byte.x61; Byte.x62; Byte.x63]] None))).
Proof. by vm_compute. Qed.

(** ** The quorum set *)

Lemma top_ge (entries : list (StorageAPI * Z)) :
  ∀ hv, hv <= top hv entries.
Proof.
  induction entries as [|[d v] rest IH]; intros hv; simpl; [lia|].
  specialize (IH (Z.max hv v)). unfold top in *. simpl. lia.
Qed.

Lemma top_spec (entries : list (StorageAPI * Z)) :
  ∀ hv,
    (∀ e, e ∈ entries → e.2 <= top hv entries) ∧
    (top hv entries = hv ∨ ∃ e, e ∈ entries ∧ e.2 = top hv entries).
Proof.
  induction entries as [|[d v] rest IH]; intros hv.
  - split; [by intros e ?%elem_of_nil | by left].
  - destruct (IH (Z.max hv v)) as [Hle Hmax].
    change (top hv ((d, v) :: rest)) with (top (Z.max hv v) rest).
    pose proof (top_ge rest (Z.max hv v)) as Hge.
    split.
    + intros e [->|He]%elem_of_cons; [simpl; lia | by apply Hle].
    + destruct Hmax as [Heq|(e & He & Hv)].
      * destruct (decide (v <= hv)).
        -- left. lia.
        -- right. exists (d, v). split; [left|simpl; lia].
      * right. exists e. split; [by right|done].
Qed.

(** What the loop computes: the entries of the highest version seen, each
    with its position in the iteration. *)
Lemma quorum_loop_select (entries : list (StorageAPI * Z)) :
  ∀ hv i acc,
    quorum_loop entries hv i acc =
      if decide (top hv entries = hv) then acc ++ select hv i entries
      else select (top hv entries) i entries.
Proof.
  induction entries as [|[d v] rest IH]; intros hv i acc.
  - simpl. rewrite decide_True by done. by rewrite app_nil_r.
  - change (top hv ((d, v) :: rest)) with (top (Z.max hv v) rest).
    pose proof (top_ge rest (Z.max hv v)) as Hge.
    cbn [quorum_loop select]. destruct (decide (v > hv)) as [Hgt|Hgt].
    + replace (Z.max hv v) with v in * by lia.
      rewrite (decide_False (P := top v rest = hv)) by lia.
      rewrite IH. destruct (decide (top v rest = v)) as [Heq|Hne].
      * rewrite Heq. by destruct (decide (v = v)).
      * by destruct (decide (v = top v rest)).
    + destruct (decide (v = hv)) as [->|Hne].
      * replace (Z.max hv hv) with hv in * by lia.
        rewrite IH. destruct (decide (top hv rest = hv)) as [Heq|Hne].
        -- destruct (decide (hv = hv)); [|done]. by rewrite <- app_assoc.
        -- by destruct (decide (hv = top hv rest)).
      * replace (Z.max hv v) with hv in * by lia.
        rewrite IH.
        destruct (decide (top hv rest = hv)) as [Heq|Hne'].
        -- destruct (decide (v = hv)); [congruence|done].
        -- destruct (decide (v = top hv rest)); [lia|done].
Qed.

Lemma quorumDisksOf_select (entries : list (StorageAPI * Z)) :
  quorumDisksOf entries = select (top 0 entries) 0 entries.
Proof.
  unfold quorumDisksOf. rewrite quorum_loop_select.
  case_decide as Htop; [|done]. by rewrite Htop.
Qed.

Lemma elem_of_select v (entries : list (StorageAPI * Z)) :
  ∀ i qd, qd ∈ select v i entries ↔
    ∃ k, entries !! k = Some (disk qd, v) ∧ index qd = (i + k)%nat.
Proof.
  induction entries as [|[d version] rest IH]; intros i qd; simpl.
  - split; [by intros ?%elem_of_nil | by intros (k & ? & _)].
  - case_decide as Hv.
    + rewrite elem_of_cons, IH. split.
      * intros [->|(k & Hk & Hi)].
        -- exists 0%nat. simpl. split; [by rewrite Hv | lia].
        -- exists (S k). split; [done | lia].
      * intros ([|k] & Hk & Hi); simpl in Hk.
        -- left. destruct qd as [d' i']. simpl in *. simplify_eq. f_equal. lia.
        -- right. exists k. split; [done | lia].
    + rewrite IH. split.
      * intros (k & Hk & Hi). exists (S k). split; [done | lia].
      * intros ([|k] & Hk & Hi); simpl in Hk; [by simplify_eq|].
        exists k. split; [done | lia].
Qed.

Lemma select_disks v (entries : list (StorageAPI * Z)) :
  ∀ i, disk <$> select v i entries = (filter (λ e, e.2 = v) entries).*1.
Proof.
  induction entries as [|[d version] rest IH]; intros i; simpl; [done|].
  rewrite filter_cons. simpl. case_decide; simpl; by rewrite IH.
Qed.

(** The index a quorum disk carries is its position in the iteration over
    the map of versions. *)
Lemma quorum_index_is_iteration_position (entries : list (StorageAPI * Z)) qd :
  qd ∈ quorumDisksOf entries →
  entries !! index qd = Some (disk qd, top 0 entries).
Proof.
  rewrite quorumDisksOf_select, elem_of_select. by intros (k & Hk & ->).
Qed.

(** The loop on a map of two backends: the index is the count of map
    entries visited so far.  Backends [[0; 1]], both at version 1, visited
    in the order 1, 0 (an order of the map [{0 ↦ 1, 1 ↦ 1}]): disk 1, the
    backend of ordinal 1, is given index 0, and disk 0 index 1. *)
Example index_is_iteration_counter :
  [(1%nat, 1); (0%nat, 1)] ≡ₚ map_to_list ({[0%nat := 1; 1%nat := 1]} : gmap StorageAPI Z) ∧
  quorumDisksOf [(1%nat, 1); (0%nat, 1)]
    = [mkQuorumDisk 1%nat 0%nat; mkQuorumDisk 0%nat 1%nat] ∧
  ordinal 1%nat (storageDisks (sampleXL 2)) = Some 1%nat ∧
  ordinal 0%nat (storageDisks (sampleXL 2)) = Some 0%nat.
Proof.
  split; [|by vm_compute].
  replace (map_to_list ({[0%nat := 1; 1%nat := 1]} : gmap StorageAPI Z))
    with [(1%nat, 1); (0%nat, 1)] by (by vm_compute).
  done.
Qed.

Lemma getFileSize_not_sentinel W volume path d :
  sentinel_free W → getFileSize W volume path d ≠ Err errReadQuorum.
Proof.
  intros (Hdisk & Hjson & Hparse). unfold getFileSize.
  destruct (disk_ReadFile W d volume _ 0) as [r|err] eqn:Hopen.
  - specialize (Hjson r). destruct (jsonDecode W r) as [kvs [err|]]; simpl in *.
    + congruence.
    + destruct (store_keys kvs ∅ !! _); [apply Hparse|done].
  - intros [= ->]. by eapply Hdisk.
Qed.

Lemma open_loop_not_sentinel W xl volume path offset n rest :
  sentinel_free W →
  ∀ readers readFileError i,
    open_loop W xl volume path offset n rest readers readFileError i
      ≠ Ret (Err errReadQuorum).
Proof.
  intros (Hdisk & _). induction rest as [|qd rest IH]; intros readers readFileError i; simpl.
  - done.
  - destruct (disk_ReadFile W _ _ _ _) as [r|err] eqn:Hopen.
    + case_decide; [apply IH|done].
    + case_decide; [apply IH|]. intros [= ->]. by eapply Hdisk.
Qed.

Lemma ReadFile_quorum_errReadQuorum W xl volume path offset quorumDisks :
  sentinel_free W →
  ReadFile_quorum W xl volume path offset quorumDisks = Ret (Err errReadQuorum)
  ↔ Z.of_nat (length quorumDisks) < readQuorum xl.
Proof.
  intros Hfree. unfold ReadFile_quorum. case_decide as Hlen; [done|].
  split; [|done]. destruct quorumDisks as [|first rest]; [done|].
  destruct (getFileSize W volume path (disk first)) as [size|err] eqn:Hsize.
  - destruct (open_loop _ _ _ _ _ _ _ _ _ _) as [[readers|err]|] eqn:Hopen; simpl; try done.
    intros [= ->]. exfalso. by eapply open_loop_not_sentinel.
  - intros [= ->]. exfalso. by eapply getFileSize_not_sentinel.
Qed.

(** The loop of [getReadFileQuorumDisks] on a map of versions [m] visited
    in any order: the quorum disks are exactly the disks whose version is
    [V], the highest version in the map when that is not negative and 0
    otherwise (so there is none when every disk stands at a negative
    version), each disk once; and [ReadFile], from the quorum check on,
    fails with [errReadQuorum] if and only if there are fewer than
    [readQuorum] of them.  The backends and the library functions are
    taken not to return [errReadQuorum] themselves. *)
Theorem quorum_set_of_map (W : World) (xl : XL) (volume path : string) (offset : Z)
    (m : gmap StorageAPI Z) (order : list (StorageAPI * Z)) :
  order ≡ₚ map_to_list m →
  sentinel_free W →
  ∃ V,
    0 <= V ∧ (∀ d v, m !! d = Some v → v <= V) ∧ (V = 0 ∨ ∃ d, m !! d = Some V) ∧
    (∀ d, d ∈ disk <$> quorumDisksOf order ↔ m !! d = Some V) ∧
    NoDup (disk <$> quorumDisksOf order) ∧
    (ReadFile_quorum W xl volume path offset (quorumDisksOf order) = Ret (Err errReadQuorum)
     ↔ Z.of_nat (length (quorumDisksOf order)) < readQuorum xl).
Proof.
  intros Hperm Hfree. exists (top 0 order).
  destruct (top_spec order 0) as [Hle Hmax].
  assert (Hin : ∀ d v, (d, v) ∈ order ↔ m !! d = Some v).
  { intros d v. by rewrite Hperm, elem_of_map_to_list. }
  split; [apply top_ge|]. split; [|split; [|split; [|split]]].
  - intros d v Hd. apply Hin in Hd. by apply Hle in Hd.
  - destruct Hmax as [Hz|([d v] & He & Hv)]; [by left|right].
    exists d. simpl in Hv. subst v. by apply Hin.
  - intros d. rewrite quorumDisksOf_select, select_disks, list_elem_of_fmap. split.
    + intros ([d' v] & -> & [Hv He]%list_elem_of_filter). simpl in *.
      subst v. by apply Hin.
    + intros Hd. exists (d, top 0 order). split; [done|].
      apply list_elem_of_filter. split; [done|by apply Hin].
  - rewrite quorumDisksOf_select, select_disks.
    eapply sublist_NoDup; [|apply fmap_sublist, sublist_filter].
    rewrite Hperm. apply NoDup_fst_map_to_list.
  - by apply ReadFile_quorum_errReadQuorum.
Qed.

Lemma sampleWorld_sentinel_free blockSize content size :
  sentinel_free (sampleWorld blockSize content size).
Proof.
  repeat split; try done. intros s. simpl.
  destruct (String.eqb s (pretty size)); [done|]. by destruct (String.eqb s "1").
Qed.

(** The theorem at work: disk 0 at version 1, disk 1 at version 0. *)
Lemma quorum_set_of_map_witness :
  (map_to_list ({[0%nat := 1; 1%nat := 0]} : gmap StorageAPI Z)
     ≡ₚ map_to_list ({[0%nat := 1; 1%nat := 0]} : gmap StorageAPI Z) ∧
   sentinel_free (sampleWorld fourMiB abc 3)) ∧
  ∃ V,
    0 <= V ∧
    (∀ d, d ∈ disk <$> quorumDisksOf
                 (map_to_list ({[0%nat := 1; 1%nat := 0]} : gmap StorageAPI Z))
          ↔ ({[0%nat := 1; 1%nat := 0]} : gmap StorageAPI Z) !! d = Some V).
Proof.
  pose proof (sampleWorld_sentinel_free fourMiB abc 3) as Hfree.
  assert (Hperm : map_to_list ({[0%nat := 1; 1%nat := 0]} : gmap StorageAPI Z)
     ≡ₚ map_to_list ({[0%nat := 1; 1%nat := 0]} : gmap StorageAPI Z)) by reflexivity.
  split; [done|].
  destruct (quorum_set_of_map (sampleWorld fourMiB abc 3) (sampleXL 2) "vol" "obj" 0
              {[0%nat := 1; 1%nat := 0]} _ Hperm Hfree)
    as (V & HV & _ & _ & Hset & _).
  exists V. split; [exact HV|exact Hset].
Defined.

(** The loop when every disk stands at a negative version: one backend
    that cannot be reached has version -1, which is the maximum [V*], so
    the set of the specification is that disk and has [readQuorum = 1]
    elements; the loop selects no disk and [ReadFile], from the quorum
    check on, fails with [errReadQuorum]. *)
Example all_negative_versions :
  spec_Vstar [(0%nat, -1)] = Some (-1) ∧
  spec_quorum_set [(0%nat, -1)] = [0%nat] ∧
  ¬ Z.of_nat (length (spec_quorum_set [(0%nat, -1)])) < readQuorum (sampleXL 1) ∧
  quorumDisksOf [(0%nat, -1)] = [] ∧
  ReadFile_quorum (sampleWorld fourMiB abc 3) (sampleXL 1) "vol" "obj" 0 (quorumDisksOf [(0%nat, -1)])
    = Ret (Err errReadQuorum).
Proof. repeat split; by vm_compute. Qed.

(** C2 fails on the code.  Two backends and a read quorum of 2; backend 0
    reports [file.version] 1, backend 1 has no [file.version] and reports
    0.  The quorum set of the claim is backend 0 alone, fewer than
    [readQuorum] disks, so the claim has [ReadFile] fail with
    [errReadQuorum]; the call takes the lock and panics instead, at the
    first assignment of the version probe to its nil map. *)
Lemma C2_quorum_failure_panics :
  storageDisks (sampleXL 2) = [0%nat; 1%nat] ∧
  spec_versions probeWorld (sampleXL 2) "vol" "obj" = [(0%nat, 1); (1%nat, 0)] ∧
  spec_Vstar (spec_versions probeWorld (sampleXL 2) "vol" "obj") = Some 1 ∧
  spec_quorum_set (spec_versions probeWorld (sampleXL 2) "vol" "obj") = [0%nat] ∧
  Z.of_nat (length (spec_quorum_set (spec_versions probeWorld (sampleXL 2) "vol" "obj")))
    < readQuorum (sampleXL 2) ∧
  ReadFile probeWorld (sampleXL 2) "vol" "obj" 0
    = ([lockNS "vol" "obj" true; unlockNS "vol" "obj" true], Panic NilMapWrite) ∧
  (ReadFile probeWorld (sampleXL 2) "vol" "obj" 0).2 ≠ Ret (Err errReadQuorum).
Proof.
  assert (Hversions : spec_versions probeWorld (sampleXL 2) "vol" "obj"
                      = [(0%nat, 1); (1%nat, 0)]) by (by vm_compute).
  rewrite Hversions.
  split; [done|]. split; [done|]. split; [by vm_compute|]. split; [by vm_compute|].
  split; [by vm_compute|]. split; [by vm_compute|]. by vm_compute.
Qed.

(** * Further properties of the read path *)

(** ** Block lengths *)

(** [checkBlockSize] gives the length of the first block that has one:
    either every block is nil or empty and the result is 0, or the blocks
    before some block are nil or empty and the result is the length of
    that block. *)
Theorem checkBlockSize_spec (blocks : list shard) :
  (checkBlockSize blocks = 0%nat ∧ Forall (λ b, shard_len b = 0%nat) blocks) ∨
  (∃ before block after,
     blocks = before ++ block :: after ∧
     Forall (λ b, shard_len b = 0%nat) before ∧
     shard_len block ≠ 0%nat ∧
     checkBlockSize blocks = shard_len block).
Proof.
  induction blocks as [|b rest IH]; simpl.
  - left. by split.
  - case_decide as Hb.
    + right. exists [], b, rest. by repeat split.
    + destruct IH as [[Hz Hall]|(before & block & after & -> & Hall & Hnz & Hlen)].
      * left. split; [done|]. constructor; [lia|done].
      * right. exists (b :: before), block, after. repeat split; try done.
        constructor; [lia|done].
Qed.

(** With a positive number of data blocks the encoded block length leaves
    a padding of less than [dataBlocks] bytes over the data blocks
    together, and none exactly when [dataBlocks] divides the input length. *)
Theorem getEncodedBlockLen_padding (inputLen dataBlocks : Z) :
  0 < dataBlocks → 0 <= inputLen → inputLen + dataBlocks < 2^63 →
  ∃ n, getEncodedBlockLen inputLen dataBlocks = Ret n ∧
       0 <= n * dataBlocks - inputLen < dataBlocks ∧
       (n * dataBlocks = inputLen ↔ (dataBlocks | inputLen)).
Proof.
  intros HD Hin Hbound.
  destruct (getEncodedBlockLen_ceil inputLen dataBlocks) as (n & Hn & Hn0 & Hceil);
    [done..|].
  exists n. split; [done|]. split; [lia|]. split.
  - intros <-. by exists n.
  - intros [k ->].
    assert (n - 1 < k) by (apply (Z.mul_lt_mono_pos_r dataBlocks); lia).
    assert (k <= n) by (apply (Z.mul_le_mono_pos_r _ _ dataBlocks); lia).
    f_equal. lia.
Qed.

Lemma getEncodedBlockLen_padding_witness :
  (0 < 4 ∧ 0 <= 10 ∧ 10 + 4 < 2^63) ∧
  ∃ n, getEncodedBlockLen 10 4 = Ret n ∧ 0 <= n * 4 - 10 < 4.
Proof.
  assert (H1 : 0 < 4) by lia.
  assert (H2 : 0 <= 10) by lia.
  assert (H3 : 10 + 4 < 2^63) by lia.
  split; [done|].
  destruct (getEncodedBlockLen_padding 10 4 H1 H2 H3) as (n & Hn & Hpad & _).
  exists n. by split.
Defined.

(** [getEncodedBlockLen] panics exactly when there is no data block. *)
Lemma getEncodedBlockLen_panics (inputLen dataBlocks : Z) :
  (∃ p, getEncodedBlockLen inputLen dataBlocks = Panic p) ↔ dataBlocks = 0.
Proof.
  unfold getEncodedBlockLen. case_decide; split; try done.
  - intros _. by eexists.
  - by intros [p ?].
Qed.

(** ** The metadata of a disk *)

Lemma store_keys_app kvs1 kvs2 (m : gmap string string) :
  store_keys (kvs1 ++ kvs2) m = store_keys kvs2 (store_keys kvs1 m).
Proof. unfold store_keys. apply foldl_app. Qed.

Lemma store_keys_absent (kvs : list (string * string)) (key : string) :
  ∀ m : gmap string string, key ∉ kvs.*1 → store_keys kvs m !! key = m !! key.
Proof.
  induction kvs as [|[k v] kvs IH]; intros m Hkey; [done|].
  apply not_elem_of_cons in Hkey as [Hne Hkey]. simpl in Hne.
  change (store_keys ((k, v) :: kvs) m) with (store_keys kvs (<[k:=v]> m)).
  rewrite IH by done. by apply lookup_insert_ne.
Qed.

(** What [getFileSize] makes of the metadata of a disk that opens: an
    error of the decoder is returned as it is; without the key
    [file.size] the missing-key error is returned; with it, the last value
    the decoder stored under the key is parsed, other keys being
    ignored. *)
Theorem getFileSize_metadata (W : World) (volume path : string) (d : StorageAPI)
    (r : Reader) (kvs : list (string * string)) (err : option error) :
  disk_ReadFile W d volume (slashpathJoin W path (metadataFile W)) 0 = Ok r →
  jsonDecode W r = (kvs, err) →
  (∀ e, err = Some e → getFileSize W volume path d = Err e) ∧
  (err = None → "file.size"%string ∉ kvs.*1 →
     getFileSize W volume path d = Err errMissingFileSize) ∧
  (∀ before s after,
     err = None → kvs = before ++ ("file.size"%string, s) :: after →
     "file.size"%string ∉ after.*1 →
     getFileSize W volume path d = ParseInt W s).
Proof.
  intros Hopen Hdec. unfold getFileSize. rewrite Hopen, Hdec.
  split; [by intros e ->|]. split.
  - intros -> Hkey. by rewrite store_keys_absent, lookup_empty.
  - intros before s after -> -> Hkey.
    rewrite store_keys_app.
    change (store_keys (("file.size"%string, s) :: after) (store_keys before ∅))
      with (store_keys after (<["file.size"%string:=s]> (store_keys before ∅))).
    by rewrite store_keys_absent, lookup_insert_eq.
Qed.

Lemma getFileSize_metadata_witness :
  (disk_ReadFile metadataOnlyWorld 0%nat "vol"
     (slashpathJoin metadataOnlyWorld "obj" (metadataFile metadataOnlyWorld)) 0
     = Ok (mkReader [] None 0) ∧
   jsonDecode metadataOnlyWorld (mkReader [] None 0)
     = ([("file.size", "3")]%string, None)) ∧
  getFileSize metadataOnlyWorld "vol" "obj" 0%nat = Ok 3.
Proof.
  assert (H1 : disk_ReadFile metadataOnlyWorld 0%nat "vol"
     (slashpathJoin metadataOnlyWorld "obj" (metadataFile metadataOnlyWorld)) 0
     = Ok (mkReader [] None 0)) by reflexivity.
  assert (H2 : jsonDecode metadataOnlyWorld (mkReader [] None 0)
     = ([("file.size", "3")]%string, None)) by reflexivity.
  split; [done|].
  destruct (getFileSize_metadata metadataOnlyWorld "vol" "obj" 0%nat _ _ _ H1 H2)
    as (_ & _ & Hlast).
  rewrite (Hlast [] "3"%string [] eq_refl eq_refl); [reflexivity|].
  apply not_elem_of_nil.
Defined.

(** ** ReadFile from end to end *)

(** [ReadFile] in closed form.  A bad volume or path name gives
    [errInvalidArgument] before the lock is touched.  Otherwise the lock
    is taken and given back, and the call fails: with a disk the version
    probe panics; without one the quorum set is empty, which is a quorum
    error for a positive [readQuorum] and an index panic otherwise. *)
Theorem ReadFile_outcomes (W : World) (xl : XL) (volume path : string) (offset : Z) :
  ReadFile W xl volume path offset =
    if negb (isValidVolname W volume && isValidPath W path)
    then ([], Ret (Err errInvalidArgument))
    else ([lockNS volume path true; unlockNS volume path true],
          match storageDisks xl with
          | [] => if decide (0 < readQuorum xl) then Ret (Err errReadQuorum)
                  else Panic IndexOutOfRange
          | _ :: _ => Panic NilMapWrite
          end).
Proof.
  unfold ReadFile.
  destruct (isValidVolname W volume); [|done].
  destruct (isValidPath W path); [|done]. simpl. f_equal.
  unfold getReadFileQuorumDisks.
  destruct (storageDisks xl) as [|d disks] eqn:Hdisks.
  - rewrite getMetaDataFileVersions_empty by done. simpl.
    unfold ReadFile_quorum. simpl. by repeat case_decide.
  - rewrite getMetaDataFileVersions_nonempty; [done|]. by rewrite Hdisks.
Qed.

(** ** How many failed opens the shard-open loop lets pass *)

(** When no part opens, the loop lets the first
    [len(quorumDisks) - readQuorum] failures pass (less those already
    counted) and returns the error of the next one; if there are no more
    parts than that, it gets through with [readers] as it was. *)
Theorem open_loop_tolerance (W : World) (xl : XL) (volume path : string) (offset : Z)
    (n : nat) (rest : list quorumDisk) (errs : list error) :
  Forall2 (λ qd err,
    disk_ReadFile W (disk qd) volume (slashpathJoin W path (partName (index qd))) offset
      = Err err) rest errs →
  ∀ readers readFileError i,
    0 <= readFileError → readFileError + Z.of_nat (length rest) < 2^63 →
    open_loop W xl volume path offset n rest readers readFileError i =
      match errs !! Z.to_nat (Z.max 0 (wrap64 (Z.of_nat n - readQuorum xl) - readFileError)) with
      | Some err => Ret (Err err)
      | None => Ret (Ok readers)
      end.
Proof.
  induction 1 as [|qd err rest errs Hopen Hrest IH]; intros readers readFileError i H0 Hmax.
  - done.
  - cbn [open_loop]. rewrite Hopen. simpl in Hmax. case_decide as Htol.
    + rewrite wrap64_small by lia. rewrite IH by lia.
      replace (Z.to_nat (Z.max 0 (wrap64 (Z.of_nat n - readQuorum xl) - readFileError)))
        with (S (Z.to_nat (Z.max 0 (wrap64 (Z.of_nat n - readQuorum xl) - (readFileError + 1)))))
        by lia.
      done.
    + by replace (Z.to_nat (Z.max 0 (wrap64 (Z.of_nat n - readQuorum xl) - readFileError)))
        with 0%nat by lia.
Qed.

Lemma open_loop_tolerance_witness :
  (Forall2 (λ qd err,
     disk_ReadFile metadataOnlyWorld (disk qd) "vol"
       (slashpathJoin metadataOnlyWorld "obj" (partName (index qd))) 0 = Err err)
     [mkQuorumDisk 0%nat 0%nat; mkQuorumDisk 1%nat 1%nat; mkQuorumDisk 2%nat 2%nat]
     [errDisk 2; errDisk 2; errDisk 2] ∧
   0 <= 0 ∧ 0 + Z.of_nat 3 < 2^63) ∧
  open_loop metadataOnlyWorld (sampleXL 2) "vol" "obj" 0 3
    [mkQuorumDisk 0%nat 0%nat; mkQuorumDisk 1%nat 1%nat; mkQuorumDisk 2%nat 2%nat] [] 0 0%nat
  = Ret (Err (errDisk 2)).
Proof.
  assert (H1 : Forall2 (λ qd err,
     disk_ReadFile metadataOnlyWorld (disk qd) "vol"
       (slashpathJoin metadataOnlyWorld "obj" (partName (index qd))) 0 = Err err)
     [mkQuorumDisk 0%nat 0%nat; mkQuorumDisk 1%nat 1%nat; mkQuorumDisk 2%nat 2%nat]
     [errDisk 2; errDisk 2; errDisk 2]) by (repeat constructor).
  assert (H2 : 0 <= 0) by lia.
  assert (H3 : 0 + Z.of_nat 3 < 2^63) by lia.
  split; [done|].
  rewrite (open_loop_tolerance metadataOnlyWorld (sampleXL 2) "vol" "obj" 0 3 _ _ H1
             [] 0 0%nat H2 H3).
  reflexivity.
Defined.

(** ** The part indices of the quorum disks *)

Lemma select_indices v (entries : list (StorageAPI * Z)) :
  ∀ i,
    StronglySorted lt (index <$> select v i entries) ∧
    Forall (λ k, (i ≤ k < i + length entries)%nat) (index <$> select v i entries) ∧
    (length (select v i entries) ≤ length entries)%nat.
Proof.
  induction entries as [|[d version] rest IH]; intros i; simpl.
  - repeat split; constructor.
  - destruct (IH (S i)) as (Hsorted & Hrange & Hlen).
    assert (Hrange' : Forall (λ k, (i ≤ k < i + S (length rest))%nat)
                        (index <$> select v (S i) rest)).
    { eapply Forall_impl; [exact Hrange|]. simpl. lia. }
    case_decide; [|repeat split; (done || lia)]. simpl. repeat split.
    + constructor; [done|]. eapply Forall_impl; [exact Hrange|]. simpl. lia.
    + constructor; [simpl; lia|done].
    + lia.
Qed.

(** The indices [getReadFileQuorumDisks] hands out strictly increase along
    the slice it returns and stay below the number of entries of the map:
    no two quorum disks are given the same part file, and there are no more
    quorum disks than entries. *)
Theorem quorum_indices_increasing (entries : list (StorageAPI * Z)) :
  StronglySorted lt (index <$> quorumDisksOf entries) ∧
  Forall (λ k, (k < length entries)%nat) (index <$> quorumDisksOf entries) ∧
  NoDup (index <$> quorumDisksOf entries) ∧
  (length (quorumDisksOf entries) ≤ length entries)%nat.
Proof.
  rewrite quorumDisksOf_select.
  destruct (select_indices (top 0 entries) entries 0%nat) as (Hsorted & Hrange & Hlen).
  split; [done|]. split; [|split; [|done]].
  - eapply Forall_impl; [exact Hrange|]. simpl. lia.
  - clear Hrange Hlen. induction Hsorted as [|k ks Hks IH Hlt]; constructor; [|done].
    intros Hin. rewrite Forall_forall in Hlt. specialize (Hlt k Hin). lia.
Qed.

(** ** The bounds of the block slice *)

Lemma read_loop_overflow (n : Z) (readers : list (option Reader)) :
  0 <= n →
  ∀ (index : nat) (enBlocks : list shard),
    (index ≤ length enBlocks < index + length readers)%nat →
    read_loop n index readers enBlocks = Panic IndexOutOfRange.
Proof.
  intros Hn. induction readers as [|reader rest IH]; intros index enBlocks Hlen;
    simpl in Hlen.
  { exfalso. lia. }
  destruct (decide (index < length enBlocks)%nat) as [Hi|Hi].
  - assert (Hrest : ∀ blk, read_loop n (S index) rest (<[index:=blk]> enBlocks)
                           = Panic IndexOutOfRange).
    { intros blk. apply IH. rewrite length_insert. lia. }
    destruct reader as [r|]; simpl.
    + rewrite decide_False by lia. rewrite decide_True by done.
      destruct (ReadFull r (Z.to_nat n)) as [[r' buf] err]; cbv beta iota.
      by rewrite Hrest.
    + rewrite decide_True by done. by rewrite Hrest.
  - destruct reader as [r|]; simpl.
    + rewrite decide_False by lia. by rewrite decide_False.
    + by rewrite decide_False.
Qed.

(** [enBlocks] has [totalBlocks] entries and the read loop writes entry
    [index] for the reader at [index]: with no more readers than
    [totalBlocks] the loop gets through, and the entries no reader stands
    for stay nil (they are the blocks [Reconstruct] has to rebuild); with
    more readers than [totalBlocks] the loop panics with an index out of
    range, and a negative [totalBlocks] panics in [make]. *)
Theorem readShards_bounds (curEncBlockSize totalBlocks : Z)
    (readers : list (option Reader)) :
  0 <= curEncBlockSize →
  (totalBlocks < 0 →
     readShards curEncBlockSize totalBlocks readers = Panic NegativeLen) ∧
  (0 <= totalBlocks < Z.of_nat (length readers) →
     readShards curEncBlockSize totalBlocks readers = Panic IndexOutOfRange) ∧
  (Z.of_nat (length readers) <= totalBlocks →
     ∃ enBlocks,
       readShards curEncBlockSize totalBlocks readers
         = Ret (reader_after (Z.to_nat curEncBlockSize) <$> readers, enBlocks) ∧
       length enBlocks = Z.to_nat totalBlocks ∧
       (∀ j reader, readers !! j = Some reader →
          enBlocks !! j = Some (block_of (Z.to_nat curEncBlockSize) reader)) ∧
       (∀ j, (length readers ≤ j < Z.to_nat totalBlocks)%nat →
          enBlocks !! j = Some None)).
Proof.
  intros Hn. unfold readShards. split; [|split].
  - intros Hneg. by rewrite decide_True.
  - intros Hover. rewrite decide_False by lia.
    apply read_loop_overflow; [done|]. rewrite length_replicate. lia.
  - intros Hlen. rewrite decide_False by lia.
    destruct (read_loop_spec curEncBlockSize readers Hn 0%nat
                (replicate (Z.to_nat totalBlocks) None))
      as (bl & Hrun & Hl & _ & Hhigh & Hat).
    { rewrite length_replicate. lia. }
    exists bl. split; [done|]. rewrite length_replicate in Hl.
    split; [done|]. split.
    + intros j reader Hj. by apply (Hat j).
    + intros j Hj. rewrite Hhigh by (simpl; lia).
      apply lookup_replicate_2. lia.
Qed.

Lemma readShards_bounds_witness :
  0 <= 2 ∧
  readShards 2 1 [Some (mkReader abc None 0); None] = Panic IndexOutOfRange ∧
  ∃ enBlocks,
    readShards 2 3 [Some (mkReader abc None 0)]
      = Ret ([Some (mkReader [Byte.x63] None 0)], enBlocks) ∧
    enBlocks !! 2%nat = Some None.
Proof.
  assert (H1 : 0 <= 2) by lia.
  split; [done|]. split.
  - destruct (readShards_bounds 2 1 [Some (mkReader abc None 0); None] H1)
      as (_ & Hover & _).
    apply Hover. simpl. lia.
  - destruct (readShards_bounds 2 3 [Some (mkReader abc None 0)] H1)
      as (_ & _ & Hfit).
    destruct Hfit as (bl & Hrun & _ & _ & Hnil); [simpl; lia|].
    exists bl. split; [exact Hrun|]. apply Hnil. simpl. lia.
Defined.

(** ** What the consumer can get *)

Lemma run_bounded W xl totalBlocks totalLeft readers pipe r :
  0 < erasureBlockSize W < 2^63 →
  Join_exact (ReedSolomon xl) →
  run W xl totalBlocks totalLeft readers pipe r →
  totalLeft < 2^63 →
  ∀ f, r = Ret f →
    ∃ new, chunks (pipe_after f) = chunks pipe ++ new ∧
      Z.of_nat (length (concat new)) <= Z.max 0 totalLeft.
Proof.
  intros HB Hjoin.
  run_induction;
    intros Hmax f Hf; try done.
  - destruct (close_readers readers); simplify_eq/=.
    exists []. rewrite app_nil_r. split; [done|simpl; lia].
  - simplify_eq/=. exists []. rewrite app_nil_r. split; [done|simpl; lia].
  - simplify_eq/=. apply pipeWrite_error in Hwrite as (_ & k & ->).
    apply decodeBlock_verified in Hdec as (blocks & _ & Hj). apply Hjoin in Hj.
    exists [take k out]. split; [done|].
    simpl. rewrite app_nil_r, length_take. case_decide; lia.
  - rewrite wrap64_small in IH by lia.
    destruct (IH ltac:(lia) f Hf) as (new & Hnew & Hsum).
    apply pipeWrite_ok in Hwrite. rewrite Hwrite, <- app_assoc in Hnew.
    apply decodeBlock_verified in Hdec as (blocks & _ & Hj). apply Hjoin in Hj.
    exists (out :: new). split; [done|].
    simpl. rewrite length_app. case_decide; lia.
Qed.

(** However the producer ends (clean close, a block that cannot be
    decoded, a consumer that hangs up), it has handed no more than
    [fileSize] bytes to the pipe, and nothing for an object of size zero or
    less.  [Join] is taken to write exactly the length it is given. *)
Theorem producer_never_overruns (W : World) (xl : XL) (s : Stream) (pipe : Pipe)
    (f : final) :
  0 < erasureBlockSize W < 2^63 →
  fileSize s < 2^63 →
  Join_exact (ReedSolomon xl) →
  producer W xl s pipe = Some (Ret f) →
  ∃ new, chunks (pipe_after f) = chunks pipe ++ new ∧
    Z.of_nat (length (concat new)) <= Z.max 0 (fileSize s).
Proof.
  intros HB Hsize Hjoin Hrun. unfold producer in Hrun.
  apply producer_loop_run in Hrun. by eapply run_bounded.
Qed.

(** The theorem at work: a consumer that hangs up after one byte of a
    3-byte object. *)
Lemma producer_never_overruns_witness :
  (0 < erasureBlockSize (sampleWorld fourMiB abc 3) < 2^63 ∧ 3 < 2^63 ∧
   Join_exact (ReedSolomon (sampleXL 2)) ∧
   producer (sampleWorld fourMiB abc 3) (sampleXL 2)
     (mkStream 3 [Some (mkReader abc None 0); Some (mkReader abc None 0)])
     (mkPipe [] (Some 1%nat))
   = Some (Ret (mkFinal (CloseWithError ErrClosedPipe)
        [Some (mkReader [] None 0); Some (mkReader [] None 0)]
        (mkPipe [[Byte.x61]] (Some 1%nat))))) ∧
  ∃ new, [[Byte.x61]] = [] ++ new ∧ Z.of_nat (length (concat new)) <= Z.max 0 3.
Proof.
  assert (H1 : 0 < erasureBlockSize (sampleWorld fourMiB abc 3) < 2^63)
    by (unfold fourMiB; simpl; lia).
  assert (H2 : 3 < 2^63) by lia.
  pose proof mirror_Join_exact as H3.
  assert (H4 : producer (sampleWorld fourMiB abc 3) (sampleXL 2)
     (mkStream 3 [Some (mkReader abc None 0); Some (mkReader abc None 0)])
     (mkPipe [] (Some 1%nat))
   = Some (Ret (mkFinal (CloseWithError ErrClosedPipe)
        [Some (mkReader [] None 0); Some (mkReader [] None 0)]
        (mkPipe [[Byte.x61]] (Some 1%nat))))) by (vm_compute; reflexivity).
  split; [done|].
  exact (producer_never_overruns (sampleWorld fourMiB abc 3) (sampleXL 2)
           (mkStream 3 [Some (mkReader abc None 0); Some (mkReader abc None 0)])
           (mkPipe [] (Some 1%nat)) _ H1 H2 H3 H4).
Defined.

(** ** The readers at the end of the producer *)

Lemma closes_of_is_Some (readers readers' : list (option Reader)) :
  closes_of readers' = closes_of readers →
  Forall is_Some readers' → Forall is_Some readers.
Proof.
  revert readers'. induction readers as [|r rest IH]; intros [|r' rest'] Heq Hall;
    try done.
  rewrite !closes_of_cons in Heq. injection Heq as Hr Hrest.
  apply Forall_cons in Hall as [Hsome Hall].
  constructor; [|by eapply IH].
  destruct r, r'; done.
Qed.

Lemma run_clean_no_nil W xl totalBlocks totalLeft readers pipe r :
  run W xl totalBlocks totalLeft readers pipe r →
  ∀ f, r = Ret f → how f = CleanClose → Forall is_Some readers.
Proof.
  run_induction;
    intros f Hf Hclean; try done; try by simplify_eq/=.
  - destruct (close_readers readers) as [rs|] eqn:Hclose; simplify_eq/=.
    by apply close_readers_closes in Hclose as [_ ?].
  - apply readShards_closes in Hread.
    eapply closes_of_is_Some; [exact Hread|]. by eapply IH.
Qed.

(** Who closes the shard readers, for every run of the producer that comes
    to its end without a panic: after a clean close each reader was closed
    once more than before and no entry of [readers] is nil; after a close
    with an error no reader was closed.  So with a nil entry in [readers]
    (which the read loop provides for) the producer cannot finish after a
    clean close: the loop of lines 726-728 calls [Close] on it. *)
Theorem producer_closes_readers (W : World) (xl : XL) (s : Stream) (pipe : Pipe)
    (f : final) :
  producer W xl s pipe = Some (Ret f) →
  match how f with
  | CleanClose =>
      Forall is_Some (readers s) ∧
      closes_of (readers_after f) = (λ c : option nat, S <$> c) <$> closes_of (readers s)
  | CloseWithError _ => closes_of (readers_after f) = closes_of (readers s)
  end.
Proof.
  intros Hrun. unfold producer in Hrun. apply producer_loop_run in Hrun.
  pose proof (run_closes _ _ _ _ _ _ _ Hrun f eq_refl) as Hcloses.
  pose proof (run_clean_no_nil _ _ _ _ _ _ _ Hrun f eq_refl) as Hnil.
  destruct (how f); [|done]. split; [by apply Hnil|done].
Qed.

Lemma producer_closes_readers_witness :
  producer (sampleWorld fourMiB abc 3) (sampleXL 2)
    (mkStream 3 [Some (mkReader abc None 0); Some (mkReader abc None 4)])
    (mkPipe [] None)
  = Some (Ret (mkFinal CleanClose
      [Some (mkReader [] None 1); Some (mkReader [] None 5)]
      (mkPipe [[Byte.x61; Byte.x62; Byte.x63]] None))) ∧
  closes_of [Some (mkReader [] None 1); Some (mkReader [] None 5)]
    = (λ c : option nat, S <$> c)
        <$> closes_of [Some (mkReader abc None 0); Some (mkReader abc None 4)].
Proof.
  assert (H1 : producer (sampleWorld fourMiB abc 3) (sampleXL 2)
    (mkStream 3 [Some (mkReader abc None 0); Some (mkReader abc None 4)])
    (mkPipe [] None)
  = Some (Ret (mkFinal CleanClose
      [Some (mkReader [] None 1); Some (mkReader [] None 5)]
      (mkPipe [[Byte.x61; Byte.x62; Byte.x63]] None)))) by (vm_compute; reflexivity).
  split; [done|].
  exact (proj2 (producer_closes_readers _ _ _ _ _ H1)).
Defined.

(** ** A stream without shard readers *)

Lemma checkBlockSize_replicate_nil (n : nat) : checkBlockSize (replicate n None) = 0%nat.
Proof.
  induction n as [|n IH]; [done|]. cbn [replicate checkBlockSize].
  destruct (decide (shard_len None ≠ 0%nat)) as [Hlen|_]; [by destruct Hlen|done].
Qed.

Lemma read_loop_all_nil (n : Z) (readers : list (option Reader)) :
  Forall (λ reader, reader = None) readers →
  ∀ (index k : nat),
    (index + length readers ≤ k)%nat →
    read_loop n index readers (replicate k None) = Ret (readers, replicate k None).
Proof.
  induction 1 as [|reader readers -> _ IH]; intros index k Hlen; cbn [read_loop].
  - done.
  - simpl in Hlen. rewrite decide_True by (rewrite length_replicate; lia).
    rewrite insert_replicate, IH by lia. done.
Qed.

(** A stream none of whose shard readers is there (every entry of
    [readers] is nil, or there is no entry at all) cannot deliver an
    object of positive size: every block of the first iteration stays nil,
    and the producer closes the pipe with the all-blocks-zero error
    without handing over a byte. *)
Theorem producer_without_shards_fails (W : World) (xl : XL) (s : Stream) (pipe : Pipe) :
  Forall (λ reader, reader = None) (readers s) →
  Z.of_nat (length (readers s)) <= wrap64 (DataBlocks xl + ParityBlocks xl) →
  0 < fileSize s → DataBlocks xl ≠ 0 →
  producer W xl s pipe
    = Some (Ret (mkFinal (CloseWithError errAllBlocksZero) (readers s) pipe)).
Proof.
  intros Hnil Hfit Hsize HD. unfold producer.
  destruct (Z.to_nat (fileSize s)) as [|fuel] eqn:Hfuel; [lia|].
  cbn [producer_loop]. rewrite decide_True by lia.
  unfold getEncodedBlockLen. rewrite decide_False by done.
  unfold readShards. rewrite decide_False by lia.
  rewrite read_loop_all_nil by (done || lia).
  unfold decodeBlock. by rewrite decide_True by apply checkBlockSize_replicate_nil.
Qed.

(** The theorem at work: a 3-byte object and the empty [readers] of line
    620, which is what the open loop hands on when no part opens. *)
Lemma producer_without_shards_fails_witness :
  (Forall (λ reader : option Reader, reader = None) (readers (mkStream 3 [])) ∧
   Z.of_nat (length (readers (mkStream 3 [])))
     <= wrap64 (DataBlocks (sampleXL 2) + ParityBlocks (sampleXL 2)) ∧
   0 < fileSize (mkStream 3 []) ∧ DataBlocks (sampleXL 2) ≠ 0) ∧
  producer (sampleWorld fourMiB abc 3) (sampleXL 2) (mkStream 3 []) (mkPipe [] None)
  = Some (Ret (mkFinal (CloseWithError errAllBlocksZero) [] (mkPipe [] None))).
Proof.
  assert (H1 : Forall (λ reader : option Reader, reader = None) (readers (mkStream 3 [])))
    by constructor.
  assert (H2 : Z.of_nat (length (readers (mkStream 3 [])))
               <= wrap64 (DataBlocks (sampleXL 2) + ParityBlocks (sampleXL 2)))
    by (vm_compute; discriminate).
  assert (H3 : 0 < fileSize (mkStream 3 [])) by (simpl; lia).
  assert (H4 : DataBlocks (sampleXL 2) ≠ 0) by (simpl; lia).
  split; [done|].
  exact (producer_without_shards_fails (sampleWorld fourMiB abc 3) (sampleXL 2)
           (mkStream 3 []) (mkPipe [] None) H1 H2 H3 H4).
Defined.

(** ** A positive read quorum and the open loop *)

Lemma open_loop_passes (W : World) (xl : XL) (volume path : string) (offset : Z)
    (n : nat) (rest : list quorumDisk) :
  ∀ readFileError i readers,
    0 <= readFileError → readFileError + Z.of_nat (length rest) < 2^63 →
    open_loop W xl volume path offset n rest [] readFileError i = Ret (Ok readers) →
    Z.of_nat (length rest)
      <= Z.max 0 (wrap64 (Z.of_nat n - readQuorum xl) - readFileError).
Proof.
  induction rest as [|qd rest IH]; intros readFileError i readers H0 Hmax; cbn [open_loop].
  - intros _. simpl. lia.
  - simpl in Hmax. destruct (disk_ReadFile W _ _ _ _) as [r|err]; [done|].
    case_decide as Htol; [|done].
    rewrite wrap64_small by lia. intros Hrest.
    apply IH in Hrest; [|lia..]. simpl length. lia.
Qed.

(** With a positive read quorum, [ReadFile] from the quorum check on
    never returns a stream, whatever the quorum disks and the backends: a
    part that opens makes the write to [readers] panic, and when no part
    opens the failures outnumber the [len(quorumDisks) - readQuorum] the
    loop lets pass. *)
Theorem ReadFile_quorum_never_streams (W : World) (xl : XL) (volume path : string)
    (offset : Z) (quorumDisks : list quorumDisk) (s : Stream) :
  0 < readQuorum xl < 2^63 →
  Z.of_nat (length quorumDisks) < 2^63 →
  ReadFile_quorum W xl volume path offset quorumDisks ≠ Ret (Ok s).
Proof.
  intros Hquorum Hlen. unfold ReadFile_quorum. case_decide as Hmet; [done|].
  destruct quorumDisks as [|first rest] eqn:Hdisks; [done|].
  destruct (getFileSize W volume path (disk first)) as [size|err]; [|done].
  destruct (open_loop W xl volume path offset (length (first :: rest)) (first :: rest)
              [] 0 0%nat) as [[opened|err]|] eqn:Hopen; simpl; try done.
  apply open_loop_passes in Hopen; [|lia..].
  rewrite wrap64_small in Hopen by lia. simpl length in *. lia.
Qed.

Lemma ReadFile_quorum_never_streams_witness :
  (0 < readQuorum (sampleXL 1) < 2^63 ∧
   Z.of_nat (length [mkQuorumDisk 0%nat 0%nat]) < 2^63) ∧
  ReadFile_quorum metadataOnlyWorld (sampleXL 1) "vol" "obj" 0 [mkQuorumDisk 0%nat 0%nat]
    ≠ Ret (Ok (mkStream 3 [])) ∧
  ReadFile_quorum metadataOnlyWorld (sampleXL 1) "vol" "obj" 0 [mkQuorumDisk 0%nat 0%nat]
    = Ret (Err (errDisk 2)).
Proof.
  assert (H1 : 0 < readQuorum (sampleXL 1) < 2^63) by (simpl; lia).
  assert (H2 : Z.of_nat (length [mkQuorumDisk 0%nat 0%nat]) < 2^63) by (simpl; lia).
  split; [done|]. split; [|by vm_compute].
  exact (ReadFile_quorum_never_streams metadataOnlyWorld (sampleXL 1) "vol" "obj" 0
           [mkQuorumDisk 0%nat 0%nat] (mkStream 3 []) H1 H2).
Defined.

(** ** The errors the consumer can see *)

Lemma decodeBlock_error (rs : Codec) (enBlocks : list shard) (n : Z) (err : error) :
  decodeBlock rs enBlocks n = Err err →
  err = errAllBlocksZero ∨ err = errVerifyAfterReconstruct ∨
  ∃ blocks, Verify rs blocks = Err err ∨ Reconstruct rs blocks = Err err ∨
            ∃ len, Join rs blocks len = Err err.
Proof.
  unfold decodeBlock. case_decide; [intros [= <-]; auto|].
  destruct (Verify rs enBlocks) as [[|]|e] eqn:Hv.
  - intros Hj. right. right. exists enBlocks. eauto.
  - destruct (Reconstruct rs enBlocks) as [rebuilt|e] eqn:Hr.
    + destruct (Verify rs rebuilt) as [[|]|e] eqn:Hv'.
      * intros Hj. right. right. exists rebuilt. eauto.
      * intros [= <-]. auto.
      * intros [= <-]. right. right. exists rebuilt. auto.
    + intros [= <-]. right. right. exists enBlocks. auto.
  - intros [= <-]. right. right. exists enBlocks. auto.
Qed.

Lemma run_error_origin W xl totalBlocks totalLeft readers pipe r :
  run W xl totalBlocks totalLeft readers pipe r →
  ∀ f err, r = Ret f → how f = CloseWithError err →
    err = errAllBlocksZero ∨ err = errVerifyAfterReconstruct ∨ err = ErrClosedPipe ∨
    ∃ blocks, Verify (ReedSolomon xl) blocks = Err err ∨
              Reconstruct (ReedSolomon xl) blocks = Err err ∨
              ∃ len, Join (ReedSolomon xl) blocks len = Err err.
Proof.
  run_induction;
    intros f e Hf Hhow; try done.
  - destruct (close_readers readers); simplify_eq/=.
  - simplify_eq/=. apply decodeBlock_error in Hdec as [->|[->|Hcodec]]; auto.
  - simplify_eq/=. apply pipeWrite_error in Hwrite as [-> _]. auto.
  - by eapply IH.
Qed.

(** The error the producer closes the pipe with is one of the two
    corruption errors, [io.ErrClosedPipe] of a write to a pipe the consumer
    has closed, or an error the codec returned from [Verify], [Reconstruct]
    or [Join].  The error of a shard read never gets to the consumer: a
    failed read only leaves a nil block behind. *)
Theorem producer_error_origin (W : World) (xl : XL) (s : Stream) (pipe : Pipe)
    (f : final) (err : error) :
  producer W xl s pipe = Some (Ret f) →
  how f = CloseWithError err →
  err = errAllBlocksZero ∨ err = errVerifyAfterReconstruct ∨ err = ErrClosedPipe ∨
  ∃ blocks, Verify (ReedSolomon xl) blocks = Err err ∨
            Reconstruct (ReedSolomon xl) blocks = Err err ∨
            ∃ len, Join (ReedSolomon xl) blocks len = Err err.
Proof.
  intros Hrun Hhow. unfold producer in Hrun. apply producer_loop_run in Hrun.
  by eapply run_error_origin.
Qed.

(** The theorem at work: both shard readers break down with a disk error
    at once; the consumer is told that all blocks are zero in length. *)
Lemma producer_error_origin_witness :
  producer (sampleWorld fourMiB abc 3) (sampleXL 2)
    (mkStream 3 [Some (mkReader [] (Some (errDisk 5)) 0);
                 Some (mkReader [] (Some (errDisk 5)) 0)])
    (mkPipe [] None)
  = Some (Ret (mkFinal (CloseWithError errAllBlocksZero)
      [Some (mkReader [] (Some (errDisk 5)) 0); Some (mkReader [] (Some (errDisk 5)) 0)]
      (mkPipe [] None))) ∧
  (errAllBlocksZero = errAllBlocksZero ∨ errAllBlocksZero = errVerifyAfterReconstruct ∨
   errAllBlocksZero = ErrClosedPipe ∨
   ∃ blocks, Verify (ReedSolomon (sampleXL 2)) blocks = Err errAllBlocksZero ∨
             Reconstruct (ReedSolomon (sampleXL 2)) blocks = Err errAllBlocksZero ∨
             ∃ len, Join (ReedSolomon (sampleXL 2)) blocks len = Err errAllBlocksZero).
Proof.
  assert (H1 : producer (sampleWorld fourMiB abc 3) (sampleXL 2)
    (mkStream 3 [Some (mkReader [] (Some (errDisk 5)) 0);
                 Some (mkReader [] (Some (errDisk 5)) 0)])
    (mkPipe [] None)
  = Some (Ret (mkFinal (CloseWithError errAllBlocksZero)
      [Some (mkReader [] (Some (errDisk 5)) 0); Some (mkReader [] (Some (errDisk 5)) 0)]
      (mkPipe [] None)))) by (vm_compute; reflexivity).
  split; [done|].
  exact (producer_error_origin _ _ _ _ _ _ H1 eq_refl).
Defined.

End XLProofs.

(** * Properties of the listing *)

Module FSProofs.
Import FS.

(** ** Substrings *)

Lemma prefix_spec (s1 : string) :
  ∀ s2, String.prefix s1 s2 = true ↔ ∃ rest, s2 = s1 +:+ rest.
Proof.
  induction s1 as [|a s1 IH]; intros s2.
  - split; [intros _; by exists s2 | by destruct s2].
  - destruct s2 as [|b s2]; simpl.
    + split; [done | by intros (rest & ?)].
    + destruct (Ascii.ascii_dec a b) as [->|Hne].
      * rewrite IH. split; intros (rest & Hr); exists rest;
          [by rewrite Hr | simpl in Hr; by injection Hr].
      * split; [done | intros (rest & Hr); simpl in Hr; by injection Hr].
Qed.

Lemma Contains_spec (substr s : string) :
  Contains s substr = true ↔ substring_of substr s.
Proof.
  split.
  - induction s as [|c s IH]; cbn [Contains]; rewrite orb_true_iff, prefix_spec.
    + intros [(rest & Hr)|?]; [|done]. by exists "", rest.
    + intros [(rest & Hr)|Hs].
      * by exists "", rest.
      * destruct (IH Hs) as (before & after & ->). by exists (String c before), after.
  - intros (before & after & ->). induction before as [|c before IH].
    + assert (Hp : String.prefix substr (substr +:+ after) = true)
        by (apply prefix_spec; by exists after).
      change ("" +:+ substr +:+ after) with (substr +:+ after).
      destruct (substr +:+ after); cbn [Contains]; by rewrite Hp.
    + change (String c before +:+ substr +:+ after)
        with (String c (before +:+ substr +:+ after)).
      cbn [Contains]. apply orb_true_iff. by right.
Qed.

Lemma reserved_false (name : string) :
  reserved name = false ↔
  ¬ substring_of "$multiparts" name ∧ ¬ substring_of "$tmpobject" name.
Proof.
  unfold reserved. rewrite orb_false_iff, <- !Contains_spec.
  by rewrite !not_true_iff_false.
Qed.

(** ** The loop *)

Lemma collect_done (ch : Walker) maxKeys i result nextMarker :
  ¬ i < maxKeys → collect ch maxKeys i result nextMarker = Filled result nextMarker ch.
Proof. intros Hi. destruct ch; simpl; by rewrite decide_False. Qed.

Lemma collect_closed (ch : Walker) maxKeys :
  maxKeys < 2^63 →
  ∀ i result nextMarker,
    0 <= i → Forall noError ch →
    i + Z.of_nat (length (filter visible ch)) < maxKeys →
    collect ch maxKeys i result nextMarker
      = ChannelClosed (foldl appendEntry result (filter visible ch)).
Proof.
  intros Hmax. induction ch as [|e ch IH]; intros i result nextMarker Hi Herr Hlen.
  - simpl in *. by rewrite decide_True by lia.
  - apply Forall_cons in Herr as [He Herr]. unfold noError in He.
    rewrite filter_cons in *. cbn [collect]. rewrite He.
    destruct (decide (visible e)) as [Hv|Hv].
    + simpl in Hlen. rewrite decide_True by lia. rewrite Hv.
      rewrite wrap64_small by lia. rewrite IH by (done || lia). done.
    + rewrite decide_True by lia.
      apply not_false_iff_true in Hv. rewrite Hv. by apply IH.
Qed.

Lemma collect_filled (pre : Walker) (last : ObjectInfo) (rest : Walker) maxKeys :
  maxKeys < 2^63 →
  noError last → visible last →
  ∀ i result nextMarker,
    0 <= i → Forall noError pre →
    i + Z.of_nat (length (filter visible pre)) + 1 = maxKeys →
    collect (pre ++ last :: rest) maxKeys i result nextMarker
      = Filled (foldl appendEntry result (filter visible pre ++ [last])) (Name last) rest.
Proof.
  intros Hmax Hlast Hvis.
  induction pre as [|e pre IH]; intros i result nextMarker Hi Herr Hlen.
  - simpl in *. rewrite decide_True by lia. rewrite Hlast, Hvis.
    rewrite wrap64_small by lia. by rewrite collect_done by lia.
  - apply Forall_cons in Herr as [He Herr]. unfold noError in He.
    rewrite filter_cons in *. cbn [collect app]. rewrite He.
    destruct (decide (visible e)) as [Hv|Hv].
    + simpl in Hlen. rewrite decide_True by lia. rewrite Hv.
      rewrite wrap64_small by lia. rewrite IH by (done || lia). done.
    + rewrite decide_True by lia.
      apply not_false_iff_true in Hv. rewrite Hv. by apply IH.
Qed.

Lemma collect_error (pre : Walker) (bad : ObjectInfo) (rest : Walker) maxKeys err :
  maxKeys < 2^63 →
  EntryErr bad = Some err →
  ∀ i result nextMarker,
    0 <= i → Forall noError pre →
    i + Z.of_nat (length (filter visible pre)) < maxKeys →
    collect (pre ++ bad :: rest) maxKeys i result nextMarker = EntryError err.
Proof.
  intros Hmax Hbad.
  induction pre as [|e pre IH]; intros i result nextMarker Hi Herr Hlen.
  - simpl in *. rewrite decide_True by lia. by rewrite Hbad.
  - apply Forall_cons in Herr as [He Herr]. unfold noError in He.
    rewrite filter_cons in *. cbn [collect app]. rewrite He.
    destruct (decide (visible e)) as [Hv|Hv].
    + simpl in Hlen. rewrite decide_True by lia. rewrite Hv.
      rewrite wrap64_small by lia. by rewrite IH by (done || lia).
    + rewrite decide_True by lia.
      apply not_false_iff_true in Hv. rewrite Hv. by apply IH.
Qed.

Lemma foldl_appendEntry (entries : list ObjectInfo) :
  ∀ result,
    Objects (foldl appendEntry result entries)
      = Objects result ++ filter (λ e, IsDir e = false) entries ∧
    Prefixes (foldl appendEntry result entries)
      = Prefixes result ++ (Name <$> filter (λ e, IsDir e = true) entries) ∧
    IsTruncated (foldl appendEntry result entries) = IsTruncated result ∧
    NextMarker (foldl appendEntry result entries) = NextMarker result.
Proof.
  induction entries as [|e entries IH]; intros result; simpl.
  - by rewrite !app_nil_r.
  - destruct (IH (appendEntry result e)) as (-> & -> & -> & ->).
    rewrite !filter_cons. unfold appendEntry.
    destruct (IsDir e); simpl; by rewrite <- !app_assoc.
Qed.

(** Leaving out the entries the loop skips changes nothing but the rest
    of the walker. *)
Lemma collect_kept (ch : Walker) maxKeys :
  ∀ i result nextMarker,
    collect (filter kept ch) maxKeys i result nextMarker
      = map_rest (filter kept) (collect ch maxKeys i result nextMarker).
Proof.
  induction ch as [|e ch IH]; intros i result nextMarker.
  - simpl. by case_decide.
  - destruct (decide (i < maxKeys)) as [Hi|Hi]; [|by rewrite !collect_done by done].
    rewrite filter_cons.
    cbn [collect]. rewrite (decide_True (P := i < maxKeys)) by done.
    destruct (EntryErr e) as [err|] eqn:He.
    + rewrite decide_True by (unfold kept; left; congruence). cbn [collect].
      rewrite decide_True by done. by rewrite He.
    + destruct (reserved (Name e)) eqn:Hres.
      * rewrite decide_False by (unfold kept, visible; intros [?|?]; congruence).
        apply IH.
      * rewrite decide_True by (by right). cbn [collect].
        rewrite decide_True by done. rewrite He, Hres. apply IH.
Qed.

Lemma result_names_appendEntry (result : ListObjectsResult) (e : ObjectInfo) (P : string → Prop) :
  Forall P (result_names (appendEntry result e))
  ↔ Forall P (result_names result) ∧ P (Name e).
Proof.
  unfold result_names, appendEntry. destruct (IsDir e); simpl;
    rewrite ?fmap_app, !Forall_app, ?Forall_singleton; simpl;
    rewrite ?Forall_singleton; tauto.
Qed.

(** The loop lists visible names only and its marker is a visible name. *)
Lemma collect_names (ch : Walker) maxKeys :
  ∀ i result nextMarker,
    Forall (λ name, reserved name = false) (result_names result) →
    reserved nextMarker = false →
    match collect ch maxKeys i result nextMarker with
    | ChannelClosed result' =>
        Forall (λ name, reserved name = false) (result_names result')
    | Filled result' nextMarker' _ =>
        Forall (λ name, reserved name = false) (result_names result') ∧
        reserved nextMarker' = false
    | EntryError _ => True
    end.
Proof.
  induction ch as [|e ch IH]; intros i result nextMarker Hres Hnm; simpl.
  - by case_decide.
  - case_decide; [|done]. destruct (EntryErr e); [done|].
    destruct (reserved (Name e)) eqn:He; [by apply IH|].
    apply IH; [|done]. by apply result_names_appendEntry.
Qed.

(** The loop leaves the [IsTruncated] and [NextMarker] fields alone. *)
Lemma collect_closed_marker (ch : Walker) maxKeys :
  ∀ i result nextMarker,
    match collect ch maxKeys i result nextMarker with
    | ChannelClosed result' | Filled result' _ _ =>
        NextMarker result' = NextMarker result ∧ IsTruncated result' = IsTruncated result
    | EntryError _ => True
    end.
Proof.
  induction ch as [|e ch IH]; intros i result nextMarker; simpl.
  - by case_decide.
  - case_decide; [|done]. destruct (EntryErr e); [done|].
    destruct (reserved (Name e)); [apply IH|].
    specialize (IH (wrap64 (i + 1)) (appendEntry result e) (Name e)).
    destruct (collect ch maxKeys _ _ _); try done;
      unfold appendEntry in IH; by destruct (IsDir e).
Qed.

Section listing.
Context {Cache : Type} (D : Deps Cache).

(** Every early return of the preamble returns the empty result. *)
Lemma preamble_return bucket prefix marker delimiter maxKeys r :
  preamble D bucket prefix marker delimiter maxKeys = Return r → r.1 = emptyResult.
Proof.
  unfold preamble, isDirExist.
  repeat (case_match; simpl; try by intros [= <-]).
Qed.

Lemma ListObjects_go bucket prefix marker delimiter maxKeys cache b mk n ch cache1 :
  preamble D bucket prefix marker delimiter maxKeys = Go (b, mk, n) →
  takeWalker D b prefix mk delimiter cache = (ch, cache1) →
  ListObjects D bucket prefix marker delimiter maxKeys cache =
    match collect ch n 0 emptyResult "" with
    | ChannelClosed result => (result, None, cache1)
    | EntryError err => (emptyResult, Some err, cache1)
    | Filled result nextMarker rest =>
        (mkResult (Objects result) (Prefixes result) true nextMarker, None,
         pushListObjectCh D (mkParams b delimiter nextMarker prefix) rest cache1)
    end.
Proof. intros Hpre Htake. unfold ListObjects. by rewrite Hpre, Htake. Qed.

End listing.

(** C8, as amended: a call that gets past the preamble with bucket [b],
    marker [mk] and limit [n] and takes the walker [ch] ends in one of
    three ways.  If the walker runs out, free of errors, with fewer than
    [n] visible entries, the result lists them all, is not truncated, and
    nothing is parked.  If the [n]-th visible entry [last] is received
    with no error before it, the result is truncated, its [NextMarker] is
    the name of [last], be it an object or a prefix, and the rest of the
    walker is parked under the parameters with that marker.  If an entry
    with an error is received before that, the call fails with the error
    and the empty result, and nothing is parked. *)
Theorem C8_truncation_and_marker {Cache : Type} (D : Deps Cache)
    (bucket prefix marker delimiter : string) (maxKeys : Z) (cache : Cache)
    (b mk : string) (n : Z) (ch : Walker) (cache1 : Cache) :
  preamble D bucket prefix marker delimiter maxKeys = Go (b, mk, n) →
  takeWalker D b prefix mk delimiter cache = (ch, cache1) →
  n < 2^63 →
  (Forall noError ch → Z.of_nat (length (filter visible ch)) < n →
     ∃ result,
       ListObjects D bucket prefix marker delimiter maxKeys cache = (result, None, cache1) ∧
       IsTruncated result = false ∧
       Objects result = filter (λ e, IsDir e = false) (filter visible ch) ∧
       Prefixes result = Name <$> filter (λ e, IsDir e = true) (filter visible ch)) ∧
  (∀ pre last rest,
     ch = pre ++ last :: rest →
     Forall noError pre → noError last → visible last →
     Z.of_nat (length (filter visible pre)) + 1 = n →
     ∃ result,
       ListObjects D bucket prefix marker delimiter maxKeys cache
         = (result, None,
            pushListObjectCh D (mkParams b delimiter (Name last) prefix) rest cache1) ∧
       IsTruncated result = true ∧
       NextMarker result = Name last ∧
       Objects result = filter (λ e, IsDir e = false) (filter visible pre ++ [last]) ∧
       Prefixes result = Name <$> filter (λ e, IsDir e = true) (filter visible pre ++ [last])) ∧
  (∀ pre bad rest err,
     ch = pre ++ bad :: rest →
     Forall noError pre → EntryErr bad = Some err →
     Z.of_nat (length (filter visible pre)) < n →
     ListObjects D bucket prefix marker delimiter maxKeys cache
       = (emptyResult, Some err, cache1)).
Proof.
  intros Hpre Htake Hn.
  rewrite (ListObjects_go D _ _ _ _ _ _ _ _ _ _ _ Hpre Htake).
  split; [|split].
  - intros Herr Hlen. rewrite collect_closed by (done || lia).
    eexists. split; [done|].
    destruct (foldl_appendEntry (filter visible ch) emptyResult) as (-> & -> & -> & _).
    done.
  - intros pre last rest -> Herr Hlast Hvis Hlen.
    rewrite (collect_filled pre last rest n) by (done || lia).
    eexists. split; [done|].
    destruct (foldl_appendEntry (filter visible pre ++ [last]) emptyResult)
      as (-> & -> & _).
    done.
  - intros pre bad rest err -> Herr Hbad Hlen.
    by rewrite (collect_error pre bad rest n err) by (done || lia).
Qed.

(** The theorem at work: the prefix [p/] and the object [s], one key asked
    for. *)
Lemma C8_truncation_and_marker_witness :
  (preamble (sampleDeps [dir "p/"; file "s"]) "bucket" "" "" "/" 1 = Go ("bucket", "", 1) ∧
   takeWalker (sampleDeps [dir "p/"; file "s"]) "bucket" "" "" "/" []
     = ([dir "p/"; file "s"], []) ∧
   1 < 2^63) ∧
  ∃ result,
    ListObjects (sampleDeps [dir "p/"; file "s"]) "bucket" "" "" "/" 1 []
      = (result, None, [(mkParams "bucket" "/" "p/" "", [file "s"])]) ∧
    IsTruncated result = true ∧
    NextMarker result = "p/"%string ∧
    Prefixes result = ["p/"%string].
Proof.
  assert (H1 : preamble (sampleDeps [dir "p/"; file "s"]) "bucket" "" "" "/" 1
               = Go ("bucket"%string, ""%string, 1)) by reflexivity.
  assert (H2 : takeWalker (sampleDeps [dir "p/"; file "s"]) "bucket" "" "" "/" []
               = ([dir "p/"; file "s"], [])) by reflexivity.
  assert (H3 : 1 < 2^63) by lia.
  split; [done|].
  destruct (C8_truncation_and_marker (sampleDeps [dir "p/"; file "s"])
              "bucket" "" "" "/" 1 [] "bucket" "" 1 _ _ H1 H2 H3) as (_ & Hfull & _).
  destruct (Hfull [] (dir "p/") [file "s"] eq_refl (Forall_nil_2 _) eq_refl eq_refl eq_refl)
    as (result & Hcall & Htrunc & Hmarker & _ & Hprefixes).
  exists result. split; [exact Hcall|]. split; [exact Htrunc|].
  split; [exact Hmarker|exact Hprefixes].
Defined.

(** C8 as stated fails when the walker delivers an entry with an error:
    here the walker is not exhausted (the object [a] is still to come, and
    one entry is all the call asks for), yet the result is not truncated,
    has no marker, and no walker is parked. *)
Lemma C8_error_entry :
  takeWalker (sampleDeps [failing 7; file "a"]) "bucket" "" "" "" []
    = ([failing 7; file "a"], []) ∧
  ListObjects (sampleDeps [failing 7; file "a"]) "bucket" "" "" "" 1 []
    = (emptyResult, Some (WalkError 7), []) ∧
  IsTruncated emptyResult = false.
Proof. by vm_compute. Qed.

(** Keys [p/q], [p/r] and [s] listed with delimiter [/], one key per
    call: the first call gives the prefix [p/] and parks the walker under
    the marker [p/]; the second takes it from there and gives [s], which
    fills its one key. *)
Example listing_in_two_calls :
  ListObjects (sampleDeps [dir "p/"; file "s"]) "bucket" "" "" "/" 1 []
    = (mkResult [] ["p/"%string] true "p/", None,
       [(mkParams "bucket" "/" "p/" "", [file "s"])]) ∧
  ListObjects (sampleDeps []) "bucket" "" "p/" "/" 1
      [(mkParams "bucket" "/" "p/" "", [file "s"])]
    = (mkResult [file "s"] [] true "s", None, [(mkParams "bucket" "/" "s" "", [])]).
Proof. by vm_compute. Qed.

(** C9: whatever the call, no name among the objects and prefixes of the
    result, nor its marker, has [$multiparts] or [$tmpobject] as a
    substring; and the loop runs as if the walker did not hold the entries
    with such names at all: they add nothing to the result, to the count
    against [maxKeys] or to the marker. *)
Theorem C9_reserved_names_skipped {Cache : Type} (D : Deps Cache)
    (bucket prefix marker delimiter : string) (maxKeys : Z) (cache : Cache) :
  let result := (ListObjects D bucket prefix marker delimiter maxKeys cache).1.1 in
  Forall (λ name, ¬ substring_of "$multiparts" name ∧ ¬ substring_of "$tmpobject" name)
    (result_names result) ∧
  (¬ substring_of "$multiparts" (NextMarker result) ∧
   ¬ substring_of "$tmpobject" (NextMarker result)) ∧
  ∀ (ch : Walker) n i acc nextMarker,
    collect (filter kept ch) n i acc nextMarker
      = map_rest (filter kept) (collect ch n i acc nextMarker).
Proof.
  cbv zeta. split; [|split; [|intros; apply collect_kept]].
  - eapply Forall_impl; [|intros name; apply reserved_false].
    unfold ListObjects.
    destruct (preamble D bucket prefix marker delimiter maxKeys) as [[[b mk] n]|r] eqn:Hpre.
    + destruct (takeWalker D b prefix mk delimiter cache) as [ch cache1].
      pose proof (collect_names ch n 0 emptyResult "" (Forall_nil_2 _) eq_refl) as Hnames.
      destruct (collect ch n 0 emptyResult ""); simpl; [done|by constructor|].
      by destruct Hnames.
    + apply preamble_return in Hpre. simpl. rewrite Hpre. by constructor.
  - apply reserved_false. unfold ListObjects.
    destruct (preamble D bucket prefix marker delimiter maxKeys) as [[[b mk] n]|r] eqn:Hpre.
    + destruct (takeWalker D b prefix mk delimiter cache) as [ch cache1].
      pose proof (collect_names ch n 0 emptyResult "" (Forall_nil_2 _) eq_refl) as Hnames.
      pose proof (collect_closed_marker ch n 0 emptyResult "") as Hmarker.
      destruct (collect ch n 0 emptyResult ""); simpl; [|done|by destruct Hnames].
      by destruct Hmarker as [-> _].
    + apply preamble_return in Hpre. simpl. by rewrite Hpre.
Qed.

(** * Further properties of the listing *)

(** ** When a call gets to list *)

Section listing_more.
Context {Cache : Type} (D : Deps Cache).

Lemma preamble_go_iff bucket prefix marker delimiter maxKeys b mk n :
  preamble D bucket prefix marker delimiter maxKeys = Go (b, mk, n) ↔
  IsValidBucketName D bucket = true ∧
  b = denormalizeBucket D bucket ∧
  Lstat D (filepathJoin D (fs_path D) b) = inr true ∧
  IsValidObjectPrefix D prefix = true ∧
  (delimiter = "" ∨ delimiter = "/")%string ∧
  (marker = ""%string ∧ mk = ""%string ∨
   marker ≠ ""%string ∧ QueryUnescape D marker = inr mk ∧ HasPrefix mk prefix = true) ∧
  maxKeys ≠ 0 ∧
  n = effectiveMaxKeys D maxKeys ∧
  (∃ isDir, Lstat D (filepathJoin D (filepathJoin D (fs_path D) b)
                       (filepathDir D (filepathFromSlash D prefix))) = inr isDir).
Proof.
  unfold preamble, isDirExist, effectiveMaxKeys. split.
  - destruct (IsValidBucketName D bucket) eqn:Hb; simpl; [|done].
    destruct (Lstat D (filepathJoin D (fs_path D) (denormalizeBucket D bucket)))
      as [err|[|]] eqn:Hdir; simpl;
      [by destruct (IsNotExist D err)| |done].
    destruct (IsValidObjectPrefix D prefix) eqn:Hp; simpl; [|done].
    assert (Hdelim : negb (String.eqb delimiter "") && negb (String.eqb delimiter "/") = false
                     → (delimiter = "" ∨ delimiter = "/")%string).
    { destruct (String.eqb_spec delimiter ""); [by left|].
      destruct (String.eqb_spec delimiter "/"); [by right|done]. }
    destruct (negb (String.eqb delimiter "") && negb (String.eqb delimiter "/")) eqn:Hd;
      simpl; [done|].
    specialize (Hdelim eq_refl).
    destruct (String.eqb_spec marker "") as [Hm|Hm]; simpl.
    + destruct (decide (maxKeys = 0)) as [Hz|Hz]; simpl; [done|].
      destruct (Lstat D (filepathJoin D _ (filepathDir D _))) as [err|isDir] eqn:Hroot; simpl;
        [by destruct (IsNotExist D err)|].
      intros [= <- <- <-]. rewrite Hdir. repeat split; eauto.
    + destruct (QueryUnescape D marker) as [err|unescaped] eqn:Hq; simpl; [done|].
      destruct (HasPrefix unescaped prefix) eqn:Hpre; simpl; [|done].
      destruct (decide (maxKeys = 0)) as [Hz|Hz]; simpl; [done|].
      destruct (Lstat D (filepathJoin D _ (filepathDir D _))) as [err|isDir] eqn:Hroot; simpl;
        [by destruct (IsNotExist D err)|].
      intros [= <- <- <-]. rewrite Hdir. repeat split; eauto.
  - intros (Hb & -> & Hdir & Hp & Hd & Hm & Hz & -> & isDir & Hroot).
    rewrite Hb, Hdir, Hp. simpl.
    assert ((negb (String.eqb delimiter "") && negb (String.eqb delimiter "/")) = false)
      as -> by (by destruct Hd as [->| ->]).
    simpl. destruct Hm as [[-> ->]|(Hm & Hq & Hpre)].
    + cbn [negb String.eqb mbind flow_bind]. rewrite (decide_False (P := maxKeys = 0)) by done.
      simpl. by rewrite Hroot.
    + apply String.eqb_neq in Hm. rewrite Hm. simpl. rewrite Hq, Hpre.
      cbn [negb mbind flow_bind]. rewrite (decide_False (P := maxKeys = 0)) by done.
      simpl. by rewrite Hroot.
Qed.

End listing_more.

(** ** How many entries a result holds *)

Lemma length_result_names_appendEntry (result : ListObjectsResult) (e : ObjectInfo) :
  length (result_names (appendEntry result e)) = S (length (result_names result)).
Proof.
  unfold result_names, appendEntry. destruct (IsDir e); simpl;
    rewrite ?fmap_app, !length_app; simpl; lia.
Qed.

Lemma elem_of_result_names_appendEntry (result : ListObjectsResult) (e : ObjectInfo)
    (name : string) :
  name ∈ result_names (appendEntry result e)
  ↔ name ∈ result_names result ∨ name = Name e.
Proof.
  unfold result_names, appendEntry. destruct (IsDir e); simpl;
    rewrite ?fmap_app, !elem_of_app; simpl; rewrite ?list_elem_of_singleton; tauto.
Qed.

(** The loop counts what it appends: a result that fills the limit holds
    as many new entries as the limit leaves room for, a result the channel
    closes on holds fewer, and the marker is a name the result lists. *)
Lemma collect_count (ch : Walker) maxKeys :
  maxKeys < 2^63 →
  ∀ i result nextMarker,
    0 <= i →
    match collect ch maxKeys i result nextMarker with
    | ChannelClosed result' =>
        Z.of_nat (length (result_names result')) + i
          < Z.of_nat (length (result_names result)) + maxKeys
    | Filled result' nextMarker' _ =>
        Z.of_nat (length (result_names result'))
          = Z.of_nat (length (result_names result)) + Z.max 0 (maxKeys - i) ∧
        (i < maxKeys ∨ nextMarker ∈ result_names result →
           nextMarker' ∈ result_names result')
    | EntryError _ => True
    end.
Proof.
  intros Hmax. induction ch as [|e ch IH]; intros i result nextMarker Hi; cbn [collect].
  - destruct (decide (i < maxKeys)); [lia|]. split; [lia|]. intros [?|?]; [lia|done].
  - destruct (decide (i < maxKeys)) as [Hlt|Hlt]; [|split; [lia|intros [?|?]; [lia|done]]].
    destruct (EntryErr e); [done|].
    destruct (reserved (Name e)).
    + specialize (IH i result nextMarker Hi).
      destruct (collect ch maxKeys i result nextMarker); [done|done|].
      destruct IH as [Hcount Hmarker]. split; [done|]. intros _. apply Hmarker. by left.
    + rewrite wrap64_small by lia.
      specialize (IH (i + 1) (appendEntry result e) (Name e) ltac:(lia)).
      rewrite length_result_names_appendEntry in IH.
      destruct (collect ch maxKeys (i + 1) (appendEntry result e) (Name e)); [lia|done|].
      destruct IH as [Hcount Hmarker]. split; [lia|]. intros _. apply Hmarker.
      right. apply elem_of_result_names_appendEntry. by right.
Qed.

(** The shape of what [ListObjects] returns, whatever the call, for a
    positive [listObjectsLimit].  With an error the result is empty.  The
    result never lists more names (objects and prefixes together) than the
    limit in force: [maxKeys], or [listObjectsLimit] when [maxKeys] is
    negative or larger.  A truncated result comes without an error, lists
    exactly that many names, and its [NextMarker] is one of them; a result
    that is not truncated has no [NextMarker]. *)
Theorem ListObjects_result_shape {Cache : Type} (D : Deps Cache)
    (bucket prefix marker delimiter : string) (maxKeys : Z) (cache : Cache) :
  0 < listObjectsLimit D < 2^63 →
  let result := (ListObjects D bucket prefix marker delimiter maxKeys cache).1.1 in
  let err := (ListObjects D bucket prefix marker delimiter maxKeys cache).1.2 in
  let count := Z.of_nat (length (result_names result)) in
  (err ≠ None → result = emptyResult) ∧
  count <= effectiveMaxKeys D maxKeys ∧
  (IsTruncated result = true →
     err = None ∧ count = effectiveMaxKeys D maxKeys ∧
     NextMarker result ∈ result_names result) ∧
  (IsTruncated result = false → NextMarker result = ""%string).
Proof.
  intros Hlimit. cbv zeta.
  assert (Hn : 0 <= effectiveMaxKeys D maxKeys < 2^63)
    by (unfold effectiveMaxKeys; case_decide; lia).
  unfold ListObjects.
  destruct (preamble D bucket prefix marker delimiter maxKeys) as [[[b mk] n]|r] eqn:Hpre.
  - apply preamble_go_iff in Hpre as (_ & _ & _ & _ & _ & _ & Hz & -> & _).
    assert (Hpos : 0 < effectiveMaxKeys D maxKeys)
      by (unfold effectiveMaxKeys; case_decide; lia).
    destruct (takeWalker D b prefix mk delimiter cache) as [ch cache1].
    pose proof (collect_count ch (effectiveMaxKeys D maxKeys) ltac:(lia) 0 emptyResult ""
                  ltac:(lia)) as Hcount.
    pose proof (collect_closed_marker ch (effectiveMaxKeys D maxKeys) 0 emptyResult "")
      as Hfields.
    destruct (collect ch (effectiveMaxKeys D maxKeys) 0 emptyResult "")
      as [result|err|result nextMarker rest]; simpl in *.
    + destruct Hfields as [Hmarker Htrunc].
      split; [done|]. split; [lia|]. split; [congruence|done].
    + split; [done|]. split; [lia|]. split; done.
    + destruct Hcount as [Hcount Hmarker].
      split; [done|]. split; [unfold result_names in *; simpl; lia|]. split; [|done].
      intros _. split; [done|]. split; [unfold result_names in *; simpl; lia|].
      apply Hmarker. left. lia.
  - apply preamble_return in Hpre. destruct r as [result err]. simpl in *. subst result.
    simpl. split; [done|]. split; [lia|]. split; done.
Qed.

Lemma ListObjects_result_shape_witness :
  0 < listObjectsLimit (sampleDeps [dir "p/"; file "s"]) < 2^63 ∧
  (IsTruncated (ListObjects (sampleDeps [dir "p/"; file "s"]) "bucket" "" "" "/" 1 []).1.1
     = true →
   NextMarker (ListObjects (sampleDeps [dir "p/"; file "s"]) "bucket" "" "" "/" 1 []).1.1
     ∈ ["p/"%string]).
Proof.
  assert (H1 : 0 < listObjectsLimit (sampleDeps [dir "p/"; file "s"]) < 2^63)
    by (simpl; lia).
  split; [done|].
  destruct (ListObjects_result_shape (sampleDeps [dir "p/"; file "s"])
              "bucket" "" "" "/" 1 [] H1) as (_ & _ & Htrunc & _).
  intros Ht. exact (proj2 (proj2 (Htrunc Ht))).
Defined.

(** ** What a call does to the cache of walkers *)

Lemma takeWalker_cache {Cache : Type} (D : Deps Cache) b prefix mk delimiter (cache : Cache) :
  (takeWalker D b prefix mk delimiter cache).2
    = (popListObjectCh D (mkParams b delimiter mk prefix) cache).2.
Proof.
  unfold takeWalker.
  destruct (popListObjectCh D (mkParams b delimiter mk prefix) cache) as [[ch|] cache1]; done.
Qed.

(** A walker is parked exactly when the result is truncated, and then
    under the bucket, delimiter and prefix of the call with the
    [NextMarker] of the result as marker: the key a follow-up call with
    that marker looks up.  Any other call leaves the cache as it was, or as
    the [Pop] of its own key left it. *)
Theorem ListObjects_parks_iff_truncated {Cache : Type} (D : Deps Cache)
    (bucket prefix marker delimiter : string) (maxKeys : Z) (cache : Cache) :
  let out := ListObjects D bucket prefix marker delimiter maxKeys cache in
  let b := denormalizeBucket D bucket in
  if IsTruncated out.1.1 then
    ∃ mk rest,
      (marker = ""%string ∧ mk = ""%string ∨ QueryUnescape D marker = inr mk) ∧
      out.2 = pushListObjectCh D (mkParams b delimiter (NextMarker out.1.1) prefix) rest
                (popListObjectCh D (mkParams b delimiter mk prefix) cache).2
  else
    out.2 = cache ∨
    ∃ mk,
      (marker = ""%string ∧ mk = ""%string ∨ QueryUnescape D marker = inr mk) ∧
      out.2 = (popListObjectCh D (mkParams b delimiter mk prefix) cache).2.
Proof.
  cbv zeta. unfold ListObjects.
  destruct (preamble D bucket prefix marker delimiter maxKeys) as [[[b mk] n]|r] eqn:Hpre.
  - apply preamble_go_iff in Hpre as (_ & -> & _ & _ & _ & Hmk & _).
    assert (Hmk' : marker = ""%string ∧ mk = ""%string ∨ QueryUnescape D marker = inr mk)
      by (destruct Hmk as [?|(_ & ? & _)]; auto).
    pose proof (takeWalker_cache D (denormalizeBucket D bucket) prefix mk delimiter cache)
      as Hcache.
    destruct (takeWalker D (denormalizeBucket D bucket) prefix mk delimiter cache)
      as [ch cache1]. simpl in Hcache. subst cache1.
    pose proof (collect_closed_marker ch n 0 emptyResult "") as Hfields.
    destruct (collect ch n 0 emptyResult "") as [result|err|result nextMarker rest]; simpl.
    + destruct Hfields as [_ ->]. simpl. right. eauto.
    + right. eauto.
    + eauto.
  - apply preamble_return in Hpre. destruct r as [result err]. simpl in *. subst result.
    simpl. by left.
Qed.

(** ** What is never listed *)

(** A call lists a name only if the bucket name and the prefix are
    valid, the bucket directory is there, the delimiter is empty or [/],
    the marker (after unescaping) starts with the prefix, and [maxKeys] is
    not zero. *)
Theorem ListObjects_lists_only_valid {Cache : Type} (D : Deps Cache)
    (bucket prefix marker delimiter : string) (maxKeys : Z) (cache : Cache) :
  result_names (ListObjects D bucket prefix marker delimiter maxKeys cache).1.1 ≠ [] →
  IsValidBucketName D bucket = true ∧
  Lstat D (filepathJoin D (fs_path D) (denormalizeBucket D bucket)) = inr true ∧
  IsValidObjectPrefix D prefix = true ∧
  (delimiter = "" ∨ delimiter = "/")%string ∧
  (marker = ""%string ∨
   ∃ mk, QueryUnescape D marker = inr mk ∧ HasPrefix mk prefix = true) ∧
  maxKeys ≠ 0.
Proof.
  unfold ListObjects.
  destruct (preamble D bucket prefix marker delimiter maxKeys) as [[[b mk] n]|r] eqn:Hpre.
  - apply preamble_go_iff in Hpre as (Hb & -> & Hdir & Hp & Hd & Hmk & Hz & _).
    intros _. repeat split; try done.
    destruct Hmk as [[? _]|(_ & ? & ?)]; eauto.
  - apply preamble_return in Hpre. destruct r as [result err]. simpl in *. by subst result.
Qed.

Lemma ListObjects_lists_only_valid_witness :
  result_names (ListObjects (sampleDeps [dir "p/"; file "s"]) "bucket" "" "" "/" 1 []).1.1
    ≠ [] ∧
  (("/" = "" ∨ "/" = "/")%string ∧ 1 ≠ 0).
Proof.
  assert (H1 : result_names
                 (ListObjects (sampleDeps [dir "p/"; file "s"]) "bucket" "" "" "/" 1 []).1.1
               ≠ []) by (vm_compute; discriminate).
  split; [done|].
  destruct (ListObjects_lists_only_valid (sampleDeps [dir "p/"; file "s"])
              "bucket" "" "" "/" 1 [] H1) as (_ & _ & _ & Hd & _ & Hz).
  by split.
Defined.

(** ** Listing in two calls *)







End FSProofs.

(** * Properties of the directory entries *)

Module DirentProofs.
Import Dirent.

(** ** C strings *)

Lemma clen_loop_spec (n : bytes) :
  ∀ steps i,
    (steps + i = length n)%nat →
    Byte.x00 ∉ take i n →
    (i ≤ clen_loop n steps i ≤ length n)%nat ∧
    (Byte.x00 ∉ take (clen_loop n steps i) n) ∧
    ((clen_loop n steps i < length n)%nat → n !! clen_loop n steps i = Some Byte.x00).
Proof.
  induction steps as [|steps IH]; intros i Hlen Hfree; simpl.
  - simpl in Hlen. subst i. split; [lia|]. split; [done|lia].
  - destruct (lookup_lt_is_Some_2 n i ltac:(lia)) as [b Hb]. rewrite Hb.
    destruct (decide (b = Byte.x00)) as [->|Hne].
    + split; [lia|]. split; done.
    + destruct (IH (S i)) as (Hrange & Hfree' & Hzero); [lia| |].
      * rewrite (take_S_r _ _ _ Hb), not_elem_of_app, list_elem_of_singleton.
        split; [done|congruence].
      * split; [lia|]. split; done.
Qed.

Lemma clen_first_zero (n : bytes) :
  (clen n ≤ length n)%nat ∧
  (Byte.x00 ∉ take (clen n) n) ∧
  ((clen n < length n)%nat → n !! clen n = Some Byte.x00).
Proof.
  destruct (clen_loop_spec n (length n) 0) as (Hrange & Hfree & Hzero).
  - lia.
  - rewrite take_0. apply not_elem_of_nil.
  - unfold clen. split; [lia|]. split; done.
Qed.

(** [clen] finds the C string at the start of a byte slice: it gives the
    length of the longest prefix free of zero bytes, which ends at the
    first zero byte or at the end of the slice. *)
Theorem clen_spec (n : bytes) :
  (clen n ≤ length n)%nat ∧
  (Byte.x00 ∉ take (clen n) n) ∧
  ((clen n < length n)%nat → n !! clen n = Some Byte.x00).
Proof. exact (clen_first_zero n). Qed.

(** Writing a name as a C string and reading it back: a name without a
    zero byte, followed by a zero byte and anything at all, is cut out
    again by [bytes[0:clen(bytes)]]; without a zero byte in the slice the
    whole slice is the name. *)
Theorem clen_round_trip (s rest : bytes) :
  Byte.x00 ∉ s →
  clen (s ++ Byte.x00 :: rest) = length s ∧
  take (clen (s ++ Byte.x00 :: rest)) (s ++ Byte.x00 :: rest) = s ∧
  clen s = length s.
Proof.
  intros Hfree.
  assert (Hcut : clen (s ++ Byte.x00 :: rest) = length s).
  { destruct (clen_first_zero (s ++ Byte.x00 :: rest)) as (_ & Hfree' & Hzero).
    destruct (Nat.lt_trichotomy (clen (s ++ Byte.x00 :: rest)) (length s))
      as [Hlt|[Heq|Hgt]]; [|done|].
    - exfalso. rewrite length_app in Hzero. specialize (Hzero ltac:(simpl; lia)).
      rewrite lookup_app_l in Hzero by done.
      apply Hfree. by eapply list_elem_of_lookup_2.
    - exfalso. apply Hfree'.
      apply (list_elem_of_lookup_2 _ (length s)).
      rewrite lookup_take_lt by done.
      by rewrite list_lookup_middle. }
  split; [done|]. split.
  - by rewrite Hcut, take_app_length.
  - destruct (clen_first_zero s) as (Hle & _ & Hzero).
    destruct (decide (clen s < length s)%nat) as [Hlt|Hlt]; [|lia].
    exfalso. apply Hfree. eapply list_elem_of_lookup_2. by apply Hzero.
Qed.

Lemma clen_round_trip_witness :
  (Byte.x00 ∉ [Byte.x61; Byte.x62]) ∧
  take (clen [Byte.x61; Byte.x62; Byte.x00; Byte.x63]) [Byte.x61; Byte.x62; Byte.x00; Byte.x63]
    = [Byte.x61; Byte.x62].
Proof.
  assert (H1 : Byte.x00 ∉ [Byte.x61; Byte.x62]).
  { intros Hin. repeat (apply elem_of_cons in Hin as [Hin|Hin]; [discriminate|]).
    by apply elem_of_nil in Hin. }
  split; [done|].
  exact (proj1 (proj2 (clen_round_trip [Byte.x61; Byte.x62] [Byte.x63] H1))).
Defined.

(** ** File modes *)

(** Which entries count as directories: those of type [DT_DIR], and
    those of type [DT_UNKNOWN], whose mode [0xffffffff] has every bit
    set. *)
Theorem modeOf_IsDir (t : dtype) :
  IsDir (modeOf t) = true ↔ t = DT_DIR ∨ t = DT_UNKNOWN.
Proof.
  destruct t; vm_compute; split; try discriminate; auto;
    intros [H|H]; discriminate.
Qed.

(** ** Parsing a buffer *)

Section parse.
Context (P : Platform).

Lemma parse_loop_entries (fuel : nat) (buf : bytes) :
  ∀ bufidx dirents out,
    parse_loop P fuel buf bufidx dirents = Some out →
    ∃ new, out = dirents ++ new ∧ Forall parsed_entry new ∧ (length new ≤ fuel)%nat.
Proof.
  induction fuel as [|fuel IH]; intros bufidx dirents out; cbn [parse_loop];
    destruct (decide (bufidx < length buf)%nat) as [Hlt|Hlt]; try done;
    try (intros [= <-]; exists []; rewrite app_nil_r; repeat split; (done || simpl; lia)).
  destruct (negb (linux P) && (Reclen (direntAt P buf bufidx) =? 0)%nat).
  { intros [= <-]. exists []. rewrite app_nil_r. repeat split; (done || simpl; lia). }
  destruct (isEmptyDirent P (direntAt P buf bufidx)).
  { intros Hrest. destruct (IH _ _ _ Hrest) as (new & -> & Hnew & Hlen).
    exists new. repeat split; (done || lia). }
  destruct (decide (_ ∨ _)) as [Hdots|Hdots].
  { intros Hrest. destruct (IH _ _ _ Hrest) as (new & -> & Hnew & Hlen).
    exists new. repeat split; (done || lia). }
  intros Hrest. destruct (IH _ _ _ Hrest) as (new & -> & Hnew & Hlen).
  eexists (_ :: new). split; [by rewrite <- app_assoc|]. split; [|simpl; lia].
  constructor; [|done]. unfold parsed_entry. simpl.
  split; [tauto|]. split; [tauto|]. split; [|by eauto].
  apply clen_first_zero.
Qed.

Lemma parse_loop_spins (buf : bytes) (bufidx : nat) :
  linux P = true → (bufidx < length buf)%nat →
  Reclen (direntAt P buf bufidx) = 0%nat →
  ∀ fuel dirents, parse_loop P fuel buf bufidx dirents = None.
Proof.
  intros Hlinux Hlt Hzero. induction fuel as [|fuel IH]; intros dirents; cbn [parse_loop];
    rewrite (decide_True (P := (bufidx < length buf)%nat)) by done; [done|].
  rewrite Hlinux, Hzero, Nat.add_0_r. simpl.
  destruct (isEmptyDirent P _); [apply IH|].
  destruct (decide (_ ∨ _)); apply IH.
Qed.

Lemma parse_loop_mono (fuel : nat) (buf : bytes) :
  ∀ fuel' bufidx dirents out,
    (fuel ≤ fuel')%nat →
    parse_loop P fuel buf bufidx dirents = Some out →
    parse_loop P fuel' buf bufidx dirents = Some out.
Proof.
  induction fuel as [|fuel IH]; intros fuel' bufidx dirents out Hle; cbn [parse_loop].
  - destruct (decide (bufidx < length buf)%nat) as [Hlt|Hlt]; [done|].
    intros [= <-]. destruct fuel'; cbn [parse_loop]; by rewrite decide_False.
  - destruct fuel' as [|fuel']; [lia|]. cbn [parse_loop].
    destruct (decide (bufidx < length buf)%nat) as [Hlt|Hlt]; [|done].
    destruct (negb (linux P) && (Reclen (direntAt P buf bufidx) =? 0)%nat); [done|].
    destruct (isEmptyDirent P _); [apply IH; lia|].
    destruct (decide (_ ∨ _)); apply IH; lia.
Qed.

(** A loop that ends at all ends within [len(buf) - bufidx] iterations. *)
Lemma parse_loop_fuel (fuel : nat) (buf : bytes) :
  ∀ bufidx dirents out,
    parse_loop P fuel buf bufidx dirents = Some out →
    parse_loop P (length buf - bufidx) buf bufidx dirents = Some out.
Proof.
  induction fuel as [|fuel IH]; intros bufidx dirents out; cbn [parse_loop].
  - destruct (decide (bufidx < length buf)%nat) as [Hlt|Hlt]; [done|].
    intros [= <-]. destruct (length buf - bufidx)%nat; cbn [parse_loop];
      by rewrite decide_False.
  - destruct (decide (bufidx < length buf)%nat) as [Hlt|Hlt].
    + destruct (length buf - bufidx)%nat as [|todo] eqn:Hleft; [lia|].
      cbn [parse_loop]. rewrite (decide_True (P := (bufidx < length buf)%nat)) by done.
      destruct (negb (linux P) && (Reclen (direntAt P buf bufidx) =? 0)%nat) eqn:Hbreak;
        [done|].
      destruct (Reclen (direntAt P buf bufidx)) as [|reclen] eqn:Hreclen.
      * assert (Hlinux : linux P = true) by (by destruct (linux P)).
        intros Hrest. exfalso.
        assert (Hspin := parse_loop_spins buf bufidx Hlinux Hlt Hreclen fuel).
        rewrite Nat.add_0_r in Hrest.
        destruct (isEmptyDirent P _); [by rewrite Hspin in Hrest|].
        destruct (decide (_ ∨ _)); by rewrite Hspin in Hrest.
      * assert (Hmono : ∀ acc, parse_loop P fuel buf (bufidx + S reclen) acc = Some out →
                               parse_loop P todo buf (bufidx + S reclen) acc = Some out).
        { intros acc Hrest. apply IH in Hrest.
          eapply parse_loop_mono; [|exact Hrest]. lia. }
        destruct (isEmptyDirent P _); [apply Hmono|].
        destruct (decide (_ ∨ _)); apply Hmono.
    + intros [= <-]. destruct (length buf - bufidx)%nat; cbn [parse_loop];
        by rewrite decide_False.
Qed.

Lemma parse_loop_ends (buf : bytes) :
  linux P = false ∨
    (∀ bufidx, (bufidx < length buf)%nat → (0 < Reclen (direntAt P buf bufidx))%nat) →
  ∀ fuel bufidx dirents,
    (length buf ≤ fuel + bufidx)%nat →
    is_Some (parse_loop P fuel buf bufidx dirents).
Proof.
  intros Hok. induction fuel as [|fuel IH]; intros bufidx dirents Hfuel; cbn [parse_loop];
    destruct (decide (bufidx < length buf)%nat) as [Hlt|Hlt]; try done; try lia.
  destruct (negb (linux P) && (Reclen (direntAt P buf bufidx) =? 0)%nat) eqn:Hbreak;
    [done|].
  assert (Hpos : (0 < Reclen (direntAt P buf bufidx))%nat).
  { destruct Hok as [Hlinux|Hpos]; [|by apply Hpos].
    rewrite Hlinux in Hbreak. simpl in Hbreak. apply Nat.eqb_neq in Hbreak. lia. }
  destruct (isEmptyDirent P _); [apply IH; lia|].
  destruct (decide (_ ∨ _)); apply IH; lia.
Qed.

End parse.

(** What [parseDirents] returns: no entry is named [.] or [..], every
    name is cut at its first zero byte, every mode comes from the switch
    and no size is set; and a buffer gives no more entries than it has
    bytes. *)
Theorem parseDirents_entries (P : Platform) (buf : bytes) (dirents : list fsDirent) :
  parseDirents P buf = Some dirents →
  Forall parsed_entry dirents ∧ (length dirents ≤ length buf)%nat.
Proof.
  intros Hparse. apply parse_loop_entries in Hparse as (new & -> & Hnew & Hlen). done.
Qed.

Lemma parseDirents_entries_witness :
  parseDirents (samplePlatform true) sampleBuf
    = Some [mkFsDirent [Byte.x61] ModeDir 0; mkFsDirent [Byte.x62] 0 0] ∧
  Forall parsed_entry [mkFsDirent [Byte.x61] ModeDir 0; mkFsDirent [Byte.x62] 0 0].
Proof.
  assert (H1 : parseDirents (samplePlatform true) sampleBuf
    = Some [mkFsDirent [Byte.x61] ModeDir 0; mkFsDirent [Byte.x62] 0 0])
    by (vm_compute; reflexivity).
  split; [done|].
  exact (proj1 (parseDirents_entries _ _ _ H1)).
Defined.

(** [parseDirents] returns when no record it can reach has length zero,
    and off Linux in any case (there a record of length zero ends the
    loop). *)
Theorem parseDirents_returns (P : Platform) (buf : bytes) :
  linux P = false ∨
    (∀ bufidx, (bufidx < length buf)%nat → (0 < Reclen (direntAt P buf bufidx))%nat) →
  ∃ dirents, parseDirents P buf = Some dirents.
Proof.
  intros Hok. apply (parse_loop_ends P buf Hok (length buf) 0 []). lia.
Qed.

Lemma parseDirents_returns_witness :
  (linux (samplePlatform false) = false ∨
   (∀ bufidx, (bufidx < length sampleBuf)%nat →
      (0 < Reclen (direntAt (samplePlatform false) sampleBuf bufidx))%nat)) ∧
  ∃ dirents, parseDirents (samplePlatform false) sampleBuf = Some dirents.
Proof.
  assert (H1 : linux (samplePlatform false) = false ∨
   (∀ bufidx, (bufidx < length sampleBuf)%nat →
      (0 < Reclen (direntAt (samplePlatform false) sampleBuf bufidx))%nat))
    by (left; reflexivity).
  split; [done|].
  exact (parseDirents_returns (samplePlatform false) sampleBuf H1).
Defined.

(** On Linux a record of length zero at the cursor stops the progress of
    the loop for good: the cursor stays where it is, and the loop does not
    end, however many iterations it is given.  [None] of [parseDirents]
    means just that: a loop that has not ended after [len(buf)] iterations
    never ends. *)
Theorem parseDirents_zero_reclen_never_returns (P : Platform) (buf : bytes) :
  (linux P = true → buf ≠ [] → Reclen (direntAt P buf 0) = 0%nat →
     ∀ fuel, parse_loop P fuel buf 0 [] = None) ∧
  (parseDirents P buf = None → ∀ fuel, parse_loop P fuel buf 0 [] = None).
Proof.
  split.
  - intros Hlinux Hbuf Hzero fuel. apply parse_loop_spins; try done.
    destruct buf; [done|simpl; lia].
  - intros Hnone fuel.
    destruct (parse_loop P fuel buf 0 []) as [out|] eqn:Hfuel; [|done].
    apply parse_loop_fuel in Hfuel. rewrite Nat.sub_0_r in Hfuel.
    unfold parseDirents in Hnone. congruence.
Qed.

(** The theorem at work: a buffer that starts with a record of length
    zero, on Linux. *)
Lemma parseDirents_zero_reclen_never_returns_witness :
  (linux (samplePlatform true) = true ∧
   [Byte.x00; Byte.x08; Byte.x61; Byte.x00] ≠ [] ∧
   Reclen (direntAt (samplePlatform true) [Byte.x00; Byte.x08; Byte.x61; Byte.x00] 0)
     = 0%nat) ∧
  parse_loop (samplePlatform true) 1000 [Byte.x00; Byte.x08; Byte.x61; Byte.x00] 0 [] = None ∧
  parseDirents (samplePlatform false) [Byte.x00; Byte.x08; Byte.x61; Byte.x00] = Some [].
Proof.
  assert (H1 : linux (samplePlatform true) = true) by reflexivity.
  assert (H2 : [Byte.x00; Byte.x08; Byte.x61; Byte.x00] ≠ []) by discriminate.
  assert (H3 : Reclen (direntAt (samplePlatform true)
                         [Byte.x00; Byte.x08; Byte.x61; Byte.x00] 0) = 0%nat)
    by reflexivity.
  split; [done|]. split; [|reflexivity].
  exact (proj1 (parseDirents_zero_reclen_never_returns (samplePlatform true)
                  [Byte.x00; Byte.x08; Byte.x61; Byte.x00]) H1 H2 H3 1000%nat).
Defined.

(** ** Reading a directory *)

Lemma keep_loop_entries (entryPrefixMatch : bytes) (parsed : list fsDirent) :
  ∀ dirents,
    Forall parsed_entry parsed →
    ∃ new, keep_loop entryPrefixMatch parsed dirents = dirents ++ new ∧
           Forall (listed_entry entryPrefixMatch) new ∧
           (length new ≤ length parsed)%nat.
Proof.
  induction parsed as [|d parsed IH]; intros dirents Hparsed; cbn [keep_loop].
  - exists []. by rewrite app_nil_r.
  - apply Forall_cons in Hparsed as [(Hdot & Hdotdot & Hzero & _ & Hsize) Hparsed].
    case_bool_decide as Hprefix.
    + destruct (IH (dirents ++
                  [if IsDir (mode d) then mkFsDirent (name d ++ PathSeparator) (mode d) 0
                   else d]) Hparsed) as (new & -> & Hnew & Hlen).
      eexists (_ :: new). split; [by rewrite <- app_assoc|]. split; [|simpl; lia].
      constructor; [|done]. split; [done|]. split.
      * by destruct (IsDir (mode d)).
      * exists (name d). repeat split; try done.
        destruct (IsDir (mode d)) eqn:Hdir; simpl; by rewrite Hdir.
    + destruct (IH dirents Hparsed) as (new & -> & Hnew & Hlen).
      exists new. split; [done|]. split; [done|simpl; lia].
Qed.

Lemma read_dirents_entries (P : Platform) (entryPrefixMatch : bytes)
    (reads : list (error + bytes)) :
  ∀ dirents out,
    read_dirents P entryPrefixMatch reads dirents = Some (Ok out) →
    ∃ new, out = dirents ++ new ∧ Forall (listed_entry entryPrefixMatch) new.
Proof.
  induction reads as [|[err|buf] reads IH]; intros dirents out; cbn [read_dirents].
  - intros [= <-]. exists []. by rewrite app_nil_r.
  - done.
  - destruct (decide (length buf = 0)%nat).
    { intros [= <-]. exists []. by rewrite app_nil_r. }
    destruct (parseDirents P buf) as [parsed|] eqn:Hparse; [|done]. simpl.
    apply parse_loop_entries in Hparse as (parsed' & Hparsed' & Hparsed & _).
    simpl in Hparsed'. subst parsed'.
    destruct (keep_loop_entries entryPrefixMatch parsed dirents Hparsed)
      as (kept & -> & Hkept & _).
    intros Hrest. destruct (IH _ _ Hrest) as (new & -> & Hnew).
    exists (kept ++ new). split; [by rewrite <- app_assoc|].
    by apply Forall_app.
Qed.

(** What [readDirAll] lists: every entry starts with the prefix asked
    for; a directory (an entry of type [DT_DIR] or of unknown type) has a
    separator at the end of its name; [.] and [..] are never listed, with
    or without the separator; no size is set.  The sort is taken to
    permute its argument. *)
Theorem readDirAll_entries (P : Platform) (opened : error + list (error + bytes))
    (entryPrefixMatch : bytes) (dirents : list fsDirent) :
  (∀ l, sortByDirentName P l ≡ₚ l) →
  readDirAll P opened entryPrefixMatch = Some (Ok dirents) →
  Forall (listed_entry entryPrefixMatch) dirents.
Proof.
  intros Hsort. unfold readDirAll. destruct opened as [err|reads]; [done|].
  destruct (read_dirents P entryPrefixMatch reads []) as [[out|err]|] eqn:Hread; [|done..].
  intros [= <-]. rewrite Hsort.
  by apply read_dirents_entries in Hread as (new & -> & Hnew).
Qed.

Lemma readDirAll_entries_witness :
  ((∀ l, sortByDirentName (samplePlatform true) l ≡ₚ l) ∧
   readDirAll (samplePlatform true) (inr [inr sampleBuf; inr []]) [Byte.x61]
     = Some (Ok [mkFsDirent [Byte.x61; Byte.x2f] ModeDir 0])) ∧
  Forall (listed_entry [Byte.x61]) [mkFsDirent [Byte.x61; Byte.x2f] ModeDir 0].
Proof.
  assert (H1 : ∀ l, sortByDirentName (samplePlatform true) l ≡ₚ l) by (intros l; reflexivity).
  assert (H2 : readDirAll (samplePlatform true) (inr [inr sampleBuf; inr []]) [Byte.x61]
     = Some (Ok [mkFsDirent [Byte.x61; Byte.x2f] ModeDir 0])) by (vm_compute; reflexivity).
  split; [done|].
  exact (readDirAll_entries _ _ _ _ H1 H2).
Defined.

(** An error of [os.Open] or of any [syscall.ReadDirent] call is the
    result of [readDirAll], and what was read before it is dropped; reads
    after the first empty one are not looked at. *)
Theorem readDirAll_first_error (P : Platform) (entryPrefixMatch : bytes)
    (before : list bytes) (err : error) (after : list (error + bytes)) :
  Forall (λ buf, buf ≠ [] ∧ is_Some (parseDirents P buf)) before →
  readDirAll P (inr ((inr <$> before) ++ inl err :: after)) entryPrefixMatch
    = Some (Err err) ∧
  ∃ r, readDirAll P (inr ((inr <$> before) ++ inr [] :: after)) entryPrefixMatch
         = Some (Ok r) ∧
       readDirAll P (inr (inr <$> before)) entryPrefixMatch = Some (Ok r).
Proof.
  intros Hbefore. unfold readDirAll.
  assert (Hloop : ∀ dirents,
    read_dirents P entryPrefixMatch ((inr <$> before) ++ inl err :: after) dirents
      = Some (Err err) ∧
    ∃ r, read_dirents P entryPrefixMatch ((inr <$> before) ++ inr [] :: after) dirents
           = Some (Ok r) ∧
         read_dirents P entryPrefixMatch (inr <$> before) dirents = Some (Ok r)).
  { induction Hbefore as [|buf before [Hbuf [parsed Hparse]] _ IH]; intros dirents.
    - simpl. split; [done|]. by eexists.
    - cbn [fmap list_fmap app read_dirents].
      rewrite !decide_False by (by destruct buf). rewrite Hparse. simpl. apply IH. }
  destruct (Hloop []) as (-> & r & -> & ->). split; [done|]. by eexists.
Qed.

Lemma readDirAll_first_error_witness :
  Forall (λ buf, buf ≠ [] ∧ is_Some (parseDirents (samplePlatform true) buf)) [sampleBuf] ∧
  readDirAll (samplePlatform true) (inr [inr sampleBuf; inl (errDisk 5)]) []
    = Some (Err (errDisk 5)).
Proof.
  assert (H1 : Forall (λ buf, buf ≠ [] ∧ is_Some (parseDirents (samplePlatform true) buf))
                 [sampleBuf]).
  { constructor; [|constructor]. split; [discriminate|]. vm_compute. by eexists. }
  split; [done|].
  exact (proj1 (readDirAll_first_error (samplePlatform true) [] [sampleBuf] (errDisk 5) [] H1)).
Defined.

End DirentProofs.

(** * Properties of the server command *)

Module ServerProofs.
Import Server.

Lemma prefix_percent (c : Ascii.ascii) (s : string) :
  String.prefix "%" (String c s) = bool_decide (String c "" = "%"%string).
Proof.
  cbn [String.prefix].
  match goal with
  | |- context [Ascii.ascii_dec ?a c] => destruct (Ascii.ascii_dec a c) as [<-|Hne]
  end.
  - rewrite bool_decide_eq_true_2 by done. by destruct s.
  - by rewrite bool_decide_eq_false_2 by congruence.
Qed.

Lemma Index_percent_nonneg (s : string) : -1 <= Index s "%".
Proof.
  induction s as [|c s IH]; [done|].
  cbn [Index]. rewrite prefix_percent.
  case_bool_decide; [lia|]. case_decide; lia.
Qed.

Lemma Index_app_percent (a b : string) :
  Index a "%" < 0 →
  Index (a +:+ "%" +:+ b) "%" = Z.of_nat (String.length a).
Proof.
  induction a as [|c a IH]; intros Hnone.
  - cbv [String.append]. cbn [Index String.length]. rewrite prefix_percent.
    by rewrite bool_decide_eq_true_2.
  - change (String c a +:+ "%" +:+ b) with (String c (a +:+ "%" +:+ b)).
    cbn [Index] in *. rewrite prefix_percent in *.
    case_bool_decide; [lia|].
    pose proof (Index_percent_nonneg a).
    destruct (decide (Index a "%" < 0)) as [Ha|Ha]; [|lia].
    rewrite IH by done. rewrite decide_False by lia.
    cbn [String.length]. lia.
Qed.

Lemma substring_app_length (a rest : string) :
  String.substring 0 (String.length a) (a +:+ rest) = a.
Proof.
  induction a as [|c a IH]; simpl.
  - by destruct rest.
  - by rewrite IH.
Qed.

(** [parsePercentToInt] parses what stands before the first percent
    sign and ignores the sign and whatever follows it; a string without
    percent sign is parsed as a whole.  The number is not scaled in any
    way: the percentage comes back as the plain integer. *)
Theorem parsePercentToInt_before_percent (ParseInt : string → Z → Z → result Z)
    (a b : string) (bitSize : Z) :
  Index a "%" < 0 →
  parsePercentToInt ParseInt (a +:+ "%" +:+ b) bitSize = ParseInt a 10 bitSize ∧
  parsePercentToInt ParseInt a bitSize = ParseInt a 10 bitSize.
Proof.
  intros Hnone. unfold parsePercentToInt. split.
  - rewrite Index_app_percent by done. rewrite decide_False by lia.
    rewrite Nat2Z.id, substring_app_length. by destruct (ParseInt a 10 bitSize).
  - rewrite decide_True by done. by destruct (ParseInt a 10 bitSize).
Qed.

Lemma parsePercentToInt_before_percent_witness :
  Index "5" "%" < 0 ∧
  parsePercentToInt sampleParseInt "5%" 64 = Ok 5 ∧
  parsePercentToInt sampleParseInt "5%10" 64 = Ok 5.
Proof.
  assert (H1 : Index "5" "%" < 0) by (vm_compute; reflexivity).
  split; [done|]. split.
  - exact (proj1 (parsePercentToInt_before_percent sampleParseInt "5" "" 64 H1)).
  - exact (proj1 (parsePercentToInt_before_percent sampleParseInt "5" "10" 64 H1)).
Defined.

End ServerProofs.

(** * Properties of the controller *)

Module ControllerProofs.
Import Controller.

Lemma serve_all_list (rs : list request) :
  ∀ this, (serve_all this rs).1 = this ++ added rs.
Proof.
  induction rs as [|r rs IH]; intros this; cbn [serve_all added].
  - by rewrite app_nil_r.
  - destruct (serve this r) as [this' rep] eqn:Hserve.
    specialize (IH this'). destruct (serve_all this' rs) as [this'' reps].
    simpl in *. subst this''.
    destruct r as [arg [err|]| | | |]; simpl in Hserve; simplify_eq; try done.
    by rewrite <- app_assoc.
Qed.

(** The list the controller keeps: after any sequence of requests, [List]
    gives the servers the service started with followed by the arguments
    of the [Add] requests whose call to the server went through, in the
    order they came in; a failed [Add] and the other methods leave the
    list alone, and a server added twice is listed twice. *)
Theorem controller_List_after (this : list ServerArg) (rs : list request)
    (arg : ServerArg) :
  (serve (serve_all this rs).1 (ReqList arg)).2
    = mkReply None (Some (this ++ added rs)).
Proof. by rewrite serve_all_list. Qed.

End ControllerProofs.

(** * Properties of the bucket handlers *)

Module HandlersProofs.
Import Handlers.

(** [ListObjectsHandler] and the filesystem.  Whenever the handler lists,
    it lists the bucket of the request with a positive [MaxKeys] (for a
    positive [maxObjectList]): the value of the request, or
    [maxObjectList] when the request gives zero, and the response is then
    neither [AccessDenied] nor [InvalidMaxKeys], whatever the filesystem
    returns.  It answers [AccessDenied] exactly when the API is not
    anonymous, the request needs the ACL check and the bucket is
    private. *)
Theorem ListObjectsHandler_calls {Resp : Type} (Anonymous : bool) (F : Filesystem Resp)
    (req : Request) :
  0 < maxObjectList F →
  let calls := (ListObjectsHandler Anonymous F req).1 in
  let resp := (ListObjectsHandler Anonymous F req).2 in
  (∀ bucket listReq, CallListObjects bucket listReq ∈ calls →
     bucket = bucketVar req ∧ 0 < req_MaxKeys listReq ∧
     req_MaxKeys listReq
       = (if decide (Maxkeys (resources req) = 0) then maxObjectList F
          else Maxkeys (resources req)) ∧
     resp ≠ ErrorResponse AccessDenied ∧ resp ≠ ErrorResponse InvalidMaxKeys) ∧
  (resp = ErrorResponse AccessDenied ↔
     Anonymous = false ∧ requiresACLCheck req = true ∧
     IsPrivateBucket F (bucketVar req) = true).
Proof.
  intros Hmax. cbv zeta. unfold ListObjectsHandler.
  set (asked := if negb Anonymous && requiresACLCheck req
                then [CallIsPrivateBucket (bucketVar req)] else []).
  assert (Hasked : ∀ bucket listReq, CallListObjects bucket listReq ∉ asked).
  { intros bucket listReq Hin. subst asked.
    destruct (negb Anonymous && requiresACLCheck req).
    - apply list_elem_of_singleton in Hin. discriminate.
    - by apply elem_of_nil in Hin. }
  destruct (negb Anonymous && requiresACLCheck req && IsPrivateBucket F (bucketVar req))
    eqn:Hdenied.
  { simpl. split.
    - intros bucket listReq Hin. apply list_elem_of_singleton in Hin. discriminate.
    - split; [intros _|done].
      apply andb_true_iff in Hdenied as [[Ha Hr]%andb_true_iff Hp].
      by destruct Anonymous. }
  assert (Hnot : ¬ (Anonymous = false ∧ requiresACLCheck req = true ∧
                    IsPrivateBucket F (bucketVar req) = true)).
  { intros (-> & Hr & Hp). by rewrite Hr, Hp in Hdenied. }
  destruct (decide (Maxkeys (resources req) < 0)) as [Hneg|Hneg].
  { simpl. split; [|split; [done|tauto]].
    intros bucket listReq Hin. by apply Hasked in Hin. }
  assert (Hpos : 0 < (if decide (Maxkeys (resources req) = 0) then maxObjectList F
                      else Maxkeys (resources req))) by (case_decide; lia).
  assert (Hlisted : ∀ bucket listReq,
    CallListObjects bucket listReq ∈
      asked ++ [CallListObjects (bucketVar req)
                  (mkListObjectsReq (Prefix (resources req)) (Marker (resources req))
                     (Delimiter (resources req))
                     (if decide (Maxkeys (resources req) = 0) then maxObjectList F
                      else Maxkeys (resources req)))] →
    bucket = bucketVar req ∧ 0 < req_MaxKeys listReq ∧
    req_MaxKeys listReq = (if decide (Maxkeys (resources req) = 0) then maxObjectList F
                           else Maxkeys (resources req))).
  { intros bucket listReq [Hin|Hin]%elem_of_app; [by apply Hasked in Hin|].
    apply list_elem_of_singleton in Hin. by simplify_eq/=. }
  destruct (ListObjects F (bucketVar req) _) as [[| | | | |code]|listResp]; simpl;
    (split; [intros bucket listReq Hin; destruct (Hlisted _ _ Hin) as (? & ? & ?);
             repeat split; done
            |split; [done|tauto]]).
Qed.

Lemma ListObjectsHandler_calls_witness :
  0 < maxObjectList sampleFilesystem ∧
  ListObjectsHandler false sampleFilesystem sampleRequest
    = ([CallListObjects "bucket" (mkListObjectsReq "" "" "" 1000)],
       ListObjectsResponse "bucket" (mkListObjectsReq "" "" "" 1000) []) ∧
  0 < req_MaxKeys (mkListObjectsReq "" "" "" 1000).
Proof.
  assert (H1 : 0 < maxObjectList sampleFilesystem) by (simpl; lia).
  split; [done|]. split; [reflexivity|].
  destruct (ListObjectsHandler_calls false sampleFilesystem sampleRequest H1) as [Hcalls _].
  destruct (Hcalls "bucket"%string (mkListObjectsReq "" "" "" 1000)) as (_ & Hpos & _).
  - simpl. apply list_elem_of_singleton. reflexivity.
  - exact Hpos.
Defined.

Lemma checkSignature_readable {Resp : Type} (Anonymous : bool) (F : Filesystem Resp)
    (req : Request) :
  (readAllBody req).2 = None →
  checkSignature Anonymous F req ≠ Some SignatureDoesNotMatch ∧
  ∀ s s', checkSignature Anonymous F (with_signature req s)
          = checkSignature Anonymous F (with_signature req s').
Proof.
  intros Hread. unfold checkSignature, with_signature. simpl.
  destruct (readAllBody req) as [locationBytes err]. simpl in Hread. subst err.
  split.
  - destruct (negb Anonymous && signatureV4 req); [destruct (initSignatureV4 req)|];
      destruct (hasBody req); try done;
      by destruct (String.eqb (contentLength req) "").
  - intros s s'. destruct (negb Anonymous && signatureV4 req); [|done].
    destruct (hasBody req); [|done].
    by destruct (String.eqb (contentLength req) "").
Qed.

(** [PutBucketHandler] compares the signature only when reading the body
    has failed (line 211 tests [err != nil]).  For a request whose body is
    read without error the handler does the same whatever the signature
    set up for the request says, and it never answers
    [SignatureDoesNotMatch]. *)
Theorem PutBucketHandler_signature_unchecked {Resp : Type} (Anonymous : bool)
    (F : Filesystem Resp) (req : Request) :
  (readAllBody req).2 = None →
  (∀ s s', PutBucketHandler Anonymous F (with_signature req s)
           = PutBucketHandler Anonymous F (with_signature req s')) ∧
  (PutBucketHandler Anonymous F req).2 ≠ ErrorResponse SignatureDoesNotMatch.
Proof.
  intros Hread. destruct (checkSignature_readable Anonymous F req Hread) as [Hcode Hsame].
  split.
  - intros s s'. unfold PutBucketHandler. rewrite (Hsame s s'). done.
  - unfold PutBucketHandler.
    destruct (negb Anonymous && requiresACLCheck req); [done|].
    destruct (aclType req) as [|acl]; [done|].
    destruct (checkSignature Anonymous F req) as [code|]; [simpl; congruence|].
    by destruct (MakeBucket F _ _) as [[| | | | |other]|].
Qed.

(** The theorem at work: a signed request whose signature matches nothing
    makes its bucket. *)
Lemma PutBucketHandler_signature_unchecked_witness :
  (readAllBody sampleRequest).2 = None ∧
  DoesSignatureMatch (mkSignature (λ _, inr false)) "hash" = inr false ∧
  PutBucketHandler false sampleFilesystem
    (with_signature sampleRequest (mkSignature (λ _, inr false)))
  = PutBucketHandler false sampleFilesystem
      (with_signature sampleRequest (mkSignature (λ _, inr true))) ∧
  PutBucketHandler false sampleFilesystem sampleRequest
  = ([CallMakeBucket "bucket" "private"], SuccessResponse "/bucket").
Proof.
  assert (H1 : (readAllBody sampleRequest).2 = None) by reflexivity.
  split; [done|]. split; [reflexivity|]. split; [|reflexivity].
  exact (proj1 (PutBucketHandler_signature_unchecked false sampleFilesystem sampleRequest H1)
           (mkSignature (λ _, inr false)) (mkSignature (λ _, inr true))).
Defined.

End HandlersProofs.
